(** * model-signing: directory serializer and root digest

    A shallow embedding of [serializer/dir/serializer.go] and
    [serializer/options] of carabiner-dev/model-signing, together with
    models of the Go standard-library routines the serializer calls
    ([crypto/sha256], [encoding/hex], [strings], [path/filepath] on a
    Unix host, and the slice primitives [make], [copy], [append]).

    Conventions:
    - a Go [string] is a [string] (a sequence of 8-bit characters);
    - a Go [byte] is a [Z] in [0, 256), a [uint32] a [Z] reduced modulo
      [2^32], a [uint64] a [Z] reduced modulo [2^64];
    - a Go [error] is a value of the inductive type [error]; a function
      returning [(T, error)] returns a [Result T];
    - Go maps are [gmap]s; a lookup of a missing key that yields the zero
      value in Go is written [default zero (m !! k)];
    - slices share backing arrays, which live in an explicit [Store]. *)

From Stdlib Require Import ZArith Ascii String List Lia Bool.
From stdpp Require Import base tactics option list gmap strings sorting.

Local Open Scope Z_scope.

(** ** Errors *)

(** Go [error] values.  [errorString] is what [errors.New] and a
    [fmt.Errorf] without [%w] build; [wrapError prefix err] is
    [fmt.Errorf(prefix + "%w", err)]; [osError] is an error reported by
    the operating system, with its message; [SkipDir] and [SkipAll] are
    the sentinels of [path/filepath]; [InvalidByteError] and [ErrLength]
    are those of [encoding/hex]. *)
Inductive error : Type :=
| errorString (s : string)
| wrapError (prefix : string) (err : error)
| osError (msg : string)
| SkipDir
| SkipAll
| InvalidByteError (b : Z)
| ErrLength.

Global Instance error_eq_dec : EqDecision error.
Proof. solve_decision. Defined.

Inductive Result (A : Type) : Type :=
| Ok (a : A)
| Err (e : error).
Arguments Ok {A} a.
Arguments Err {A} e.

(** ** crypto/sha256 *)

Module sha256.

Definition Size : nat := 32.
Definition chunk : nat := 64.

Definition u32 (x : Z) : Z := x mod 2 ^ 32.
Definition u64 (x : Z) : Z := x mod 2 ^ 64.

(** [bits.RotateLeft32(x, -n)] *)
Definition rotr (n x : Z) : Z :=
  u32 (Z.lor (Z.shiftr x n) (Z.shiftl x (32 - n))).

(** [^x] on a [uint32] *)
Definition not32 (x : Z) : Z := Z.lxor x (2 ^ 32 - 1).

Definition init : list Z :=
  [ 0x6A09E667; 0xBB67AE85; 0x3C6EF372; 0xA54FF53A;
    0x510E527F; 0x9B05688C; 0x1F83D9AB; 0x5BE0CD19 ].

(** The round constants [_K], in eight groups of eight. *)
Definition _K0 : list Z :=
  [ 0x428a2f98; 0x71374491; 0xb5c0fbcf; 0xe9b5dba5;
    0x3956c25b; 0x59f111f1; 0x923f82a4; 0xab1c5ed5 ].
Definition _K1 : list Z :=
  [ 0xd807aa98; 0x12835b01; 0x243185be; 0x550c7dc3;
    0x72be5d74; 0x80deb1fe; 0x9bdc06a7; 0xc19bf174 ].
Definition _K2 : list Z :=
  [ 0xe49b69c1; 0xefbe4786; 0x0fc19dc6; 0x240ca1cc;
    0x2de92c6f; 0x4a7484aa; 0x5cb0a9dc; 0x76f988da ].
Definition _K3 : list Z :=
  [ 0x983e5152; 0xa831c66d; 0xb00327c8; 0xbf597fc7;
    0xc6e00bf3; 0xd5a79147; 0x06ca6351; 0x14292967 ].
Definition _K4 : list Z :=
  [ 0x27b70a85; 0x2e1b2138; 0x4d2c6dfc; 0x53380d13;
    0x650a7354; 0x766a0abb; 0x81c2c92e; 0x92722c85 ].
Definition _K5 : list Z :=
  [ 0xa2bfe8a1; 0xa81a664b; 0xc24b8b70; 0xc76c51a3;
    0xd192e819; 0xd6990624; 0xf40e3585; 0x106aa070 ].
Definition _K6 : list Z :=
  [ 0x19a4c116; 0x1e376c08; 0x2748774c; 0x34b0bcb5;
    0x391c0cb3; 0x4ed8aa4a; 0x5b9cca4f; 0x682e6ff3 ].
Definition _K7 : list Z :=
  [ 0x748f82ee; 0x78a5636f; 0x84c87814; 0x8cc70208;
    0x90befffa; 0xa4506ceb; 0xbef9a3f7; 0xc67178f2 ].

Definition _K : list Z :=
  _K0 ++ _K1 ++ _K2 ++ _K3 ++ _K4 ++ _K5 ++ _K6 ++ _K7.

(** The first sixteen message words: big-endian 32-bit reads of the
    block. *)
Fixpoint words (p : list Z) : list Z :=
  match p with
  | b0 :: b1 :: b2 :: b3 :: rest =>
      u32 (Z.lor (Z.lor (Z.lor (Z.shiftl b0 24) (Z.shiftl b1 16))
                        (Z.shiftl b2 8)) b3) :: words rest
  | _ => []
  end.

(** The message schedule [w[16..63]]; [w] holds the words computed so
    far, most recent first. *)
Fixpoint schedule (n : nat) (w : list Z) : list Z :=
  match n with
  | O => w
  | S n' =>
      let v1 := nth 1 w 0 in
      let t1 := Z.lxor (Z.lxor (rotr 17 v1) (rotr 19 v1)) (Z.shiftr v1 10) in
      let v2 := nth 14 w 0 in
      let t2 := Z.lxor (Z.lxor (rotr 7 v2) (rotr 18 v2)) (Z.shiftr v2 3) in
      schedule n' (u32 (t1 + nth 6 w 0 + t2 + nth 15 w 0) :: w)
  end.

Definition round (v : list Z) (kw : Z * Z) : list Z :=
  match v with
  | [a; b; c; d; e; f; g; h] =>
      let t1 := u32 (h + Z.lxor (Z.lxor (rotr 6 e) (rotr 11 e)) (rotr 25 e)
                       + Z.lxor (Z.land e f) (Z.land (not32 e) g)
                       + fst kw + snd kw) in
      let t2 := u32 (Z.lxor (Z.lxor (rotr 2 a) (rotr 13 a)) (rotr 22 a)
                     + Z.lxor (Z.lxor (Z.land a b) (Z.land a c)) (Z.land b c)) in
      [u32 (t1 + t2); a; b; c; u32 (d + t1); e; f; g]
  | _ => v
  end.

(** [blockGeneric] on one 64-byte chunk. *)
Definition block (h : list Z) (p : list Z) : list Z :=
  let w := rev (schedule 48 (rev (words p))) in
  let v := fold_left round (combine _K w) h in
  map (fun xy => u32 (fst xy + snd xy)) (combine h v).

(** [type digest struct { h [8]uint32; x [chunk]byte; nx int; len uint64 }];
    [x] keeps only the [nx] buffered bytes. *)
Record digest : Type := Digest { h : list Z; x : list Z; len : Z }.

(** [sha256.New()] *)
Definition New : digest := Digest init [] 0.

(** The buffering of [Write]: bytes are appended to the pending block,
    and a block is compressed as soon as it is full. *)
Fixpoint absorb (hs : list Z) (buf : list Z) (p : list Z) : list Z * list Z :=
  match p with
  | [] => (hs, buf)
  | b :: p' =>
      let buf' := buf ++ [b] in
      if Nat.eqb (length buf') chunk
      then absorb (block hs buf') [] p'
      else absorb hs buf' p'
  end.

(** [func (d *digest) Write(p []byte)] *)
Definition Write (d : digest) (p : list Z) : digest :=
  let '(hs, buf) := absorb (h d) (x d) p in
  Digest hs buf (u64 (len d + Z.of_nat (length p))).

(** [binary.BigEndian.PutUint64] and [PutUint32] *)
Definition PutUint64 (v : Z) : list Z :=
  map (fun i => Z.shiftr v (8 * i) mod 256) [7; 6; 5; 4; 3; 2; 1; 0].
Definition PutUint32 (v : Z) : list Z :=
  map (fun i => Z.shiftr v (8 * i) mod 256) [3; 2; 1; 0].

(** [func (d *digest) checkSum() [Size]byte] *)
Definition checkSum (d : digest) : list Z :=
  let n := len d in
  let t := if n mod 64 <? 56 then 56 - n mod 64 else 64 + 56 - n mod 64 in
  let padlen := (0x80 :: repeat 0 (Z.to_nat t - 1)) ++ PutUint64 (u64 (Z.shiftl n 3)) in
  let d' := Write d padlen in
  concat (map PutUint32 (h d')).

(** [func (d *digest) Sum(in []byte) []byte]: works on a copy of [d]. *)
Definition Sum (d : digest) (b : list Z) : list Z := b ++ checkSum d.

(** [sha256.Sum256] *)
Definition Sum256 (data : list Z) : list Z := checkSum (Write New data).

End sha256.

(** ** encoding/hex *)

Module hex.

Definition hextable : string := "0123456789abcdef".

Definition hexdigit (n : Z) : ascii :=
  default "0"%char (String.get (Z.to_nat n) hextable).

(** [hex.EncodeToString] *)
Fixpoint EncodeToString (src : list Z) : string :=
  match src with
  | [] => ""
  | v :: rest =>
      String (hexdigit (Z.shiftr v 4))
        (String (hexdigit (Z.land v 0x0f)) (EncodeToString rest))
  end.

(** [reverseHexTable]: the value of a hexadecimal digit, upper or lower
    case. *)
Definition fromHexChar (c : ascii) : option Z :=
  let n := Z.of_N (N_of_ascii c) in
  if (48 <=? n) && (n <=? 57) then Some (n - 48)
  else if (97 <=? n) && (n <=? 102) then Some (n - 97 + 10)
  else if (65 <=? n) && (n <=? 70) then Some (n - 65 + 10)
  else None.

(** [hex.DecodeString]; on an error Go also returns the bytes decoded
    so far, which no caller here reads. *)
Fixpoint DecodeString (s : string) : Result (list Z) :=
  match s with
  | EmptyString => Ok []
  | String p EmptyString =>
      match fromHexChar p with
      | None => Err (InvalidByteError (Z.of_N (N_of_ascii p)))
      | Some _ => Err ErrLength
      end
  | String p (String q rest) =>
      match fromHexChar p, fromHexChar q with
      | None, _ => Err (InvalidByteError (Z.of_N (N_of_ascii p)))
      | Some _, None => Err (InvalidByteError (Z.of_N (N_of_ascii q)))
      | Some a, Some b =>
          match DecodeString rest with
          | Ok bytes => Ok (Z.lor (Z.shiftl a 4) b :: bytes)
          | Err e => Err e
          end
      end
  end.

End hex.

Definition bytes_of_string (s : string) : list Z :=
  map (fun c => Z.of_N (N_of_ascii c)) (list_ascii_of_string s).

(** ** strings *)

Module strings.

(** [strings.HasPrefix(s, prefix)] *)
Fixpoint HasPrefix (s prefix : string) {struct prefix} : bool :=
  match prefix with
  | EmptyString => true
  | String c prefix' =>
      match s with
      | EmptyString => false
      | String d s' => Ascii.eqb d c && HasPrefix s' prefix'
      end
  end.

(** [strings.Split(s, "/")] *)
Fixpoint Split (s : string) : list string :=
  match s with
  | EmptyString => [EmptyString]
  | String c s' =>
      if Ascii.eqb c "/" then EmptyString :: Split s'
      else match Split s' with
           | e :: es => String c e :: es
           | [] => [String c EmptyString]
           end
  end.

(** [strings.Join(elems, "/")] *)
Fixpoint Join (elems : list string) : string :=
  match elems with
  | [] => ""
  | [e] => e
  | e :: es => e +:+ "/" +:+ Join es
  end.

End strings.

(** ** path/filepath (Unix) *)

(** Paths are processed element by element: where the Go code scans the
    bytes of a path for separators, the model works on
    [strings.Split path] and joins the result. *)
Module filepath.

Definition Separator : ascii := "/".

(** [filepath.ToSlash]: the identity where the separator is a slash. *)
Definition ToSlash (path : string) : string :=
  if Ascii.eqb Separator "/" then path
  else string_of_list_ascii
         (map (fun c => if Ascii.eqb c Separator then "/"%char else c)
              (list_ascii_of_string path)).

(** [filepath.IsAbs] *)
Definition IsAbs (path : string) : bool := strings.HasPrefix path "/".

(** One step of the scan of [Clean]; [out] is the output so far, last
    element first.  An empty element and [.] are dropped; [..] removes
    the last element when there is one that is not itself [..], is kept
    on a path that is not rooted, and is dropped at the root. *)
Definition cleanStep (rooted : bool) (out : list string) (e : string)
  : list string :=
  if decide (e = "") then out
  else if decide (e = ".") then out
  else if decide (e = "..") then
    match out with
    | last :: out' =>
        if decide (last = "..") then e :: out else out'
    | [] => if rooted then out else [e]
    end
  else e :: out.

Definition cleanElems (rooted : bool) (path : string) : list string :=
  rev (fold_left (cleanStep rooted) (strings.Split path) []).

(** [filepath.Clean] *)
Definition Clean (path : string) : string :=
  if decide (path = "") then "."
  else
    let rooted := strings.HasPrefix path "/" in
    let out := cleanElems rooted path in
    if rooted then "/" +:+ strings.Join out
    else if decide (out = []) then "." else strings.Join out.

(** [filepath.Join] *)
Fixpoint Join (elem : list string) : string :=
  match elem with
  | [] => ""
  | e :: rest =>
      if decide (e = "") then Join rest
      else Clean (strings.Join elem)
  end.

(** [filepath.Base] *)
Definition Base (path : string) : string :=
  if decide (path = "") then "."
  else
    match filter (fun e => e ≠ "") (rev (strings.Split path)) with
    | e :: _ => e
    | [] => "/"
    end.

(** The elements the scanning loop of [Rel] steps through on a cleaned
    path: none for the empty path, and no element after a final
    separator. *)
Definition relElems (p : string) : list string :=
  if decide (p = "") then []
  else
    let es := strings.Split p in
    match rev es with
    | last :: front => if decide (last = "") then rev front else es
    | [] => es
    end.

(** Drop the common leading elements of two element lists. *)
Fixpoint dropCommon (bs ts : list string) : list string * list string :=
  match bs, ts with
  | b :: bs', t :: ts' =>
      if decide (b = t) then dropCommon bs' ts' else (bs, ts)
  | _, _ => (bs, ts)
  end.

(** [".."] repeated [n] times, joined by separators. *)
Definition ups (n : nat) : string := strings.Join (repeat ".." n).

(** [filepath.Rel] *)
Definition Rel (basepath targpath : string) : Result string :=
  let base := Clean basepath in
  let targ := Clean targpath in
  if decide (targ = base) then Ok "."
  else
    let base := if decide (base = ".") then "" else base in
    let baseSlashed := strings.HasPrefix base "/" in
    let targSlashed := strings.HasPrefix targ "/" in
    let cant := errorString ("Rel: can't make " +:+ targpath +:+
                             " relative to " +:+ basepath) in
    if negb (Bool.eqb baseSlashed targSlashed) then Err cant
    else
      match dropCommon (relElems base) (relElems targ) with
      | ([], ts) => Ok (strings.Join ts)
      | (b :: bs, ts) =>
          if decide (b = "..") then Err cant
          else
            match ts with
            | [] => Ok (ups (S (length bs)))
            | t :: ts' =>
                Ok (ups (S (length bs)) +:+ "/" +:+ strings.Join (t :: ts'))
            end
      end.

(** [filepath.Abs]; [wd] is what [os.Getwd] returns. *)
Definition Abs (wd : Result string) (path : string) : Result string :=
  if IsAbs path then Ok (Clean path)
  else
    match wd with
    | Err e => Err e
    | Ok wd => Ok (Join [wd; path])
    end.

End filepath.

(** ** Slices, pointers and the store *)

(** Backing arrays of [[]string] slices and heap-allocated structs live
    in a store.  A computation that dereferences a nil or dangling
    pointer panics, which is the outcome [None]. *)
Module runtime.

Definition loc : Type := nat.

(** A slice header: backing array, offset of its first element in that
    array, length and capacity.  The nil slice has no backing array. *)
Record slice : Type :=
  Slice { base : option loc; off : nat; len : nat; cap : nat }.

Definition nilSlice : slice := Slice None 0 0 0.

Record Store (T : Type) : Type :=
  MkStore { Arrays : gmap loc (list string); Structs : gmap loc T }.
Arguments MkStore {T} Arrays Structs.
Arguments Arrays {T} s.
Arguments Structs {T} s.

Definition M (T A : Type) : Type := Store T -> option (A * Store T).

Definition ret {T A} (a : A) : M T A := fun st => Some (a, st).

Definition bind {T A B} (m : M T A) (k : A -> M T B) : M T B :=
  fun st =>
    match m st with
    | Some (a, st') => k a st'
    | None => None
    end.

Definition panic {T A} : M T A := fun _ => None.

(** [&T{...}] *)
Definition new {T} (v : T) : M T (option loc) :=
  fun st =>
    let l := fresh (dom (Structs st)) in
    Some (Some l, MkStore (Arrays st) (<[l := v]> (Structs st))).

(** [*p] *)
Definition load {T} (p : option loc) : M T T :=
  fun st =>
    match p with
    | None => None
    | Some l =>
        match Structs st !! l with
        | Some v => Some (v, st)
        | None => None
        end
    end.

(** The elements [s[0], ..., s[len(s)-1]] in a given store. *)
Definition elems {T} (st : Store T) (s : slice) : list string :=
  match base s with
  | None => []
  | Some l => take (len s) (drop (off s) (default [] (Arrays st !! l)))
  end.

(** Reading a slice, as a [range] loop does. *)
Definition range {T} (s : slice) : M T (list string) :=
  fun st => Some (elems st s, st).

(** [make([]string, n)] *)
Definition make {T} (n : nat) : M T slice :=
  fun st =>
    let l := fresh (dom (Arrays st)) in
    Some (Slice (Some l) 0 n n,
          MkStore (<[l := replicate n ""]> (Arrays st)) (Structs st)).

(** Overwrite [a[i], a[i+1], ...] with [vs]. *)
Definition blit (a : list string) (i : nat) (vs : list string)
  : list string :=
  take i a ++ vs ++ drop (i + length vs) a.

(** [copy(dst, src)] *)
Definition copy {T} (dst src : slice) : M T nat :=
  fun st =>
    let n := Nat.min (len dst) (len src) in
    match base dst with
    | None => Some (n, st)
    | Some l =>
        let vs := take n (elems st src) in
        Some (n, MkStore (alter (fun a => blit a (off dst) vs) l (Arrays st))
                         (Structs st))
    end.

(** [append(s, x)].  When the capacity is exhausted the runtime
    allocates a new backing array; [grow oldCap needed] is its choice of
    the new capacity, never taken below what is needed. *)
Definition append {T} (grow : nat -> nat -> nat) (s : slice) (x : string)
  : M T slice :=
  fun st =>
    match base s with
    | Some l =>
        if Nat.ltb (len s) (cap s) then
          Some (Slice (Some l) (off s) (S (len s)) (cap s),
                MkStore (alter (fun a => <[(off s + len s)%nat := x]> a) l
                           (Arrays st)) (Structs st))
        else
          let n := S (len s) in
          let c := Nat.max n (grow (cap s) n) in
          let l' := fresh (dom (Arrays st)) in
          Some (Slice (Some l') 0 n c,
                MkStore (<[l' := elems st s ++ x :: replicate (c - n) ""]>
                           (Arrays st)) (Structs st))
    | None =>
        let n := S (len s) in
        let c := Nat.max n (grow (cap s) n) in
        let l' := fresh (dom (Arrays st)) in
        Some (Slice (Some l') 0 n c,
              MkStore (<[l' := elems st s ++ x :: replicate (c - n) ""]>
                         (Arrays st)) (Structs st))
    end.

(** A [for _, x := range xs] loop that threads a value. *)
Fixpoint forEach {T A B} (f : A -> B -> M T A) (a : A) (xs : list B)
  : M T A :=
  match xs with
  | [] => ret a
  | x :: xs' => bind (f a x) (fun a' => forEach f a' xs')
  end.

End runtime.

Notation "'let*' x ':=' c1 'in' c2" := (runtime.bind c1 (fun x => c2))
  (at level 10, x name, c1 at level 100, c2 at level 200).

(** ** serializer/options *)

Module options.

(** [type Options struct] *)
Record Options : Type := {
  IgnorePaths : runtime.slice;
  IgnoreGitPaths : bool;
  AllowSymlinks : bool
}.

Definition M (A : Type) : Type := runtime.M Options A.

(** [func Default() *Options] *)
Definition Default : M (option runtime.loc) :=
  let* ignorePaths := runtime.make 0 in
  runtime.new {| IgnorePaths := ignorePaths;
                 IgnoreGitPaths := true;
                 AllowSymlinks := false |}.

End options.

(** ** os: file modes and the directory tree *)

Module os.

(** [fs.FileMode] bits. *)
Definition ModeDir : Z := Z.shiftl 1 31.
Definition ModeSymlink : Z := Z.shiftl 1 27.
Definition ModeDevice : Z := Z.shiftl 1 26.
Definition ModeNamedPipe : Z := Z.shiftl 1 25.
Definition ModeSocket : Z := Z.shiftl 1 24.
Definition ModeCharDevice : Z := Z.shiftl 1 21.
Definition ModeIrregular : Z := Z.shiftl 1 19.
Definition ModeType : Z :=
  Z.lor ModeDir (Z.lor ModeSymlink (Z.lor ModeNamedPipe (Z.lor ModeSocket
    (Z.lor ModeDevice (Z.lor ModeCharDevice ModeIrregular))))).

(** What the serializer reads of an [os.FileInfo]. *)
Record FileInfo : Type := { Mode : Z }.

Definition IsDir (info : FileInfo) : bool :=
  negb (Z.land (Mode info) ModeDir =? 0).
Definition IsRegular (m : Z) : bool := Z.land m ModeType =? 0.

Inductive special : Type :=
| NamedPipe | Socket | Device | CharDevice | Irregular.

(** A file tree as [os.Lstat] and the directory listing present it.
    Permission bits are left out: no test of the serializer reads
    them.  A symbolic link is a leaf, since [Lstat] does not follow
    it.  [Unreadable] is a directory whose names cannot be read and
    [NoStat] an entry on which [Lstat] fails, each with the message of
    the operating system's error. *)
#[warnings="-register-all"]
Inductive node : Type :=
| Regular
| Directory (entries : list (string * node))
| Unreadable (msg : string)
| Symlink
| Special (k : special)
| NoStat (msg : string).

Definition modeOf (n : node) : Z :=
  match n with
  | Regular => 0
  | Directory _ | Unreadable _ => ModeDir
  | Symlink => ModeSymlink
  | Special NamedPipe => ModeNamedPipe
  | Special Socket => ModeSocket
  | Special Device => ModeDevice
  | Special CharDevice => Z.lor ModeDevice ModeCharDevice
  | Special Irregular => ModeIrregular
  | NoStat _ => 0
  end.

(** [os.Lstat] on the file a node stands for. *)
Definition Lstat (n : node) : Result FileInfo :=
  match n with
  | NoStat msg => Err (osError msg)
  | _ => Ok {| Mode := modeOf n |}
  end.

Definition byName : relation (string * node) :=
  fun a b => String.le (fst a) (fst b).

Global Instance byName_dec : RelDecision byName.
Proof. intros a b. unfold byName. apply _. Defined.

(** [readDirNames] returns the names of a directory sorted; the tree
    is put into that order, at every level, before it is walked. *)
Fixpoint sorted (n : node) : node :=
  match n with
  | Directory entries =>
      Directory (merge_sort byName
                   (map (fun e => (fst e, sorted (snd e))) entries))
  | _ => n
  end.

End os.

(** ** path/filepath: Walk *)

Module walk.

Import os.

(** [filepath.WalkFunc], with the state the closure updates threaded
    through. [info] is the zero [FileInfo] where Go passes nil. *)
Definition WalkFunc (S : Type) : Type :=
  string -> FileInfo -> option error -> S -> option error * S.

Definition nilInfo : FileInfo := {| Mode := 0 |}.
Definition infoOf (n : node) : FileInfo := {| Mode := modeOf n |}.

(** [func walk(path string, info fs.FileInfo, walkFn WalkFunc) error] *)
Fixpoint walk {S} (walkFn : WalkFunc S) (path : string) (n : node) (st : S)
  {struct n} : option error * S :=
  match n with
  | Directory entries =>
      let '(err1, st1) := walkFn path (infoOf n) None st in
      match err1 with
      | Some _ => (err1, st1)
      | None =>
          (fix loop (es : list (string * node)) (st : S)
             : option error * S :=
             match es with
             | [] => (None, st)
             | (name, child) :: es' =>
                 let filename := filepath.Join [path; name] in
                 match child with
                 | NoStat msg =>
                     let '(err', st') :=
                       walkFn filename nilInfo (Some (osError msg)) st in
                     match err' with
                     | Some e =>
                         if decide (e = SkipDir) then loop es' st'
                         else (Some e, st')
                     | None => loop es' st'
                     end
                 | _ =>
                     let '(err', st') := walk walkFn filename child st in
                     match err' with
                     | Some e =>
                         if negb (IsDir (infoOf child)) || negb (bool_decide (e = SkipDir))
                         then (Some e, st')
                         else loop es' st'
                     | None => loop es' st'
                     end
                 end
             end) entries st1
      end
  | Unreadable msg => walkFn path (infoOf n) (Some (osError msg)) st
  | NoStat msg => walkFn path nilInfo (Some (osError msg)) st
  | _ => walkFn path (infoOf n) None st
  end.

(** [func Walk(root string, fn WalkFunc) error]; [tree] is the file
    tree found at [root]. *)
Definition Walk {S} (tree : node) (root : string) (fn : WalkFunc S) (st : S)
  : option error * S :=
  let '(err, st') := walk fn root (sorted tree) st in
  match err with
  | Some e =>
      if decide (e = SkipDir) then (None, st')
      else if decide (e = SkipAll) then (None, st')
      else (Some e, st')
  | None => (None, st')
  end.

End walk.

(** ** serializer/dir *)

Module dir.

Import options.

(** [intoto.ResourceDescriptor], the two fields the serializer sets. *)
Record ResourceDescriptor : Type :=
  { Name : string; Digest : gmap string string }.

(** [type Manifest struct] *)
Record Manifest : Type :=
  { ModelName : string; Files : list ResourceDescriptor }.

(** [type Serializer struct] *)
Record Serializer : Type := { opts : option runtime.loc }.

(** What lies outside the program: the working directory, the file
    tree found at an absolute path, the per-file hasher of
    [github.com/carabiner-dev/hasher] configured for SHA-256 alone, and
    the runtime's slice growth policy. *)
Record World : Type := {
  Getwd : Result string;
  Tree : string -> os.node;
  HashFiles : list string -> Result (gmap string (gmap string string));
  growslice : nat -> nat -> nat
}.

(** [intoto.AlgorithmSHA256] *)
Definition AlgorithmSHA256 : string := "sha256".

(** [func New(opts *options.Options) *Serializer] *)
Definition New (opts : option runtime.loc) : M Serializer :=
  match opts with
  | None =>
      let* opts := options.Default in
      runtime.ret {| opts := opts |}
  | Some _ => runtime.ret {| opts := opts |}
  end.

(** [func gitPaths() []string] *)
Definition gitPaths : list string :=
  [".git"; ".gitignore"; ".gitattributes"; ".github"].

(** The body of the loop of [shouldIgnore] for one [ignore] pattern:
    the path to check against, or [None] where the loop [continue]s. *)
Definition checkPathOf (modelPath ignore : string) : option string :=
  let ignore := filepath.ToSlash ignore in
  if filepath.IsAbs ignore then
    match filepath.Rel modelPath ignore with
    | Err _ => None
    | Ok checkRelPath =>
        if strings.HasPrefix checkRelPath ".." then None
        else Some (filepath.ToSlash checkRelPath)
    end
  else Some ignore.

Fixpoint ignoreLoop (relPath modelPath : string) (ignorePaths : list string)
  : bool :=
  match ignorePaths with
  | [] => false
  | ignore :: rest =>
      match checkPathOf modelPath ignore with
      | None => ignoreLoop relPath modelPath rest
      | Some checkPath =>
          if bool_decide (relPath = checkPath)
             || strings.HasPrefix relPath (checkPath +:+ "/")
          then true
          else ignoreLoop relPath modelPath rest
      end
  end.

(** [func (s *Serializer) shouldIgnore(path, modelPath string,
    ignorePaths []string) (bool, error)] *)
Definition shouldIgnore (s : Serializer) (path modelPath : string)
  (ignorePaths : list string) : Result bool :=
  match filepath.Rel modelPath path with
  | Err err => Err err
  | Ok relPath =>
      let relPath := filepath.ToSlash relPath in
      Ok (ignoreLoop relPath modelPath ignorePaths)
  end.

(** The closure [Serialize] passes to [filepath.Walk]; the state is
    [filesToHash]. *)
Definition walkFn (s : Serializer) (o : Options) (absPath : string)
  (ignorePaths : list string) : walk.WalkFunc (list string) :=
  fun path info err filesToHash =>
    match err with
    | Some e => (Some e, filesToHash)
    | None =>
        if negb (Z.land (os.Mode info) os.ModeSymlink =? 0)
           && negb (AllowSymlinks o)
        then (Some (errorString ("symlink not allowed: " +:+ path +:+
                                 " (use AllowSymlinks option)")),
              filesToHash)
        else if os.IsDir info then
          match shouldIgnore s path absPath ignorePaths with
          | Err e => (Some e, filesToHash)
          | Ok true => (Some SkipDir, filesToHash)
          | Ok false => (None, filesToHash)
          end
        else
          match shouldIgnore s path absPath ignorePaths with
          | Err e => (Some e, filesToHash)
          | Ok true => (None, filesToHash)
          | Ok false =>
              if os.IsRegular (os.Mode info)
              then (None, filesToHash ++ [path])
              else (None, filesToHash)
          end
    end.

(** The loop that builds the manifest entries. *)
Fixpoint fileDescriptorsOf (absPath : string)
  (fileHashes : gmap string (gmap string string))
  (filesToHash : list string) (acc : list ResourceDescriptor)
  : Result (list ResourceDescriptor) :=
  match filesToHash with
  | [] => Ok acc
  | filePath :: rest =>
      match filepath.Rel absPath filePath with
      | Err err => Err (wrapError "failed to get relative path: " err)
      | Ok relPath =>
          let relPath := filepath.ToSlash relPath in
          let hashSet := default ∅ (fileHashes !! filePath) in
          let hashValue := default "" (hashSet !! AlgorithmSHA256) in
          fileDescriptorsOf absPath fileHashes rest
            (acc ++ [ {| Name := relPath;
                         Digest := {[ "sha256" := hashValue ]} |} ])
      end
  end.

(** The comparison passed to [sort.Slice]. *)
Definition less (a b : ResourceDescriptor) : bool :=
  String.ltb (Name a) (Name b).

Definition notAfter : relation ResourceDescriptor :=
  fun a b => less b a = false.

Global Instance notAfter_dec : RelDecision notAfter.
Proof. intros a b. unfold notAfter. apply _. Defined.

(** [sort.Slice(fileDescriptors, less)].  Go leaves the order of
    elements that compare equal unspecified; the model keeps them in
    their original order. *)
Definition sortSlice (l : list ResourceDescriptor) : list ResourceDescriptor :=
  merge_sort notAfter l.

(** [Serialize] from the walk on, once the ignore list is built. *)
Definition serializeFrom (w : World) (s : Serializer) (o : Options)
  (absPath : string) (ignorePaths : list string) : Result Manifest :=
  let '(err, filesToHash) :=
    walk.Walk (Tree w absPath) absPath (walkFn s o absPath ignorePaths) [] in
  match err with
  | Some e => Err (wrapError "failed to walk directory: " e)
  | None =>
      match HashFiles w filesToHash with
      | Err e => Err (wrapError "failed to hash files: " e)
      | Ok fileHashes =>
          match fileDescriptorsOf absPath fileHashes filesToHash [] with
          | Err e => Err e
          | Ok fileDescriptors =>
              let fileDescriptors := sortSlice fileDescriptors in
              let modelName := filepath.Base absPath in
              Ok {| ModelName := modelName; Files := fileDescriptors |}
          end
      end
  end.

(** [func (s *Serializer) Serialize(modelPath string)], returning a manifest or an error *)
Definition Serialize (w : World) (s : Serializer) (modelPath : string)
  : M (Result Manifest) :=
  match filepath.Abs (Getwd w) modelPath with
  | Err err =>
      runtime.ret (Err (wrapError "failed to resolve model path: " err))
  | Ok absPath =>
      let* o := runtime.load (opts s) in
      let* ignorePaths := runtime.make (runtime.len (IgnorePaths o)) in
      let* _ := runtime.copy ignorePaths (IgnorePaths o) in
      let* ignorePaths :=
        (if IgnoreGitPaths o then
           runtime.forEach
             (fun ignorePaths gitPath =>
                runtime.append (growslice w) ignorePaths
                  (filepath.Join [absPath; gitPath]))
             ignorePaths gitPaths
         else runtime.ret ignorePaths) in
      let* ignore := runtime.range ignorePaths in
      runtime.ret (serializeFrom w s o absPath ignore)
  end.

(** The loop of [ComputeRootDigest]. *)
Fixpoint writeHashes (hasher : sha256.digest) (files : list ResourceDescriptor)
  : Result sha256.digest :=
  match files with
  | [] => Ok hasher
  | file :: rest =>
      match Digest file !! "sha256" with
      | None =>
          Err (errorString ("sha256 digest not found for " +:+ Name file))
      | Some hashValue =>
          match hex.DecodeString hashValue with
          | Err err =>
              Err (wrapError ("failed to decode hash for " +:+ Name file +:+ ": ")
                     err)
          | Ok hashBytes => writeHashes (sha256.Write hasher hashBytes) rest
          end
      end
  end.

(** [func ComputeRootDigest(manifest) (string, error)] *)
Definition ComputeRootDigest (manifest : Manifest) : Result string :=
  match writeHashes sha256.New (Files manifest) with
  | Err e => Err e
  | Ok hasher =>
      let rootHash := sha256.Sum hasher [] in
      Ok (hex.EncodeToString rootHash)
  end.

(** [func ComputeDigest(modelPath string, opts *options.Options)
    (string, error)] *)
Definition ComputeDigest (w : World) (modelPath : string)
  (opts : option runtime.loc) : M (Result string) :=
  let* serializer := New opts in
  let* r := Serialize w serializer modelPath in
  match r with
  | Err err => runtime.ret (Err err)
  | Ok manifest =>
      match ComputeRootDigest manifest with
      | Err err => runtime.ret (Err err)
      | Ok rootDigest => runtime.ret (Ok ("sha256:" +:+ rootDigest))
      end
  end.

End dir.

(** ** Vocabulary of the statements *)

(** A value a Go [byte] can hold. *)
Definition isByte (b : Z) : Prop := 0 <= b < 256.

(** One of the characters [0-9a-f]. *)
Definition isLowerHex (c : ascii) : bool :=
  let n := N_of_ascii c in
  ((48 <=? n) && (n <=? 57) || (97 <=? n) && (n <=? 102))%N.

(** A directory-entry name: not empty, not [.] or [..], and without a
    separator. *)
Fixpoint hasSep (s : string) : bool :=
  match s with
  | EmptyString => false
  | String c s' => Ascii.eqb c "/" || hasSep s'
  end.

Definition validName (e : string) : bool :=
  bool_decide (e ≠ "") && bool_decide (e ≠ ".") && bool_decide (e ≠ "..")
  && negb (hasSep e).

(** The cleaned absolute path with the given elements. *)
Definition absOf (elems : list string) : string := "/" +:+ strings.Join elems.

(** The root-relative name of the file reached along [elems]. *)
Definition relOf (elems : list string) : string :=
  if decide (elems = []) then "." else strings.Join elems.

(** Well-formed file trees: within a directory the entry names are
    pairwise distinct entry names. *)
Fixpoint wfTree (n : os.node) : bool :=
  match n with
  | os.Directory entries =>
      bool_decide (NoDup (map fst entries))
      && forallb (fun e => validName (fst e) && wfTree (snd e)) entries
  | _ => true
  end.

(** [fileAt n elems n']: following the entry names [elems] down from [n]
    leads to [n']. *)
Inductive fileAt : os.node -> list string -> os.node -> Prop :=
| fileAt_here n : fileAt n [] n
| fileAt_entry entries name child elems n' :
    (name, child) ∈ entries ->
    fileAt child elems n' ->
    fileAt (os.Directory entries) (name :: elems) n'.

(** The walk with a record of the calls of the callback: the path and
    the [FileInfo] of each. *)
Definition traced {S} (fn : walk.WalkFunc S)
  : walk.WalkFunc (S * list (string * os.FileInfo)) :=
  fun path info err st =>
    let '(r, st') := fn path info err (fst st) in
    (r, (st', snd st ++ [(path, info)])).

Definition visits {S} (tree : os.node) (root : string) (fn : walk.WalkFunc S)
  (st : S) : list (string * os.FileInfo) :=
  snd (snd (walk.Walk tree root (traced fn) (st, []))).

(** The git paths [Serialize] adds to the ignore list. *)
Definition gitIgnores (o : options.Options) (absPath : string) : list string :=
  if options.IgnoreGitPaths o
  then map (fun gitPath => filepath.Join [absPath; gitPath]) dir.gitPaths
  else [].

(** The ignore list [Serialize] builds: the caller's specifiers followed,
    when the flag is set, by the git paths under the root. *)
Definition effectiveIgnore (st : runtime.Store options.Options)
  (o : options.Options) (absPath : string) : list string :=
  runtime.elems st (options.IgnorePaths o) ++ gitIgnores o absPath.

(** A slice header that describes part of an allocated array. *)
Definition validSlice {T} (st : runtime.Store T) (s : runtime.slice)
  : Prop :=
  match runtime.base s with
  | None => runtime.len s = 0%nat
  | Some l =>
      exists a, runtime.Arrays st !! l = Some a
                /\ (runtime.off s + runtime.len s <= length a)%nat
  end.

(** The error [Serialize] reports for a symbolic link at [path]. *)
Definition symlinkError (path : string) : error :=
  wrapError "failed to walk directory: "
    (errorString ("symlink not allowed: " +:+ path +:+
                  " (use AllowSymlinks option)")).

Definition isSymlink (info : os.FileInfo) : bool :=
  negb (Z.land (os.Mode info) os.ModeSymlink =? 0).

(** The loop of [walk] over the entries of a directory. *)
Fixpoint walkLoop {S} (walkFn : walk.WalkFunc S) (path : string)
  (es : list (string * os.node)) (st : S) : option error * S :=
  match es with
  | [] => (None, st)
  | (name, child) :: es' =>
      let filename := filepath.Join [path; name] in
      match child with
      | os.NoStat msg =>
          let '(err', st') :=
            walkFn filename walk.nilInfo (Some (osError msg)) st in
          match err' with
          | Some e =>
              if decide (e = SkipDir) then walkLoop walkFn path es' st'
              else (Some e, st')
          | None => walkLoop walkFn path es' st'
          end
      | _ =>
          let '(err', st') := walk.walk walkFn filename child st in
          match err' with
          | Some e =>
              if negb (os.IsDir (walk.infoOf child))
                 || negb (bool_decide (e = SkipDir))
              then (Some e, st')
              else walkLoop walkFn path es' st'
          | None => walkLoop walkFn path es' st'
          end
      end
  end.

(** What a walk from the node [n], found at the elements [r] below the
    root [absOf a], collects when it returns [err]: the files at the
    element lists [cs] below [n]. *)
Definition collects (a ig : list string) (n : os.node) (r : list string)
  (err : option error) (cs : list (list string)) : Prop :=
  NoDup cs
  /\ (forall c, c ∈ cs ->
        fileAt n c os.Regular
        /\ Forall (fun e => validName e = true) c
        /\ dir.ignoreLoop (relOf (r ++ c)) (absOf a) ig = false)
  /\ err ≠ Some SkipAll
  /\ (os.IsDir (walk.infoOf n) = false -> err ≠ Some SkipDir)
  /\ (err = None \/ err = Some SkipDir ->
      forall c, fileAt n c os.Regular ->
        (forall c1 c2, c = c1 ++ c2 ->
           dir.ignoreLoop (relOf (r ++ c1)) (absOf a) ig = false) ->
        c ∈ cs).

(** The same for the loop over the entries [es] of a directory. *)
Definition collectsLoop (a ig : list string) (es : list (string * os.node))
  (r : list string) (err : option error) (cs : list (list string)) : Prop :=
  NoDup cs
  /\ (forall c, c ∈ cs ->
        exists name child c',
          c = name :: c' /\ (name, child) ∈ es
          /\ fileAt child c' os.Regular
          /\ Forall (fun e => validName e = true) c
          /\ dir.ignoreLoop (relOf (r ++ c)) (absOf a) ig = false)
  /\ err ≠ Some SkipAll
  /\ err ≠ Some SkipDir
  /\ (err = None ->
      forall name child c', (name, child) ∈ es ->
        fileAt child c' os.Regular ->
        (forall c1 c2, name :: c' = c1 ++ c2 -> c1 ≠ [] ->
           dir.ignoreLoop (relOf (r ++ c1)) (absOf a) ig = false) ->
        name :: c' ∈ cs).

(** Whether [walk]'s loop hands a [SkipDir] from this entry on to its
    caller: it does for an entry that is not a directory. *)
Definition propagates (child : os.node) : bool :=
  match child with
  | os.NoStat _ => false
  | _ => negb (os.IsDir (walk.infoOf child))
  end.

(** The entry [Serialize] builds for the file at the elements [c] below
    the root [absOf a]. *)
Definition entryOf (fileHashes : gmap string (gmap string string))
  (a c : list string) : dir.ResourceDescriptor :=
  {| dir.Name := relOf c;
     dir.Digest := {[ "sha256" :=
       default "" (default ∅ (fileHashes !! absOf (a ++ c))
                     !! dir.AlgorithmSHA256) ]} |}.

(** [frame st st']: every struct and every array of [st] is unchanged in
    [st']; [st'] may hold arrays and structs allocated since. *)
Definition frame {T} (st st' : runtime.Store T) : Prop :=
  (forall l v, runtime.Structs st !! l = Some v ->
               runtime.Structs st' !! l = Some v)
  /\ (forall l a, runtime.Arrays st !! l = Some a ->
                  runtime.Arrays st' !! l = Some a).

(** A slice private to the running call: its array was allocated after
    [st0], it starts at offset [0] and holds [items]. *)
Definition privateSlice {T} (st0 st : runtime.Store T) (p : runtime.slice)
  (items : list string) : Prop :=
  exists l arr,
    runtime.base p = Some l
    /\ runtime.Arrays st0 !! l = None
    /\ runtime.Arrays st !! l = Some arr
    /\ runtime.off p = 0%nat
    /\ take (runtime.len p) arr = items
    /\ (runtime.len p <= length arr)%nat
    /\ (runtime.cap p <= length arr)%nat.

(** A world as a Unix host presents it: the working directory is an
    absolute path and every file tree is well formed. *)
Definition unixWorld (w : dir.World) : Prop :=
  (forall d, dir.Getwd w = Ok d -> filepath.IsAbs d = true)
  /\ (forall p, wfTree (dir.Tree w p) = true).

(** The names of the entries of a manifest, in order. *)
Definition names (m : dir.Manifest) : list string := map dir.Name (dir.Files m).

(** [strictlyAscending l]: every element of [l] is, byte-wise, less
    than every later one. *)
Definition strictlyAscending (l : list string) : Prop :=
  StronglySorted (fun x y => String.ltb x y = true) l.

(** [reorder t t']: [t'] is [t] with the entries of its directories
    listed in another order, at any depth. *)
#[warnings="-register-all"]
Inductive reorder : os.node -> os.node -> Prop :=
| reorder_same n : reorder n n
| reorder_dir es es1 es2 :
    Forall2 (fun e e1 => fst e = fst e1 /\ reorder (snd e) (snd e1)) es es1 ->
    es1 ≡ₚ es2 ->
    reorder (os.Directory es) (os.Directory es2).

(** Example inputs. *)
Module Examples.

Import os dir options.

Definition manifest2 : Manifest :=
  {| ModelName := "m";
     Files := [ {| Name := "a.bin"; Digest := {[ "sha256" := "00ff" ]} |};
                {| Name := "b.bin"; Digest := {[ "sha256" := "AbCd12" ]} |} ] |}.

Definition tree : node :=
  Directory
    [ ("model.bin", Regular);
      ("config.json", Regular);
      (".git", Directory [("config", Regular); ("HEAD", Regular)]);
      (".gitignore", Regular);
      (".github", Directory [("workflows", Directory [("ci.yml", Regular)])]);
      ("subdir", Directory [("layer2.bin", Regular);
                            ("layer1.bin", Regular);
                            ("nested", Directory [("data.json", Regular)])]);
      ("pipe", Special NamedPipe) ].

(** [tree] with every directory listed in the reverse order. *)
Definition treeReordered : node :=
  Directory
    [ ("pipe", Special NamedPipe);
      ("subdir", Directory [("nested", Directory [("data.json", Regular)]);
                            ("layer1.bin", Regular);
                            ("layer2.bin", Regular)]);
      (".github", Directory [("workflows", Directory [("ci.yml", Regular)])]);
      (".gitignore", Regular);
      (".git", Directory [("HEAD", Regular); ("config", Regular)]);
      ("config.json", Regular);
      ("model.bin", Regular) ].

(** A tree with a symbolic link to a regular file and one to a
    directory. *)
Definition treeWithLinks : node :=
  Directory
    [ ("weights.bin", Regular);
      ("latest.bin", Symlink);
      ("shared", Symlink) ].

(** A stand-in for the external hasher: it reports, for each path, the
    SHA-256 of the path itself. *)
Definition hashPaths (paths : list string)
  : Result (gmap string (gmap string string)) :=
  Ok (list_to_map
        (map (fun p =>
                (p, {[ AlgorithmSHA256 :=
                         hex.EncodeToString
                           (sha256.Sum256 (bytes_of_string p)) ]}))
             paths)).

Definition worldOf (t : node) : World :=
  {| Getwd := Ok "/home/user";
     Tree := fun _ => t;
     HashFiles := hashPaths;
     growslice := fun oldCap _ => (2 * oldCap)%nat |}.

Definition world : World := worldOf tree.

Definition emptyStore : runtime.Store Options := runtime.MkStore ∅ ∅.

(** Options with the given flags, whose ignore paths are a slice over
    the whole array at location [0]. *)
Definition optionsOf (ignore : list string) (git symlinks : bool)
  : Options :=
  {| IgnorePaths :=
       runtime.Slice (Some 0%nat) 0 (length ignore) (length ignore);
     IgnoreGitPaths := git;
     AllowSymlinks := symlinks |}.

(** A store holding these options at location [0], and their ignore
    paths in the array at location [0]. *)
Definition storeWith (ignore : list string) (git symlinks : bool)
  : runtime.Store Options :=
  runtime.MkStore {[ 0%nat := ignore ]}
                  {[ 0%nat := optionsOf ignore git symlinks ]}.

Definition serializer : Serializer := {| opts := Some 0%nat |}.

End Examples.

(** [outsideRoot root ignore]: the absolute path [ignore] does not lie
    at or below the absolute path [root], the elements of the root are
    not the first elements of the specifier. *)
Definition outsideRoot (root ignore : string) : Prop :=
  ~ (filepath.cleanElems true root `prefix_of` filepath.cleanElems true ignore).


(** ** Further vocabulary *)

(** A string [hex.DecodeString] accepts: hexadecimal digits, upper or
    lower case, an even number of them. *)
Fixpoint isHexString (s : string) : bool :=
  match s with
  | EmptyString => true
  | String p EmptyString => false
  | String p (String q rest) =>
      match hex.fromHexChar p, hex.fromHexChar q with
      | Some _, Some _ => isHexString rest
      | _, _ => false
      end
  end.

(** The sha256 digest of a manifest entry, decoded, when it has one that
    decodes. *)
Definition decodedDigest (file : dir.ResourceDescriptor) : option (list Z) :=
  match dir.Digest file !! "sha256" with
  | Some hashValue =>
      match hex.DecodeString hashValue with
      | Ok bytes => Some bytes
      | Err _ => None
      end
  | None => None
  end.

(** [kept root ig c]: no ignore specifier of [ig] matches the file at
    the elements [c] below the root, the root itself or a directory on
    the way to the file. *)
Definition kept (root : string) (ig c : list string) : Prop :=
  forall c1 c2, c = c1 ++ c2 -> dir.ignoreLoop (relOf c1) root ig = false.

(** [reached root ig c]: no ignore specifier of [ig] matches the root or
    a directory on the way to the file at [c]; the file itself may be
    matched. *)
Definition reached (root : string) (ig c : list string) : Prop :=
  forall c1 c2, c = c1 ++ c2 -> c2 ≠ [] ->
    dir.ignoreLoop (relOf c1) root ig = false.

(** The two conditions as tests: the specifiers are tried on the first
    [k] elements of [c], for every [k] up to the length of [c], the
    length itself included ([keptb]) or not ([reachedb]). *)
Definition keptb (root : string) (ig c : list string) : bool :=
  forallb (fun k => negb (dir.ignoreLoop (relOf (take k c)) root ig))
    (seq 0 (S (length c))).

Definition reachedb (root : string) (ig c : list string) : bool :=
  forallb (fun k => negb (dir.ignoreLoop (relOf (take k c)) root ig))
    (seq 0 (length c)).

(** A node on which the walk meets an error of the operating system. *)
Definition failing (n : os.node) : bool :=
  match n with
  | os.NoStat _ | os.Unreadable _ => true
  | _ => false
  end.

(** A node the walk can pass without an error when symbolic links are
    allowed ([allow]) or not. *)
Definition passable (allow : bool) (n : os.node) : Prop :=
  failing n = false /\ (allow = false -> n ≠ os.Symlink).

(** The error the callback of [Serialize] returns when the walk hands it
    the node [n] found at [path], whatever the ignore list says: the
    operating system's error, or the refusal of a symbolic link. *)
Definition walkError (allow : bool) (path : string) (n : os.node)
  : option error :=
  match n with
  | os.Unreadable msg | os.NoStat msg => Some (osError msg)
  | os.Symlink =>
      if allow then None
      else Some (errorString ("symlink not allowed: " +:+ path +:+
                              " (use AllowSymlinks option)"))
  | _ => None
  end.

(** ** cmd/modeldigest: the repeatable flag *)

(** [strings.Join(elems, sep)] for any separator. *)
Fixpoint strings_Join (elems : list string) (sep : string) : string :=
  match elems with
  | [] => ""
  | [e] => e
  | e :: es => e +:+ sep +:+ strings_Join es sep
  end.

(** [*p = v] on a variable that exists. *)
Definition assign {T} (p : option runtime.loc) (v : T) : runtime.M T unit :=
  fun st =>
    match p with
    | None => None
    | Some l =>
        match runtime.Structs st !! l with
        | Some _ =>
            Some (tt, runtime.MkStore (runtime.Arrays st)
                        (<[l := v]> (runtime.Structs st)))
        | None => None
        end
    end.

(** [type arrayFlags []string]: a variable of the type holds a slice
    header, and the methods take a pointer to the variable.

    [func (i *arrayFlags) String() string] *)
Definition arrayFlags_String (i : option runtime.loc)
  : runtime.M runtime.slice string :=
  let* s := runtime.load i in
  let* es := runtime.range s in
  runtime.ret (strings_Join es ",").

(** [func (i *arrayFlags) Set(value string) error] *)
Definition arrayFlags_Set (grow : nat -> nat -> nat) (i : option runtime.loc)
  (value : string) : runtime.M runtime.slice (option error) :=
  let* s := runtime.load i in
  let* s' := runtime.append grow s value in
  let* _ := assign i s' in
  runtime.ret None.

(** A slice header whose capacity lies within its array. *)
Definition capSlice {T} (st : runtime.Store T) (s : runtime.slice) : Prop :=
  match runtime.base s with
  | None => runtime.len s = 0%nat
  | Some l =>
      exists arr, runtime.Arrays st !! l = Some arr
                  /\ (runtime.off s + runtime.cap s <= length arr)%nat
                  /\ (runtime.len s <= runtime.cap s)%nat
  end.

(** The example world with a hasher that reports no digest at all. *)
Definition unhashedWorld : dir.World :=
  {| dir.Getwd := Ok "/home/user";
     dir.Tree := fun _ => Examples.tree;
     dir.HashFiles := fun _ => Ok ∅;
     dir.growslice := fun oldCap _ => (2 * oldCap)%nat |}.


(** * Properties *)

(** ** SHA-256 and hexadecimal encoding *)

Section Sha256Facts.

Import sha256.

Arguments block : simpl never.
Arguments u64 : simpl never.
Arguments u32 : simpl never.

Lemma absorb_app hs buf a b :
  absorb hs buf (a ++ b) =
  let '(hs', buf') := absorb hs buf a in absorb hs' buf' b.
Proof.
  revert hs buf. induction a as [|c a IH]; intros hs buf; simpl; [done|].
  destruct (Nat.eqb _ _); apply IH.
Qed.

Lemma u64_add_l a b : u64 (u64 a + b) = u64 (a + b).
Proof. unfold u64. by rewrite Zplus_mod_idemp_l. Qed.

(** Writing in two pieces is writing the concatenation. *)
Lemma Write_app d a b : Write (Write d a) b = Write d (a ++ b).
Proof.
  unfold Write. rewrite absorb_app.
  destruct (absorb (h d) (x d) a) as [hs buf]; simpl.
  destruct (absorb hs buf b) as [hs' buf']; simpl.
  f_equal. rewrite u64_add_l, length_app. f_equal. lia.
Qed.

Lemma round_length v kw : length (round v kw) = length v.
Proof.
  unfold round.
  do 8 (destruct v as [|? v]; [reflexivity|]).
  destruct v; cbv zeta; cbn [length]; reflexivity.
Qed.

Lemma rounds_length kws v : length (fold_left round kws v) = length v.
Proof.
  revert v. induction kws as [|kw kws IH]; intros v; simpl; [done|].
  by rewrite IH, round_length.
Qed.

Lemma block_length hs p : length (block hs p) = length hs.
Proof.
  unfold block. rewrite length_map, length_combine, rounds_length. lia.
Qed.

Lemma absorb_length hs buf p :
  length (fst (absorb hs buf p)) = length hs.
Proof.
  revert hs buf. induction p as [|b p IH]; intros hs buf; simpl; [done|].
  destruct (Nat.eqb _ _); rewrite IH; [apply block_length|done].
Qed.

Lemma Write_h_length d p : length (h (Write d p)) = length (h d).
Proof.
  unfold Write. pose proof (absorb_length (h d) (x d) p) as Hl.
  destruct (absorb (h d) (x d) p); exact Hl.
Qed.

Lemma PutUint32_bytes v : Forall isByte (PutUint32 v).
Proof.
  unfold PutUint32. apply Forall_map, Forall_forall. intros i _; simpl.
  apply Z.mod_pos_bound. lia.
Qed.

Lemma checkSum_length d :
  length (h d) = 8%nat -> length (checkSum d) = Size.
Proof.
  intros Hd. unfold checkSum.
  set (d' := Write d _).
  assert (Hl : length (h d') = 8%nat) by (unfold d'; by rewrite Write_h_length).
  destruct (h d') as [|a0 [|a1 [|a2 [|a3 [|a4 [|a5 [|a6 [|a7 [|? ?]]]]]]]]];
    simpl in Hl; try discriminate.
  reflexivity.
Qed.

Lemma checkSum_bytes d : Forall isByte (checkSum d).
Proof.
  unfold checkSum. apply Forall_concat, Forall_map, Forall_forall.
  intros v _. apply PutUint32_bytes.
Qed.

End Sha256Facts.

Section HexFacts.

Import hex.

Lemma hexdigit_lower n : 0 <= n < 16 -> isLowerHex (hexdigit n) = true.
Proof.
  intros Hn. rewrite <- (Z2Nat.id n) by lia.
  assert (Hall : forallb (fun k => isLowerHex (hexdigit (Z.of_nat k)))
                   (seq 0 16) = true) by reflexivity.
  rewrite forallb_forall in Hall. apply Hall, in_seq. lia.
Qed.

Lemma EncodeToString_length src :
  String.length (EncodeToString src) = (2 * length src)%nat.
Proof. induction src as [|v src IH]; simpl; [done|]. rewrite IH. lia. Qed.

Lemma EncodeToString_lower src :
  Forall isByte src ->
  Forall (fun c => isLowerHex c = true)
         (list_ascii_of_string (EncodeToString src)).
Proof.
  induction 1 as [|v src Hv _ IH]; simpl; [constructor|].
  unfold isByte in Hv.
  constructor; [|constructor; [|exact IH]]; apply hexdigit_lower.
  - rewrite Z.shiftr_div_pow2 by lia. change (2 ^ 4) with 16.
    split; [apply Z.div_pos; lia|apply Z.div_lt_upper_bound; lia].
  - change 0x0f with (Z.ones 4). rewrite Z.land_ones by lia.
    apply Z.mod_pos_bound. lia.
Qed.

End HexFacts.

(** Test vectors of FIPS 180-4. *)
Example sha256_empty :
  hex.EncodeToString (sha256.Sum256 []) =
  "e3b0c44298fc1c149afbf4c8996fb92427ae41e4649b934ca495991b7852b855".
Proof. vm_compute. reflexivity. Qed.

Example sha256_abc :
  hex.EncodeToString (sha256.Sum256 (bytes_of_string "abc")) =
  "ba7816bf8f01cfea414140de5dae2223b00361a396177a9cb410ff61f20015ad".
Proof. vm_compute. reflexivity. Qed.

Example sha256_two_blocks :
  hex.EncodeToString (sha256.Sum256 (bytes_of_string
    "abcdbcdecdefdefgefghfghighijhijkijkljklmklmnlmnomnopnopq")) =
  "248d6a61d20638b8e5c026930c3e6039a33ce45964ff2167f6ecedd419db06c1".
Proof. vm_compute. reflexivity. Qed.


(** ** Strings and paths *)

Section StringFacts.

Import strings.

Lemma append_nil_l (b : string) : "" +:+ b = b.
Proof. reflexivity. Qed.

Lemma append_cons x (a b : string) : String x a +:+ b = String x (a +:+ b).
Proof. reflexivity. Qed.

Lemma append_assoc (a b c : string) : (a +:+ b) +:+ c = a +:+ (b +:+ c).
Proof.
  induction a as [|x a IH]; [done|]. rewrite !append_cons. by rewrite IH.
Qed.

Lemma append_nil_r (a : string) : a +:+ "" = a.
Proof.
  induction a as [|x a IH]; [done|]. rewrite append_cons. by rewrite IH.
Qed.

Lemma HasPrefix_app (p t : string) : HasPrefix (p +:+ t) p = true.
Proof.
  induction p as [|c p IH]; [reflexivity|]. rewrite append_cons. cbn [HasPrefix].
  by rewrite Ascii.eqb_refl, IH.
Qed.

Lemma HasPrefix_spec (s p : string) :
  HasPrefix s p = true <-> exists t, s = p +:+ t.
Proof.
  split.
  - revert s. induction p as [|c p IH]; intros s H.
    + by exists s.
    + destruct s as [|d s]; [done|]. cbn [HasPrefix] in H.
      apply andb_true_iff in H as [Hc Hp].
      apply Ascii.eqb_eq in Hc as ->.
      destruct (IH _ Hp) as [t ->]. by exists t.
  - intros [t ->]. apply HasPrefix_app.
Qed.

Lemma Split_nonempty s : Split s ≠ [].
Proof.
  destruct s as [|c s]; simpl; [done|].
  destruct (Ascii.eqb c "/"); [done|]. by destruct (Split s).
Qed.

Lemma Split_app_sep (a b : string) :
  Split (a +:+ "/" +:+ b) = Split a ++ Split b.
Proof.
  induction a as [|c a IH]; [done|].
  rewrite append_cons. cbn [Split]. rewrite IH.
  destruct (Ascii.eqb c "/"); [done|].
  pose proof (Split_nonempty a). by destruct (Split a).
Qed.

Lemma Split_noSep e : hasSep e = false -> Split e = [e].
Proof.
  induction e as [|c e IH]; simpl; [done|].
  intros [Hc He]%orb_false_iff. rewrite Hc. by rewrite IH.
Qed.

Lemma Split_Forall_noSep s : Forall (fun e => hasSep e = false) (Split s).
Proof.
  induction s as [|c s IH]; simpl; [by repeat constructor|].
  destruct (Ascii.eqb c "/") eqn:Hc; [by constructor|].
  pose proof (Split_nonempty s).
  destruct (Split s) as [|e es]; [done|].
  inversion_clear IH. constructor; [|done]. simpl. by rewrite Hc.
Qed.

Lemma Split_Join es :
  es ≠ [] -> Forall (fun e => hasSep e = false) es -> Split (Join es) = es.
Proof.
  induction es as [|e es IH]; [done|]. intros _ Hes.
  inversion_clear Hes as [|? ? He Hes'].
  destruct es as [|e' es]; [by apply Split_noSep|].
  change (Join (e :: e' :: es)) with (e +:+ "/" +:+ Join (e' :: es)).
  rewrite Split_app_sep, Split_noSep by done. by rewrite IH.
Qed.

Lemma Join_snoc es e :
  es ≠ [] -> Join (es ++ [e]) = Join es +:+ "/" +:+ e.
Proof.
  induction es as [|x es IH]; [done|]. intros _.
  destruct es as [|y es]; [done|].
  change (Join ((x :: y :: es) ++ [e]))
    with (x +:+ "/" +:+ Join ((y :: es) ++ [e])).
  rewrite IH by done.
  change (Join (x :: y :: es)) with (x +:+ "/" +:+ Join (y :: es)).
  by rewrite !append_assoc.
Qed.

Lemma Join_app es fs :
  es ≠ [] -> fs ≠ [] -> Join (es ++ fs) = Join es +:+ "/" +:+ Join fs.
Proof.
  intros Hes. revert es Hes.
  induction fs as [|f fs IH]; [done|]. intros es Hes _.
  destruct fs as [|g fs]; [by apply Join_snoc|].
  rewrite (cons_middle f es), (assoc (++)).
  rewrite IH by (done || by destruct es).
  rewrite Join_snoc by done.
  change (Join (f :: g :: fs)) with (f +:+ "/" +:+ Join (g :: fs)).
  by rewrite !append_assoc.
Qed.

End StringFacts.

Section PathFacts.

Import strings filepath.

Lemma validName_noSep e : validName e = true -> hasSep e = false.
Proof.
  unfold validName. rewrite !andb_true_iff, negb_true_iff. tauto.
Qed.

Lemma validName_step rooted out e :
  validName e = true -> cleanStep rooted out e = e :: out.
Proof.
  unfold validName, cleanStep.
  rewrite !andb_true_iff, !bool_decide_eq_true. intros [[[? ?] ?] _].
  by rewrite !decide_False.
Qed.

Lemma clean_valid rooted es out :
  Forall (fun e => validName e = true) es ->
  fold_left (cleanStep rooted) es out = rev es ++ out.
Proof.
  intros Hes. revert out.
  induction Hes as [|e es He _ IH]; intros out; simpl; [done|].
  rewrite validName_step, IH by done. by rewrite <- app_assoc.
Qed.

Lemma Forall_valid_noSep es :
  Forall (fun e => validName e = true) es ->
  Forall (fun e => hasSep e = false) es.
Proof.
  intros H. eapply Forall_impl; [exact H|]. intros e. apply validName_noSep.
Qed.

Lemma absOf_cons es : absOf es = String "/" (strings.Join es).
Proof. reflexivity. Qed.

Lemma Split_sep s : Split (String "/" s) = "" :: Split s.
Proof. reflexivity. Qed.

Lemma Split_absOf es :
  Forall (fun e => validName e = true) es ->
  Split (absOf es) = "" :: (if decide (es = []) then [""] else es).
Proof.
  intros Hes. rewrite absOf_cons, Split_sep. f_equal.
  destruct es as [|e es]; [done|].
  rewrite Split_Join by (done || by apply Forall_valid_noSep).
  by rewrite decide_False.
Qed.

Lemma cleanElems_absOf es :
  Forall (fun e => validName e = true) es -> cleanElems true (absOf es) = es.
Proof.
  intros Hes. unfold cleanElems. rewrite Split_absOf by done.
  destruct es as [|e es]; [reflexivity|].
  rewrite decide_False by done.
  change ("" :: e :: es) with ([""] ++ (e :: es)). rewrite fold_left_app.
  change (fold_left (cleanStep true) [""] []) with (@nil string).
  rewrite clean_valid by done. by rewrite app_nil_r, rev_involutive.
Qed.

(** A cleaned absolute path is a fixed point of [Clean]. *)
Lemma Clean_absOf es :
  Forall (fun e => validName e = true) es -> Clean (absOf es) = absOf es.
Proof.
  intros Hes. unfold Clean.
  rewrite decide_False by done.
  change (HasPrefix (absOf es) "/") with true. cbv iota zeta.
  by rewrite cleanElems_absOf.
Qed.

(** Joining an entry name to a cleaned absolute path appends one
    element. *)
Lemma Join_absOf es e :
  Forall (fun e => validName e = true) es -> validName e = true ->
  Join [absOf es; e] = absOf (es ++ [e]).
Proof.
  intros Hes He. unfold Join.
  rewrite decide_False by done.
  change (strings.Join [absOf es; e]) with (absOf es +:+ "/" +:+ e).
  unfold Clean. rewrite decide_False by done.
  change (HasPrefix (absOf es +:+ "/" +:+ e) "/") with true. cbv iota zeta.
  f_equal. unfold cleanElems.
  rewrite Split_app_sep, Split_absOf, (Split_noSep e)
    by (done || by apply validName_noSep).
  rewrite fold_left_app.
  destruct es as [|x es].
  - change (fold_left (cleanStep true)
              ("" :: (if decide ([] = []) then [""] else [])) [])
      with (@nil string).
    cbn [fold_left]. by rewrite validName_step.
  - rewrite decide_False by done.
    change ("" :: x :: es) with ([""] ++ (x :: es)). rewrite fold_left_app.
    change (fold_left (cleanStep true) [""] []) with (@nil string).
    rewrite (clean_valid true (x :: es)) by done. cbn [fold_left].
    rewrite validName_step by done.
    rewrite app_nil_r.
    change (rev (e :: rev (x :: es))) with (rev (rev (x :: es)) ++ [e]).
    by rewrite rev_involutive.
Qed.

Lemma absOf_inj a b :
  Forall (fun e => validName e = true) a ->
  Forall (fun e => validName e = true) b ->
  absOf a = absOf b -> a = b.
Proof.
  intros Ha Hb Heq. apply (f_equal Split) in Heq.
  rewrite !Split_absOf in Heq by done.
  destruct a as [|x a], b as [|y b]; repeat case_decide; simplify_eq;
    try done; exfalso.
  - inversion Hb as [|? ? Hv]. by vm_compute in Hv.
  - inversion Ha as [|? ? Hv]. by vm_compute in Hv.
Qed.

Lemma cleanStep_rooted_valid out e :
  hasSep e = false ->
  Forall (fun e => validName e = true) out ->
  Forall (fun e => validName e = true) (cleanStep true out e).
Proof.
  intros He Hout. unfold cleanStep.
  repeat case_decide; try done.
  - destruct out as [|l out]; [done|].
    case_decide; [|by inversion_clear Hout].
    subst. by inversion_clear Hout.
  - constructor; [|done]. unfold validName.
    rewrite He. by rewrite !bool_decide_eq_true_2.
Qed.

Lemma fold_cleanStep_rooted_valid es out :
  Forall (fun e => hasSep e = false) es ->
  Forall (fun e => validName e = true) out ->
  Forall (fun e => validName e = true) (fold_left (cleanStep true) es out).
Proof.
  intros Hes. revert out.
  induction Hes as [|e es He _ IH]; intros out Hout; [done|].
  cbn [fold_left]. by apply IH, cleanStep_rooted_valid.
Qed.

Lemma IsAbs_nonempty p : IsAbs p = true -> p ≠ "".
Proof. by intros H ->. Qed.

(** [Clean] turns any absolute path into a cleaned absolute path. *)
Lemma Clean_abs p :
  IsAbs p = true ->
  exists es, Forall (fun e => validName e = true) es /\ Clean p = absOf es.
Proof.
  intros Hp. exists (cleanElems true p). split.
  - unfold cleanElems. apply Forall_rev.
    apply fold_cleanStep_rooted_valid; [apply Split_Forall_noSep|done].
  - unfold Clean. rewrite decide_False by by apply IsAbs_nonempty.
    unfold IsAbs in Hp. by rewrite Hp.
Qed.

Lemma IsAbs_absOf es : IsAbs (absOf es) = true.
Proof. reflexivity. Qed.

Lemma IsAbs_app p t : IsAbs p = true -> IsAbs (p +:+ t) = true.
Proof.
  unfold IsAbs. intros [u ->]%HasPrefix_spec.
  rewrite append_assoc. apply HasPrefix_app.
Qed.

(** [Abs] yields a cleaned absolute path when the working directory is
    absolute. *)
Lemma Abs_absOf wd path absPath :
  (forall d, wd = Ok d -> IsAbs d = true) ->
  Abs wd path = Ok absPath ->
  exists es, Forall (fun e => validName e = true) es /\ absPath = absOf es.
Proof.
  intros Hwd. unfold Abs.
  destruct (IsAbs path) eqn:Hp.
  - intros [= <-]. by apply Clean_abs.
  - destruct wd as [d|]; [|done]. intros [= <-].
    specialize (Hwd d eq_refl). unfold Join.
    rewrite decide_False by by apply IsAbs_nonempty.
    apply Clean_abs.
    change (strings.Join [d; path]) with (d +:+ "/" +:+ path).
    by apply IsAbs_app.
Qed.

Lemma relElems_absOf es :
  Forall (fun e => validName e = true) es -> relElems (absOf es) = "" :: es.
Proof.
  intros Hes. unfold relElems. rewrite decide_False by done.
  rewrite Split_absOf by done.
  destruct es as [|e es] using rev_ind; [reflexivity|].
  rewrite decide_False by by destruct es.
  change ("" :: es ++ [e]) with (("" :: es) ++ [e]).
  rewrite rev_unit. rewrite decide_False; [done|].
  apply Forall_app in Hes as [_ He]. inversion_clear He. by intros ->.
Qed.

Lemma dropCommon_app a x y : dropCommon (a ++ x) (a ++ y) = dropCommon x y.
Proof.
  induction a as [|e a IH]; [done|]. cbn [app dropCommon].
  by rewrite decide_True.
Qed.

Lemma dropCommon_nil_l a b :
  (dropCommon a b).1 = [] -> exists r, b = a ++ r /\ (dropCommon a b).2 = r.
Proof.
  revert b. induction a as [|e a IH]; intros b.
  - exists b. by destruct b.
  - destruct b as [|f b]; [done|]. cbn [dropCommon].
    case_decide as Hef; [|done]. subst f.
    intros [r [-> Hr]]%IH. by exists r.
Qed.

Lemma dropCommon_valid a b :
  Forall (fun e => validName e = true) a ->
  Forall (fun e => validName e = true) (dropCommon a b).1.
Proof.
  intros Ha. revert b. induction Ha as [|e a He Ha IH]; intros b.
  - by destruct b.
  - destruct b as [|f b]; cbn [dropCommon]; [by constructor|].
    case_decide; [apply IH|by constructor].
Qed.

Lemma ups_prefix n t : HasPrefix (ups (S n) +:+ t) ".." = true.
Proof. unfold ups. cbn [repeat]. by destruct n. Qed.

(** [Rel] between two absolute paths, by the elements of their cleaned
    forms. *)
Lemma Rel_cleaned p q a b :
  Forall (fun e => validName e = true) a ->
  Forall (fun e => validName e = true) b ->
  Clean p = absOf a -> Clean q = absOf b ->
  Rel p q =
  match dropCommon a b with
  | ([], []) => Ok "."
  | ([], ts) => Ok (strings.Join ts)
  | (bs, []) => Ok (ups (length bs))
  | (bs, ts) => Ok (ups (length bs) +:+ "/" +:+ strings.Join ts)
  end.
Proof.
  intros Ha Hb Hp Hq. unfold Rel. rewrite Hp, Hq.
  case_decide as Heq.
  - apply absOf_inj in Heq as ->; [|done..].
    rewrite <- (app_nil_r a) at 1 2. by rewrite dropCommon_app.
  - rewrite decide_False by done.
    change (HasPrefix (absOf a) "/") with true.
    change (HasPrefix (absOf b) "/") with true. cbn [Bool.eqb negb].
    rewrite !relElems_absOf by done.
    cbn [dropCommon]. rewrite decide_True by done.
    pose proof (dropCommon_valid a b Ha) as Hv.
    destruct (dropCommon a b) as [[|x bs] [|t ts]] eqn:Hd; try done.
    + destruct (dropCommon_nil_l a b) as [r [-> Hr]]; [by rewrite Hd|].
      rewrite Hd in Hr. simpl in Hr. subst r.
      by rewrite app_nil_r in Heq.
    + rewrite decide_False; [done|].
      simpl in Hv. inversion_clear Hv. by intros ->.
    + rewrite decide_False; [done|].
      simpl in Hv. inversion_clear Hv. by intros ->.
Qed.

Lemma Rel_absOf a b :
  Forall (fun e => validName e = true) a ->
  Forall (fun e => validName e = true) b ->
  Rel (absOf a) (absOf b) =
  match dropCommon a b with
  | ([], []) => Ok "."
  | ([], ts) => Ok (strings.Join ts)
  | (bs, []) => Ok (ups (length bs))
  | (bs, ts) => Ok (ups (length bs) +:+ "/" +:+ strings.Join ts)
  end.
Proof. intros Ha Hb. by apply Rel_cleaned; [..|apply Clean_absOf|apply Clean_absOf]. Qed.

(** The path of a file below the root, relative to the root. *)
Lemma Rel_under a r :
  Forall (fun e => validName e = true) a ->
  Forall (fun e => validName e = true) r ->
  Rel (absOf a) (absOf (a ++ r)) = Ok (relOf r).
Proof.
  intros Ha Hr. rewrite Rel_absOf by (done || by apply Forall_app).
  rewrite <- (app_nil_r a) at 1. rewrite dropCommon_app.
  unfold relOf. by destruct r.
Qed.

End PathFacts.


(** ** The walk *)

Section NodeInduction.

Import os.

Lemma node_ind' (P : node -> Prop) :
  (forall es, Forall (fun e => P (snd e)) es -> P (Directory es)) ->
  (forall n, (forall es, n ≠ Directory es) -> P n) ->
  forall n, P n.
Proof.
  intros Hd Hl. fix IH 1. intros n.
  destruct n as [|es| | | |]; try (by apply Hl).
  apply Hd. induction es as [|[name c] es IHes]; constructor.
  - apply IH.
  - apply IHes.
Qed.

Lemma walk_Directory {S} (fn : walk.WalkFunc S) path es st :
  walk.walk fn path (Directory es) st =
  let '(err1, st1) := fn path (walk.infoOf (Directory es)) None st in
  match err1 with
  | Some _ => (err1, st1)
  | None => walkLoop fn path es st1
  end.
Proof.
  cbn [walk.walk].
  destruct (fn path (walk.infoOf (Directory es)) None st) as [[e|] st1];
    [done|].
  revert st1. induction es as [|[name c] es IH]; intros st1; [done|].
  cbn [walkLoop]. destruct c; rewrite ?IH; try reflexivity.
  all: repeat match goal with
       | |- context [let '(_, _) := ?x in _] => destruct x as [[?|] ?]
       | |- context [if ?b then _ else _] => destruct b
       end; rewrite ?IH; reflexivity.
Qed.

Lemma walkLoop_cons {S} (fn : walk.WalkFunc S) path name child es st :
  walkLoop fn path ((name, child) :: es) st =
  let '(err', st') := walk.walk fn (filepath.Join [path; name]) child st in
  match err' with
  | Some e =>
      if propagates child || negb (bool_decide (e = SkipDir))
      then (Some e, st')
      else walkLoop fn path es st'
  | None => walkLoop fn path es st'
  end.
Proof.
  cbn [walkLoop]. destruct child; try reflexivity.
  cbn [walk.walk propagates orb].
  destruct (fn _ _ _ _) as [[e|] st']; [|done].
  by destruct (decide (e = SkipDir)) as [->|Hne];
    [rewrite bool_decide_eq_true_2|rewrite bool_decide_eq_false_2].
Qed.

Lemma propagates_IsDir child :
  propagates child = true -> IsDir (walk.infoOf child) = false.
Proof.
  destruct child as [| | | |k|]; try destruct k; vm_compute; congruence.
Qed.

End NodeInduction.

Section WalkFacts.

Import os walk dir options.

Variables (s : Serializer) (o : Options) (a ig : list string).
Hypothesis Ha : Forall (fun e => validName e = true) a.

Local Abbreviation root := (absOf a).
Local Abbreviation fn := (walkFn s o root ig).
Local Abbreviation valid := (Forall (fun e => validName e = true)).

Lemma shouldIgnore_under r :
  valid r ->
  shouldIgnore s (absOf (a ++ r)) root ig = Ok (ignoreLoop (relOf r) root ig).
Proof.
  intros Hr. unfold shouldIgnore. by rewrite Rel_under.
Qed.

Lemma fn_err path info e acc : fn path info (Some e) acc = (Some e, acc).
Proof. reflexivity. Qed.

Lemma fn_Regular r acc :
  valid r ->
  fn (absOf (a ++ r)) (infoOf Regular) None acc =
  if ignoreLoop (relOf r) root ig then (None, acc)
  else (None, acc ++ [absOf (a ++ r)]).
Proof.
  intros Hr. unfold walkFn.
  change (negb (Z.land (Mode (infoOf Regular)) ModeSymlink =? 0)) with false.
  change (IsDir (infoOf Regular)) with false.
  change (IsRegular (Mode (infoOf Regular))) with true.
  cbn [andb]. cbv iota. rewrite shouldIgnore_under by done.
  by destruct (ignoreLoop _ _ _).
Qed.

Lemma fn_Symlink r acc :
  valid r ->
  fn (absOf (a ++ r)) (infoOf Symlink) None acc =
  if AllowSymlinks o then (None, acc)
  else (Some (errorString ("symlink not allowed: " +:+ absOf (a ++ r) +:+
                           " (use AllowSymlinks option)")), acc).
Proof.
  intros Hr. unfold walkFn.
  change (negb (Z.land (Mode (infoOf Symlink)) ModeSymlink =? 0)) with true.
  change (IsDir (infoOf Symlink)) with false.
  change (IsRegular (Mode (infoOf Symlink))) with false.
  destruct (AllowSymlinks o); cbn [andb negb]; cbv iota; [|done].
  rewrite shouldIgnore_under by done.
  by destruct (ignoreLoop _ _ _).
Qed.

Lemma fn_Special k r acc :
  valid r ->
  fn (absOf (a ++ r)) (infoOf (Special k)) None acc = (None, acc).
Proof.
  intros Hr. unfold walkFn.
  replace (negb (Z.land (Mode (infoOf (Special k))) ModeSymlink =? 0))
    with false by by destruct k.
  replace (IsDir (infoOf (Special k))) with false by by destruct k.
  replace (IsRegular (Mode (infoOf (Special k)))) with false
    by by destruct k.
  cbn [andb]. cbv iota. rewrite shouldIgnore_under by done.
  by destruct (ignoreLoop _ _ _).
Qed.

Lemma fn_Directory es r acc :
  valid r ->
  fn (absOf (a ++ r)) (infoOf (Directory es)) None acc =
  if ignoreLoop (relOf r) root ig then (Some SkipDir, acc) else (None, acc).
Proof.
  intros Hr. unfold walkFn.
  change (negb (Z.land (Mode (infoOf (Directory es))) ModeSymlink =? 0))
    with false.
  change (IsDir (infoOf (Directory es))) with true.
  cbn [andb]. cbv iota. rewrite shouldIgnore_under by done.
  by destruct (ignoreLoop _ _ _).
Qed.

Lemma fileAt_leaf n c n' :
  (forall es, n ≠ Directory es) -> fileAt n c n' -> c = [] /\ n' = n.
Proof. intros Hn Hat. inversion Hat; subst; [done|]. by destruct (Hn entries). Qed.

Lemma collects_nil n r err :
  err ≠ Some SkipAll ->
  (IsDir (infoOf n) = false -> err ≠ Some SkipDir) ->
  (err = None \/ err = Some SkipDir ->
   forall c, fileAt n c Regular ->
     (forall c1 c2, c = c1 ++ c2 ->
        ignoreLoop (relOf (r ++ c1)) root ig = false) -> False) ->
  collects a ig n r err [].
Proof.
  intros H1 H2 H3. split; [constructor|]. split; [by intros c ?%elem_of_nil|].
  split; [done|]. split; [done|].
  intros He c Hc Hp. destruct (H3 He c Hc Hp).
Qed.

Lemma map_under r name (cs : list (list string)) :
  map (fun c => absOf (a ++ (r ++ [name]) ++ c)) cs =
  map (fun c => absOf (a ++ r ++ c)) (map (cons name) cs).
Proof.
  rewrite map_map. apply map_ext. intros c.
  by rewrite <- (app_assoc r [name] c).
Qed.

Lemma walkLoop_collects es :
  Forall (fun e =>
    wfTree (snd e) = true ->
    forall r acc err files, valid r ->
      walk fn (absOf (a ++ r)) (snd e) acc = (err, files) ->
      exists cs, files = acc ++ map (fun c => absOf (a ++ r ++ c)) cs
                 /\ collects a ig (snd e) r err cs) es ->
  NoDup (map fst es) ->
  Forall (fun e => validName (fst e) = true /\ wfTree (snd e) = true) es ->
  forall r acc err files, valid r ->
    walkLoop fn (absOf (a ++ r)) es acc = (err, files) ->
    exists cs, files = acc ++ map (fun c => absOf (a ++ r ++ c)) cs
               /\ collectsLoop a ig es r err cs.
Proof.
  induction es as [|[name child] es IHes];
    intros HP Hnd Hwf r acc err files Hr.
  - intros [= <- <-]. exists []. split; [by rewrite app_nil_r|].
    split; [constructor|]. split; [by intros c ?%elem_of_nil|].
    repeat split; try done. by intros _ ? ? ? ?%elem_of_nil.
  - inversion_clear HP as [|? ? HPc HPes].
    inversion_clear Hwf as [|? ? [Hname Hwfc] Hwfes].
    cbn [map fst] in Hnd. apply NoDup_cons in Hnd as [Hfresh Hnd].
    cbn [fst snd] in *.
    specialize (IHes HPes Hnd Hwfes).
    rewrite walkLoop_cons.
    rewrite Join_absOf by (done || by apply Forall_app).
    rewrite <- (app_assoc a r [name]).
    destruct (walk fn (absOf (a ++ r ++ [name])) child acc)
      as [err' st'] eqn:Hw.
    assert (Hr' : valid (r ++ [name])) by (apply Forall_app; by repeat constructor).
    destruct (HPc Hwfc _ _ _ _ Hr' Hw)
      as (cs1 & -> & Hnd1 & Hs1 & Hall1 & Hdir1 & Hc1).
    rewrite map_under.
    assert (Hsound1 : forall c, c ∈ map (cons name) cs1 ->
      exists name0 child0 c',
        c = name0 :: c' /\ (name0, child0) ∈ (name, child) :: es
        /\ fileAt child0 c' Regular /\ valid c
        /\ ignoreLoop (relOf (r ++ c)) root ig = false).
    { intros c (c' & -> & Hc')%list_elem_of_fmap.
      destruct (Hs1 c' Hc') as (Hat & Hv & Hi).
      exists name, child, c'. split; [done|]. split; [by left|].
      split; [done|]. split; [by constructor|].
      by rewrite <- (app_assoc r [name] c') in Hi. }
    assert (Hnd1' : NoDup (map (cons name) cs1)).
    { apply NoDup_fmap_2; [|done]. by intros ? ? [= ->]. }
    assert (Hstop : forall e, err' = Some e ->
              propagates child || negb (bool_decide (e = SkipDir)) = true ->
              exists cs, acc ++ map (fun c => absOf (a ++ r ++ c)) (map (cons name) cs1)
                         = acc ++ map (fun c => absOf (a ++ r ++ c)) cs
                 /\ collectsLoop a ig ((name, child) :: es) r (Some e) cs).
    { intros e -> He. exists (map (cons name) cs1). split; [done|].
      split; [done|]. split; [done|]. split; [done|]. split; [|done].
      apply orb_true_iff in He as [Hp|Hne].
      - by apply Hdir1, propagates_IsDir.
      - intros [= ->]. by rewrite bool_decide_eq_true_2 in Hne. }
    assert (Hgo : err' = None \/ err' = Some SkipDir ->
              walkLoop fn (absOf (a ++ r)) es
                (acc ++ map (fun c => absOf (a ++ r ++ c)) (map (cons name) cs1))
                = (err, files) ->
              exists cs, files = acc ++ map (fun c => absOf (a ++ r ++ c)) cs
                 /\ collectsLoop a ig ((name, child) :: es) r err cs).
    { intros Herr' Hloop.
      destruct (IHes _ _ _ _ Hr Hloop)
        as (cs2 & -> & Hnd2 & Hs2 & Hall2 & Hskip2 & Hc2).
      exists (map (cons name) cs1 ++ cs2).
      split; [by rewrite map_app, app_assoc|].
      split.
      { apply NoDup_app. split; [done|]. split; [|done].
        intros c (c' & -> & _)%list_elem_of_fmap Hin2.
        destruct (Hs2 _ Hin2) as (name0 & child0 & c0 & [= -> ->] & Hin & _).
        apply Hfresh. apply list_elem_of_fmap. by exists (name0, child0). }
      split.
      { intros c [Hin|Hin]%elem_of_app; [by apply Hsound1|].
        destruct (Hs2 _ Hin) as (name0 & child0 & c0 & -> & Hin0 & Hrest).
        exists name0, child0, c0. split; [done|]. split; [by right|done]. }
      split; [done|]. split; [done|].
      intros Hnone name0 child0 c0 [Heq|Hin]%elem_of_cons Hat Hpre.
      - injection Heq as Hn Hch. subst name0 child0.
        apply elem_of_app. left. apply list_elem_of_fmap.
        exists c0. split; [done|]. apply Hc1; [done..|].
        intros c1 c2 ->. rewrite <- (app_assoc r [name] c1).
        by apply (Hpre (name :: c1) c2).
      - apply elem_of_app. right.
        by apply (Hc2 Hnone name0 child0 c0 Hin Hat). }
    destruct err' as [e|]; [|by intros ?; apply Hgo; [left|]].
    destruct (propagates child || negb (bool_decide (e = SkipDir))) eqn:He.
    + intros [= <- <-]. by apply Hstop.
    + intros Hloop. apply Hgo; [|done]. right.
      apply orb_false_iff in He as [_ He].
      apply negb_false_iff, bool_decide_eq_true in He. by subst.
Qed.

Lemma wfTree_Directory es :
  wfTree (Directory es) = true ->
  NoDup (map fst es)
  /\ Forall (fun e => validName (fst e) = true /\ wfTree (snd e) = true) es.
Proof.
  cbn [wfTree]. intros [Hnd Hall]%andb_true_iff.
  split; [by apply bool_decide_eq_true in Hnd|].
  apply Forall_forall. intros e He.
  rewrite forallb_forall in Hall.
  by apply andb_true_iff, Hall, list_elem_of_In.
Qed.

(** What the walk collects below a node of a well-formed tree. *)
Lemma walk_collects n :
  wfTree n = true ->
  forall r acc err files, valid r ->
    walk fn (absOf (a ++ r)) n acc = (err, files) ->
    exists cs, files = acc ++ map (fun c => absOf (a ++ r ++ c)) cs
               /\ collects a ig n r err cs.
Proof.
  induction n as [es IH|n Hleaf] using node_ind';
    intros Hwf r acc err files Hr.
  - rewrite walk_Directory, fn_Directory by done.
    destruct (ignoreLoop (relOf r) root ig) eqn:Hig.
    + intros [= <- <-]. exists []. split; [by rewrite app_nil_r|].
      apply collects_nil; [done..|].
      intros _ c _ Hpre. specialize (Hpre [] c eq_refl).
      rewrite app_nil_r in Hpre. congruence.
    + intros Hloop. apply wfTree_Directory in Hwf as [Hnd Hwf].
      destruct (walkLoop_collects es IH Hnd Hwf _ _ _ _ Hr Hloop)
        as (cs & -> & Hnd' & Hs & Hall & Hskip & Hc).
      exists cs. split; [done|]. split; [done|]. split.
      { intros c Hin.
        destruct (Hs c Hin) as (name & child & c' & -> & Hin' & Hat & Hrest).
        split; [by eapply fileAt_entry|done]. }
      split; [done|]. split; [done|].
      intros [-> | ->] c Hat Hpre; [|done].
      inversion Hat as [|? name child c' ? Hin Hat']; subst.
      apply (Hc eq_refl name child c' Hin Hat').
      intros c1 c2 Heq _. by apply (Hpre c1 c2).
  - assert (Hnone : forall c, fileAt n c Regular -> c = [] /\ n = Regular).
    { intros c Hat. by destruct (fileAt_leaf n c Regular Hleaf Hat). }
    destruct n as [|es|msg| |k|msg]; [| by destruct (Hleaf es) | | | |].
    + cbn [walk]. rewrite fn_Regular by done.
      destruct (ignoreLoop (relOf r) root ig) eqn:Hig; intros [= <- <-].
      * exists []. split; [by rewrite app_nil_r|].
        apply collects_nil; [done..|].
        intros _ c _ Hpre. specialize (Hpre [] c eq_refl).
        rewrite app_nil_r in Hpre. congruence.
      * exists [[]]. split; [cbn [map]; by rewrite app_nil_r|].
        split; [apply NoDup_singleton|]. split.
        { intros c ->%list_elem_of_singleton. rewrite app_nil_r.
          split; [constructor|done]. }
        split; [done|]. split; [done|].
        intros _ c [-> _]%Hnone _. by apply list_elem_of_singleton.
    + cbn [walk]. rewrite fn_err. intros [= <- <-].
      exists []. split; [by rewrite app_nil_r|].
      apply collects_nil; [done..|]. by intros [?|?].
    + cbn [walk]. rewrite fn_Symlink by done.
      destruct (AllowSymlinks o); intros [= <- <-];
        (exists []; split; [by rewrite app_nil_r|]);
        apply collects_nil; try done.
      * by intros _ c [_ ?]%Hnone.
      * by intros [?|?].
    + cbn [walk]. rewrite fn_Special by done. intros [= <- <-].
      exists []. split; [by rewrite app_nil_r|].
      apply collects_nil; [done..|]. by intros _ c [_ ?]%Hnone.
    + cbn [walk]. rewrite fn_err. intros [= <- <-].
      exists []. split; [by rewrite app_nil_r|].
      apply collects_nil; [done..|]. by intros [?|?].
Qed.

End WalkFacts.


(** ** The sorted directory listing *)

Section SortedFacts.

Import os.

Lemma wfTree_Directory_2 es :
  NoDup (map fst es) ->
  Forall (fun e => validName (fst e) = true /\ wfTree (snd e) = true) es ->
  wfTree (Directory es) = true.
Proof.
  intros Hnd Hall. cbn [wfTree]. apply andb_true_iff.
  split; [by apply bool_decide_eq_true|].
  apply forallb_forall. intros e He%list_elem_of_In.
  rewrite Forall_forall in Hall. by apply andb_true_iff, Hall.
Qed.

Lemma sorted_entries es :
  merge_sort byName (map (fun e => (fst e, sorted (snd e))) es)
  ≡ₚ map (fun e => (fst e, sorted (snd e))) es.
Proof. apply merge_sort_Permutation. Qed.

Lemma wfTree_sorted n : wfTree n = true -> wfTree (sorted n) = true.
Proof.
  induction n as [es IH|n Hleaf] using node_ind'.
  - intros [Hnd Hall]%wfTree_Directory. cbn [sorted].
    apply wfTree_Directory_2.
    + rewrite sorted_entries, map_map. by cbn [fst].
    + rewrite sorted_entries. apply Forall_map.
      rewrite Forall_forall in IH, Hall. apply Forall_forall.
      intros e He. cbn [fst snd]. destruct (Hall e He). split; [done|].
      by apply IH.
  - intros _. destruct n; try done. by destruct (Hleaf entries).
Qed.

Lemma sorted_Regular n : sorted n = Regular -> n = Regular.
Proof. by destruct n. Qed.

Lemma fileAt_sorted n c n' : fileAt n c n' -> fileAt (sorted n) c (sorted n').
Proof.
  induction 1 as [n|es name child c n' Hin _ IH]; [constructor|].
  cbn [sorted]. apply fileAt_entry with (sorted child); [|done].
  rewrite sorted_entries. apply list_elem_of_fmap. by exists (name, child).
Qed.

Lemma fileAt_sorted_inv c n m :
  fileAt (sorted n) c m -> exists n', fileAt n c n' /\ m = sorted n'.
Proof.
  revert n. induction c as [|name c IH]; intros n Hat.
  - inversion Hat; subst. exists n. split; [constructor|done].
  - destruct n as [|es| | | |]; try (by inversion Hat).
    cbn [sorted] in Hat.
    inversion Hat as [|? ? child ? ? Hin Hat']; subst.
    rewrite sorted_entries in Hin.
    apply list_elem_of_fmap in Hin as ([name' child'] & [= -> ->] & Hin).
    destruct (IH _ Hat') as (n' & Hat'' & ->).
    exists n'. split; [|done]. by apply fileAt_entry with child'.
Qed.

Lemma fileAt_sorted_Regular n c :
  fileAt (sorted n) c Regular <-> fileAt n c Regular.
Proof.
  split.
  - intros (n' & Hat & Heq)%fileAt_sorted_inv.
    symmetry in Heq. apply sorted_Regular in Heq. by subst.
  - apply (fileAt_sorted n c Regular).
Qed.

End SortedFacts.

Section WalkTop.

Import os walk dir options.

Variables (s : Serializer) (o : Options) (a ig : list string).
Hypothesis Ha : Forall (fun e => validName e = true) a.

(** What [Walk] collects from a well-formed tree found at the cleaned
    absolute path [absOf a]. *)
Lemma Walk_collects tree err files :
  wfTree tree = true ->
  Walk tree (absOf a) (walkFn s o (absOf a) ig) [] = (err, files) ->
  exists cs,
    files = map (fun c => absOf (a ++ c)) cs
    /\ NoDup cs
    /\ (forall c, c ∈ cs ->
          fileAt tree c Regular
          /\ Forall (fun e => validName e = true) c
          /\ ignoreLoop (relOf c) (absOf a) ig = false)
    /\ (err = None ->
        forall c, fileAt tree c Regular ->
          (forall c1 c2, c = c1 ++ c2 ->
             ignoreLoop (relOf c1) (absOf a) ig = false) ->
          c ∈ cs).
Proof.
  intros Hwf. unfold Walk.
  destruct (walk _ (absOf a) (sorted tree) []) as [err' files'] eqn:Hw.
  pose proof (walk_collects s o a ig Ha (sorted tree) (wfTree_sorted _ Hwf)
                [] [] err' files' (Forall_nil_2 _)) as Hcol.
  rewrite app_nil_r in Hcol. cbn [app] in Hcol.
  destruct (Hcol Hw) as (cs & -> & Hnd & Hs & Hall & _ & Hc).
  intros Hres. exists cs.
  assert (Hfiles : files = map (fun c => absOf (a ++ c)) cs
                   /\ (err = None -> err' = None \/ err' = Some SkipDir)).
  { destruct err' as [e|]; [|injection Hres as <- <-; by split; [|left]].
    destruct (decide (e = SkipDir)) as [->|];
      [injection Hres as <- <-; by split; [|right]|].
    destruct (decide (e = SkipAll)) as [->|]; [done|].
    injection Hres as <- <-. by split. }
  destruct Hfiles as [-> Herr]. split; [done|]. split; [done|]. split.
  - intros c Hin. destruct (Hs c Hin) as (Hat & Hv & Hi).
    split; [by apply fileAt_sorted_Regular|done].
  - intros Hnone c Hat Hpre. apply Hc; [by apply Herr| |done].
    by apply fileAt_sorted_Regular.
Qed.

End WalkTop.


(** ** Building and sorting the manifest *)

Section ManifestFacts.

Import os walk dir options.

Lemma ltb_false_le (x y : string) : String.ltb y x = false <-> String.le x y.
Proof.
  unfold String.le, String.ltb, String.leb.
  rewrite (String.compare_antisym x y).
  destruct (String.compare y x); simpl; split; done.
Qed.

Lemma ltb_true_iff (x y : string) :
  String.ltb x y = true <-> String.le x y /\ x ≠ y.
Proof.
  unfold String.le, String.ltb, String.leb.
  destruct (String.compare x y) eqn:Hc; simpl.
  - apply String.compare_eq_iff in Hc. split; [done|]. by intros [_ ?].
  - split; [|done]. intros _. split; [done|]. intros ->.
    assert (String.le y y) as Hr by reflexivity.
    unfold String.le, String.leb in Hr.
    pose proof (String.compare_antisym y y) as Ha. rewrite Hc in Ha.
    simpl in Ha. by rewrite Ha in Hc.
  - split; [done|]. by intros [? _].
Qed.

Lemma notAfter_le x y : notAfter x y <-> String.le (Name x) (Name y).
Proof. apply ltb_false_le. Qed.

Local Instance notAfter_total : Total notAfter.
Proof.
  intros x y. rewrite !notAfter_le. apply (total String.le).
Qed.

Local Instance notAfter_trans : Transitive notAfter.
Proof.
  intros x y z. rewrite !notAfter_le. apply transitivity.
Qed.

Lemma sortSlice_perm l : sortSlice l ≡ₚ l.
Proof. apply merge_sort_Permutation. Qed.

Lemma sortSlice_sorted l : StronglySorted notAfter (sortSlice l).
Proof. apply StronglySorted_merge_sort; apply _. Qed.

(** With pairwise distinct names the sorted entries are strictly
    ascending by name. *)
Lemma sortSlice_strict l :
  NoDup (map Name l) ->
  StronglySorted (fun x y => String.ltb x y = true) (map Name (sortSlice l)).
Proof.
  intros Hnd.
  assert (Hnd' : NoDup (map Name (sortSlice l))) by by rewrite sortSlice_perm.
  pose proof (sortSlice_sorted l) as Hs.
  induction Hs as [|x l' Hs IH Hall]; [constructor|].
  cbn [map] in *. apply NoDup_cons in Hnd' as [Hx Hnd'].
  constructor; [by apply IH|].
  apply Forall_map, Forall_forall. intros y Hy.
  rewrite Forall_forall in Hall. apply ltb_true_iff.
  split; [by apply notAfter_le, Hall|].
  intros Heq. apply Hx. rewrite Heq. apply list_elem_of_fmap. by exists y.
Qed.

(** The sorted manifest does not depend on the order in which the
    entries were collected. *)
Lemma sortSlice_unique l1 l2 :
  NoDup (map Name l1) -> l1 ≡ₚ l2 -> sortSlice l1 = sortSlice l2.
Proof.
  intros Hnd Hp.
  apply (StronglySorted_unique_strong notAfter);
    [|apply sortSlice_sorted..|by rewrite !sortSlice_perm].
  intros x y Hx Hy Hxy Hyx. rewrite sortSlice_perm in Hx, Hy.
  rewrite <- Hp in Hy.
  apply notAfter_le in Hxy, Hyx.
  assert (Hn : Name x = Name y) by by apply (anti_symm String.le).
  apply list_elem_of_lookup in Hx as [i Hi], Hy as [j Hj].
  assert (i = j) as ->; [|congruence].
  apply (NoDup_lookup (map Name l1) i j (Name x)); [done|..];
    rewrite list_lookup_fmap; [by rewrite Hi|by rewrite Hj, Hn].
Qed.

Lemma relOf_valid_Split c :
  Forall (fun e => validName e = true) c -> c ≠ [] ->
  strings.Split (relOf c) = c.
Proof.
  intros Hc Hne. unfold relOf. rewrite decide_False by done.
  apply Split_Join; [done|by apply Forall_valid_noSep].
Qed.

Lemma relOf_inj c1 c2 :
  Forall (fun e => validName e = true) c1 ->
  Forall (fun e => validName e = true) c2 ->
  relOf c1 = relOf c2 -> c1 = c2.
Proof.
  intros H1 H2 Heq. apply (f_equal strings.Split) in Heq.
  destruct c1 as [|x c1], c2 as [|y c2]; [done| | |].
  - rewrite (relOf_valid_Split (y :: c2)) in Heq by done.
    injection Heq as <- <-. inversion H2 as [|? ? Hv]. by vm_compute in Hv.
  - rewrite (relOf_valid_Split (x :: c1)) in Heq by done.
    injection Heq as -> ->. inversion H1 as [|? ? Hv]. by vm_compute in Hv.
  - by rewrite !relOf_valid_Split in Heq by done.
Qed.

Lemma relOf_no_slash c :
  Forall (fun e => validName e = true) c ->
  strings.HasPrefix (relOf c) "/" = false.
Proof.
  intros Hc. unfold relOf. destruct c as [|x c]; [done|].
  rewrite decide_False by done. inversion_clear Hc as [|? ? Hx _].
  destruct x as [|ch x]; [by vm_compute in Hx|].
  apply validName_noSep in Hx. cbn [hasSep] in Hx.
  apply orb_false_iff in Hx as [Hch _].
  destruct c; cbn [strings.Join]; rewrite ?append_cons; cbn [strings.HasPrefix];
    by rewrite Hch.
Qed.

Lemma fileDescriptorsOf_under fileHashes a cs acc :
  Forall (fun e => validName e = true) a ->
  Forall (Forall (fun e => validName e = true)) cs ->
  fileDescriptorsOf (absOf a) fileHashes
    (map (fun c => absOf (a ++ c)) cs) acc
  = Ok (acc ++ map (entryOf fileHashes a) cs).
Proof.
  intros Ha Hcs. revert acc.
  induction Hcs as [|c cs Hc _ IH]; intros acc; [by rewrite app_nil_r|].
  cbn [map fileDescriptorsOf]. rewrite Rel_under by done.
  rewrite IH. by rewrite <- app_assoc.
Qed.

End ManifestFacts.


(** ** The store: the private ignore list *)

Section StoreFacts.

Import runtime.

Context {T : Type}.

Lemma frame_refl (st : Store T) : frame st st.
Proof. by split. Qed.

Lemma frame_trans (st1 st2 st3 : Store T) :
  frame st1 st2 -> frame st2 st3 -> frame st1 st3.
Proof. intros [H1 H2] [H3 H4]. split; eauto. Qed.

Lemma fresh_array_None (st : Store T) :
  Arrays st !! fresh (dom (Arrays st)) = None.
Proof. apply not_elem_of_dom, is_fresh. Qed.

Lemma fresh_struct_None (st : Store T) :
  Structs st !! fresh (dom (Structs st)) = None.
Proof. apply not_elem_of_dom, is_fresh. Qed.

Lemma frame_alloc_array (st : Store T) arr :
  frame st (MkStore (<[fresh (dom (Arrays st)) := arr]> (Arrays st))
                    (Structs st)).
Proof.
  split; [done|]. intros l a Hl. cbn [Arrays].
  rewrite lookup_insert_ne; [done|].
  intros <-. by rewrite fresh_array_None in Hl.
Qed.

Lemma frame_alter_private (st0 st : Store T) l f :
  Arrays st0 !! l = None -> frame st0 st ->
  frame st0 (MkStore (alter f l (Arrays st)) (Structs st)).
Proof.
  intros Hl [Hs Ha]. split; [done|]. intros l' a Hl'. cbn [Arrays].
  rewrite lookup_alter_ne; [by apply Ha|]. intros <-. congruence.
Qed.

Lemma frame_None (st0 st : Store T) l :
  frame st0 st -> Arrays st !! l = None -> Arrays st0 !! l = None.
Proof.
  intros [_ Ha] Hl. destruct (Arrays st0 !! l) as [a|] eqn:Hl0; [|done].
  apply Ha in Hl0. congruence.
Qed.

Lemma elems_private (st0 st : Store T) p items :
  privateSlice st0 st p items -> elems st p = items.
Proof.
  intros (l & arr & Hb & _ & Harr & Hoff & Htake & _).
  unfold elems. rewrite Hb, Harr, Hoff. by rewrite drop_0.
Qed.

(** Appending to a private slice writes only to arrays allocated after
    [st0], and the slice stays private. *)
Lemma append_private grow (st0 st : Store T) p items x :
  frame st0 st -> privateSlice st0 st p items ->
  exists p' st',
    append grow p x st = Some (p', st')
    /\ frame st0 st' /\ privateSlice st0 st' p' (items ++ [x]).
Proof.
  intros Hfr Hp. pose proof (elems_private _ _ _ _ Hp) as Hel.
  destruct Hp as (l & arr & Hb & Hl0 & Harr & Hoff & Htake & Hlen & Hcap).
  unfold append. rewrite Hb.
  destruct (Nat.ltb (len p) (cap p)) eqn:Hlt.
  - apply Nat.ltb_lt in Hlt. eexists _, _. split; [done|].
    split; [by apply frame_alter_private|].
    exists l, (<[len p := x]> arr). cbn [base off len cap Arrays].
    rewrite Hoff, Nat.add_0_l.
    split; [done|]. split; [done|].
    split; [by rewrite lookup_alter_eq, Harr|]. split; [done|].
    rewrite length_insert.
    split; [|lia].
    rewrite (take_S_r _ _ x) by (apply list_lookup_insert_eq; lia).
    by rewrite take_insert_ge, Htake by lia.
  - eexists _, _. split; [done|].
    split; [eapply frame_trans; [done|apply frame_alloc_array]|].
    eexists _, _. cbn [base off len cap Arrays].
    split; [done|].
    split; [by eapply frame_None, fresh_array_None|].
    split; [by rewrite lookup_insert_eq|]. split; [done|].
    rewrite Hel.
    assert (Hil : length items = len p).
    { rewrite <- Htake, length_take. lia. }
    rewrite length_app. cbn [length]. rewrite length_replicate, Hil.
    split; [|lia].
    rewrite take_app_ge by lia.
    rewrite Hil. replace (S (len p) - len p)%nat with 1%nat by lia.
    done.
Qed.

Lemma forEach_append_private grow (f : string -> string) xs :
  forall (st0 st : Store T) p items,
    frame st0 st -> privateSlice st0 st p items ->
    exists p' st',
      forEach (fun ig g => append grow ig (f g)) p xs st = Some (p', st')
      /\ frame st0 st' /\ privateSlice st0 st' p' (items ++ map f xs).
Proof.
  induction xs as [|x xs IH]; intros st0 st p items Hfr Hp.
  - exists p, st. by rewrite app_nil_r.
  - destruct (append_private grow st0 st p items (f x) Hfr Hp)
      as (p1 & st1 & Happ & Hfr1 & Hp1).
    destruct (IH st0 st1 p1 _ Hfr1 Hp1) as (p' & st' & Hfe & Hfr' & Hp').
    exists p', st'. cbn [forEach map]. unfold bind. rewrite Happ.
    split; [done|]. split; [done|].
    by rewrite (cons_middle (f x)), app_assoc.
Qed.

Lemma blit_replicate n vs :
  (length vs <= n)%nat ->
  length (blit (replicate n "") 0 vs) = n
  /\ (length vs = n -> blit (replicate n "") 0 vs = vs).
Proof.
  intros Hn. unfold blit. rewrite take_0, Nat.add_0_l. cbn [app].
  split.
  - rewrite length_app, length_drop, length_replicate. lia.
  - intros Hl. rewrite drop_ge by (rewrite length_replicate; lia).
    by rewrite app_nil_r.
Qed.

Lemma elems_length (st : Store T) src :
  validSlice st src -> length (elems st src) = len src.
Proof.
  unfold validSlice, elems. destruct (base src) as [l|]; [|done].
  intros (arr & -> & Hlen). cbn [default].
  unfold id. rewrite length_take, length_drop. lia.
Qed.

(** [make] followed by [copy]: a private copy of the slice [src]. *)
Lemma make_copy_private (st : Store T) src :
  exists p st1 n st2 pre,
    make (len src) st = Some (p, st1)
    /\ copy p src st1 = Some (n, st2)
    /\ frame st st2
    /\ privateSlice st st2 p pre
    /\ length pre = len src
    /\ (validSlice st src -> pre = elems st src).
Proof.
  set (l1 := fresh (dom (Arrays st))).
  set (st1 := MkStore (<[l1 := replicate (len src) ""]> (Arrays st))
                      (Structs st)).
  set (vs := take (Nat.min (len src) (len src)) (elems st1 src)).
  assert (Hvs : (length vs <= len src)%nat)
    by (unfold vs; rewrite length_take; lia).
  destruct (blit_replicate (len src) vs Hvs) as [Hbl Hfull].
  exists (Slice (Some l1) 0 (len src) (len src)), st1,
         (Nat.min (len src) (len src)),
         (MkStore (alter (fun a => blit a 0 vs) l1 (Arrays st1)) (Structs st1)),
         (blit (replicate (len src) "") 0 vs).
  split; [done|]. split; [done|]. cbn [base off len cap].
  assert (Hfr1 : frame st st1) by apply frame_alloc_array.
  split.
  { apply frame_alter_private; [apply fresh_array_None|done]. }
  split.
  { exists l1, (blit (replicate (len src) "") 0 vs). cbn [base off len cap Arrays].
    split; [done|]. split; [apply fresh_array_None|].
    split; [unfold st1; cbn [Arrays]; by rewrite lookup_alter_eq, lookup_insert_eq|].
    split; [done|]. rewrite Hbl. split; [|done].
    by rewrite take_ge by lia. }
  split; [done|].
  intros Hv. pose proof (elems_length st src Hv) as Hlen.
  assert (Hel : elems st1 src = elems st src).
  { unfold elems, validSlice in *. destruct (base src) as [l0|]; [|done].
    destruct Hv as (arr & Harr & _).
    unfold st1. cbn [Arrays]. rewrite lookup_insert_ne; [done|].
    intros <-. unfold l1 in Harr. by rewrite fresh_array_None in Harr. }
  assert (Hvs' : vs = elems st src).
  { unfold vs. rewrite Hel. apply take_ge. lia. }
  rewrite Hfull; [done|]. by rewrite Hvs'.
Qed.

End StoreFacts.


(** ** Serialize: from the store to the walk *)

Section SerializeFacts.

Import os walk dir options runtime.

Lemma Serialize_run w s modelPath (st : Store Options) absPath l o :
  filepath.Abs (Getwd w) modelPath = Ok absPath ->
  opts s = Some l -> Structs st !! l = Some o ->
  exists pre st',
    Serialize w s modelPath st
    = Some (serializeFrom w s o absPath (pre ++ gitIgnores o absPath), st')
    /\ frame st st'
    /\ length pre = len (IgnorePaths o)
    /\ (validSlice st (IgnorePaths o) -> pre = elems st (IgnorePaths o)).
Proof.
  intros Habs Hopts Hl. unfold Serialize. rewrite Habs.
  unfold bind at 1. unfold load. rewrite Hopts, Hl.
  destruct (make_copy_private st (IgnorePaths o))
    as (p & st1 & n & st2 & pre & Hmake & Hcopy & Hfr & Hpriv & Hlen & Hval).
  unfold bind at 1. rewrite Hmake.
  unfold bind at 1. rewrite Hcopy.
  unfold gitIgnores. destruct (IgnoreGitPaths o).
  - destruct (forEach_append_private (growslice w)
                (fun g => filepath.Join [absPath; g]) gitPaths
                st st2 p pre Hfr Hpriv)
      as (p' & st' & Hfe & Hfr' & Hpriv').
    unfold bind at 1. rewrite Hfe.
    unfold bind, range, ret.
    rewrite (elems_private _ _ _ _ Hpriv'). by exists pre, st'.
  - unfold bind, range, ret.
    rewrite (elems_private _ _ _ _ Hpriv). exists pre, st2.
    by rewrite app_nil_r.
Qed.

Lemma Serialize_inv w s modelPath (st : Store Options) r st' :
  Serialize w s modelPath st = Some (r, st') ->
  (exists e, filepath.Abs (Getwd w) modelPath = Err e
             /\ r = Err (wrapError "failed to resolve model path: " e)
             /\ st' = st)
  \/ (exists absPath l o,
        filepath.Abs (Getwd w) modelPath = Ok absPath
        /\ opts s = Some l /\ Structs st !! l = Some o).
Proof.
  unfold Serialize.
  destruct (filepath.Abs (Getwd w) modelPath) as [absPath|e].
  - intros H. right. exists absPath.
    unfold bind at 1 in H. unfold load in H.
    destruct (opts s) as [l|] eqn:Hopts; [|done].
    destruct (Structs st !! l) as [o|] eqn:Hl; [|done].
    by exists l, o.
  - intros [= <- <-]. left. by exists e.
Qed.

(** A successful [Serialize] is a successful [serializeFrom] on a
    cleaned absolute path. *)
Lemma Serialize_Ok w s modelPath (st : Store Options) m st' :
  (forall d, Getwd w = Ok d -> filepath.IsAbs d = true) ->
  Serialize w s modelPath st = Some (Ok m, st') ->
  exists a l o pre,
    Forall (fun e => validName e = true) a
    /\ filepath.Abs (Getwd w) modelPath = Ok (absOf a)
    /\ opts s = Some l /\ Structs st !! l = Some o
    /\ serializeFrom w s o (absOf a) (pre ++ gitIgnores o (absOf a)) = Ok m
    /\ frame st st'
    /\ (validSlice st (IgnorePaths o) -> pre = elems st (IgnorePaths o)).
Proof.
  intros Hwd Hser.
  destruct (Serialize_inv _ _ _ _ _ _ Hser)
    as [(e & _ & ? & _)|(absPath & l & o & Habs & Hopts & Hl)]; [done|].
  destruct (Abs_absOf _ _ _ Hwd Habs) as (a & Ha & ->).
  destruct (Serialize_run _ _ _ _ _ _ _ Habs Hopts Hl)
    as (pre & st'' & Hrun & Hfr & _ & Hval).
  rewrite Hrun in Hser. injection Hser as Hm <-.
  by exists a, l, o, pre.
Qed.

(** What a successful [serializeFrom] returns. *)
Lemma serializeFrom_Ok w s o a ig m :
  Forall (fun e => validName e = true) a ->
  wfTree (Tree w (absOf a)) = true ->
  serializeFrom w s o (absOf a) ig = Ok m ->
  exists cs fileHashes,
    Files m = sortSlice (map (entryOf fileHashes a) cs)
    /\ ModelName m = filepath.Base (absOf a)
    /\ HashFiles w (map (fun c => absOf (a ++ c)) cs) = Ok fileHashes
    /\ NoDup cs
    /\ (forall c, c ∈ cs ->
          fileAt (Tree w (absOf a)) c Regular
          /\ Forall (fun e => validName e = true) c
          /\ ignoreLoop (relOf c) (absOf a) ig = false)
    /\ (forall c, fileAt (Tree w (absOf a)) c Regular ->
          (forall c1 c2, c = c1 ++ c2 ->
             ignoreLoop (relOf c1) (absOf a) ig = false) ->
          c ∈ cs).
Proof.
  intros Ha Hwf. unfold serializeFrom.
  destruct (Walk _ _ _ _) as [err files] eqn:HW.
  destruct (Walk_collects s o a ig Ha _ _ _ Hwf HW)
    as (cs & -> & Hnd & Hs & Hc).
  destruct err as [e|]; [done|].
  destruct (HashFiles w _) as [fileHashes|e] eqn:Hh; [|done].
  rewrite fileDescriptorsOf_under; [|done|].
  2:{ apply Forall_forall. intros c Hin. by destruct (Hs c Hin) as (_ & ? & _). }
  intros [= <-]. exists cs, fileHashes. cbn [Files ModelName app].
  repeat split; try done; by apply Hs || by apply Hc.
Qed.

Lemma entry_names fileHashes a cs :
  map Name (map (entryOf fileHashes a) cs) = map relOf cs.
Proof. by rewrite map_map. Qed.

End SerializeFacts.


(** * The claims *)

Section RootDigest.

Import dir.

Lemma writeHashes_decoded files hashes d0 pre :
  Forall2 (fun file bytes =>
             exists hashValue,
               Digest file !! "sha256" = Some hashValue
               /\ hex.DecodeString hashValue = Ok bytes) files hashes ->
  writeHashes (sha256.Write d0 pre) files
  = Ok (sha256.Write d0 (pre ++ concat hashes)).
Proof.
  intros H. revert pre.
  induction H as [|file bytes files hashes (hv & Hd & Hx) _ IH]; intros pre.
  - by rewrite app_nil_r.
  - cbn [writeHashes concat]. rewrite Hd, Hx, Write_app, IH.
    by rewrite app_assoc.
Qed.

Lemma writeHashes_h_length files d d' :
  writeHashes d files = Ok d' ->
  length (sha256.h d') = length (sha256.h d).
Proof.
  revert d. induction files as [|file files IH]; intros d.
  - by intros [= ->].
  - cbn [writeHashes]. destruct (Digest file !! "sha256"); [|done].
    destruct (hex.DecodeString _); [|done].
    intros ->%IH. apply Write_h_length.
Qed.

(** Whenever [ComputeRootDigest] succeeds it returns 64 characters out
    of [0-9a-f]. *)
Lemma ComputeRootDigest_format m rootDigest :
  ComputeRootDigest m = Ok rootDigest ->
  String.length rootDigest = 64%nat
  /\ Forall (fun c => isLowerHex c = true) (list_ascii_of_string rootDigest).
Proof.
  unfold ComputeRootDigest.
  destruct (writeHashes sha256.New (Files m)) as [d|] eqn:Hw; [|done].
  intros [= <-]. unfold sha256.Sum. cbn [app]. split.
  - rewrite EncodeToString_length, checkSum_length; [done|].
    by rewrite (writeHashes_h_length _ _ _ Hw).
  - apply EncodeToString_lower, checkSum_bytes.
Qed.

End RootDigest.

(** C1: for a manifest whose entries each carry a decodable sha256 digest,
    [ComputeRootDigest] returns the lowercase hex encoding of the SHA-256
    of the concatenation of the decoded digests, in the stored order of
    the entries; for a manifest without entries it returns the SHA-256
    digest of the empty byte string. *)
Theorem ComputeRootDigest_spec (m : dir.Manifest) (hashes : list (list Z)) :
  Forall2 (fun file bytes =>
             exists hashValue,
               dir.Digest file !! "sha256" = Some hashValue
               /\ hex.DecodeString hashValue = Ok bytes)
          (dir.Files m) hashes ->
  dir.ComputeRootDigest m
  = Ok (hex.EncodeToString (sha256.Sum256 (concat hashes)))
  /\ (dir.Files m = [] ->
      dir.ComputeRootDigest m
      = Ok "e3b0c44298fc1c149afbf4c8996fb92427ae41e4649b934ca495991b7852b855").
Proof.
  intros H. split.
  - unfold dir.ComputeRootDigest.
    change sha256.New with (sha256.Write sha256.New []).
    by rewrite (writeHashes_decoded _ _ _ _ H).
  - intros Hnil. unfold dir.ComputeRootDigest. rewrite Hnil.
    vm_compute. reflexivity.
Qed.

Lemma ComputeRootDigest_spec_witness :
  Forall2 (fun file bytes =>
             exists hashValue,
               dir.Digest file !! "sha256" = Some hashValue
               /\ hex.DecodeString hashValue = Ok bytes)
          (dir.Files Examples.manifest2) [[0; 255]; [171; 205; 18]]
  /\ dir.ComputeRootDigest Examples.manifest2
     = Ok (hex.EncodeToString (sha256.Sum256 [0; 255; 171; 205; 18])).
Proof.
  assert (H : Forall2 (fun file bytes =>
             exists hashValue,
               dir.Digest file !! "sha256" = Some hashValue
               /\ hex.DecodeString hashValue = Ok bytes)
          (dir.Files Examples.manifest2) [[0; 255]; [171; 205; 18]]).
  { repeat constructor.
    - exists "00ff". split; reflexivity.
    - exists "AbCd12". split; reflexivity. }
  split; [exact H|].
  exact (proj1 (ComputeRootDigest_spec Examples.manifest2 _ H)).
Defined.

(** C2: when [ComputeDigest] succeeds, its result is ["sha256:"] followed
    by 64 characters out of [0-9a-f], and these are the root digest that
    [ComputeRootDigest] computes for the manifest that [Serialize]
    returns for the same path and options. *)
Theorem ComputeDigest_format (w : dir.World) (modelPath : string)
  (opts : option runtime.loc) (st st' : runtime.Store options.Options)
  (digest : string) :
  dir.ComputeDigest w modelPath opts st = Some (Ok digest, st') ->
  exists rootDigest serializer st1 manifest,
    digest = "sha256:" +:+ rootDigest
    /\ String.length rootDigest = 64%nat
    /\ Forall (fun c => isLowerHex c = true) (list_ascii_of_string rootDigest)
    /\ dir.New opts st = Some (serializer, st1)
    /\ dir.Serialize w serializer modelPath st1 = Some (Ok manifest, st')
    /\ dir.ComputeRootDigest manifest = Ok rootDigest.
Proof.
  unfold dir.ComputeDigest. unfold runtime.bind at 1.
  destruct (dir.New opts st) as [[serializer st1]|] eqn:Hnew; [|done].
  unfold runtime.bind.
  destruct (dir.Serialize w serializer modelPath st1)
    as [[[manifest|e] st2]|] eqn:Hser; [|done..].
  destruct (dir.ComputeRootDigest manifest) as [rootDigest|e] eqn:Hroot;
    [|done].
  intros [= <- <-].
  destruct (ComputeRootDigest_format _ _ Hroot) as [Hlen Hhex].
  by exists rootDigest, serializer, st1, manifest.
Qed.

Lemma ComputeDigest_format_witness :
  exists st',
    dir.ComputeDigest Examples.world "model" None Examples.emptyStore
    = Some (Ok "sha256:395a438987830a52ebfd7706dd863745b77400c93bb9dcc4de986f2e7e01e144", st')
    /\ exists rootDigest serializer st1 manifest,
         "sha256:395a438987830a52ebfd7706dd863745b77400c93bb9dcc4de986f2e7e01e144"
         = "sha256:" +:+ rootDigest
         /\ String.length rootDigest = 64%nat
         /\ Forall (fun c => isLowerHex c = true) (list_ascii_of_string rootDigest)
         /\ dir.New None Examples.emptyStore = Some (serializer, st1)
         /\ dir.Serialize Examples.world serializer "model" st1
            = Some (Ok manifest, st')
         /\ dir.ComputeRootDigest manifest = Ok rootDigest.
Proof.
  eexists. split; [vm_compute; reflexivity|].
  eapply ComputeDigest_format. vm_compute. reflexivity.
Defined.


Section Reordering.

Import os.

Lemma byName_le x y : byName x y <-> String.le (fst x) (fst y).
Proof. done. Qed.

Local Instance byName_total : Total byName.
Proof. intros x y. rewrite !byName_le. apply (total String.le). Qed.

Local Instance byName_trans : Transitive byName.
Proof. intros x y z. rewrite !byName_le. apply transitivity. Qed.

(** Sorting the entries of a directory by name gives one list, whatever
    order they are listed in. *)
Lemma merge_sort_byName_unique (l1 l2 : list (string * node)) :
  NoDup (map fst l1) -> l1 ≡ₚ l2 ->
  merge_sort byName l1 = merge_sort byName l2.
Proof.
  intros Hnd Hp.
  apply (StronglySorted_unique_strong byName);
    [|apply StronglySorted_merge_sort; apply _..
     |by rewrite !merge_sort_Permutation].
  intros x y Hx Hy Hxy Hyx. rewrite merge_sort_Permutation in Hx, Hy.
  rewrite <- Hp in Hy.
  assert (Hn : fst x = fst y) by by apply (anti_symm String.le).
  apply list_elem_of_lookup in Hx as [i Hi], Hy as [j Hj].
  assert (i = j) as ->; [|congruence].
  apply (NoDup_lookup (map fst l1) i j (fst x)); [done|..];
    rewrite list_lookup_fmap; [by rewrite Hi|by rewrite Hj, Hn].
Qed.

Lemma sorted_reorder t :
  wfTree t = true -> forall t', reorder t t' -> sorted t = sorted t'.
Proof.
  induction t as [es IH|n Hleaf] using node_ind'; intros Hwf t' Hre.
  - inversion Hre as [|? es1 es2 HF Hp]; subst; [done|].
    apply wfTree_Directory in Hwf as [Hnd Hall].
    cbn [sorted]. f_equal.
    assert (Hmap : map (fun e => (fst e, sorted (snd e))) es
                   = map (fun e => (fst e, sorted (snd e))) es1).
    { clear Hnd Hp Hre. induction HF as [|e e1 es es1 [Hn Hr] _ IHF];
        [done|].
      inversion_clear IH as [|? ? IHe IHes].
      inversion_clear Hall as [|? ? [_ Hwfe] Halles].
      cbn [map]. rewrite Hn, (IHe Hwfe _ Hr). f_equal. by apply IHF. }
    rewrite Hmap. apply merge_sort_byName_unique; [|by rewrite Hp].
    rewrite <- Hmap, map_map. by cbn [fst].
  - inversion Hre; subst; [done|]. by destruct (Hleaf es).
Qed.

End Reordering.

Section SerializeReorder.

Import os walk dir options runtime.

Lemma bind_ext {T A B} (m : M T A) (k k' : A -> M T B) st :
  (forall a st', k a st' = k' a st') -> bind m k st = bind m k' st.
Proof. intros Hk. unfold bind. by destruct (m st) as [[a st']|]. Qed.

Lemma serializeFrom_reorder w w' s o absPath ig :
  wfTree (Tree w absPath) = true ->
  HashFiles w' = HashFiles w ->
  reorder (Tree w absPath) (Tree w' absPath) ->
  serializeFrom w' s o absPath ig = serializeFrom w s o absPath ig.
Proof.
  intros Hwf Hh Hre. unfold serializeFrom, Walk.
  by rewrite Hh, (sorted_reorder _ Hwf _ Hre).
Qed.

Lemma Serialize_reorder w w' s modelPath (st : Store Options) :
  (forall p, wfTree (Tree w p) = true) ->
  Getwd w' = Getwd w -> HashFiles w' = HashFiles w ->
  growslice w' = growslice w ->
  (forall p, reorder (Tree w p) (Tree w' p)) ->
  Serialize w' s modelPath st = Serialize w s modelPath st.
Proof.
  intros Hwf Hg Hh Hgr Hre. unfold Serialize. rewrite Hg, Hgr.
  destruct (filepath.Abs (Getwd w) modelPath) as [absPath|e]; [|done].
  apply bind_ext; intros o st1. apply bind_ext; intros p st2.
  apply bind_ext; intros n st3. apply bind_ext; intros p' st4.
  apply bind_ext; intros ig st5. unfold ret.
  by rewrite (serializeFrom_reorder w w').
Qed.

End SerializeReorder.

(** C3: on every tree and configuration on which [Serialize] succeeds,
    the names of the manifest's entries are strictly ascending under
    byte-wise comparison and pairwise distinct, and each is the
    slash-joined list of the entry names that lead from the root to a
    regular file of the tree ([.] when the root itself is that file), so
    it has no leading slash; and the same manifest is returned when the
    directories of the tree list their entries in any other order. *)
Theorem Serialize_sorted (w : dir.World) (s : dir.Serializer)
  (modelPath : string) (st st' : runtime.Store options.Options)
  (m : dir.Manifest) :
  unixWorld w ->
  dir.Serialize w s modelPath st = Some (Ok m, st') ->
  strictlyAscending (names m)
  /\ NoDup (names m)
  /\ (forall name, name ∈ names m ->
        strings.HasPrefix name "/" = false
        /\ filepath.ToSlash name = name
        /\ exists absPath c,
             filepath.Abs (dir.Getwd w) modelPath = Ok absPath
             /\ fileAt (dir.Tree w absPath) c os.Regular
             /\ Forall (fun e => validName e = true) c
             /\ name = relOf c)
  /\ (forall w',
        dir.Getwd w' = dir.Getwd w ->
        dir.HashFiles w' = dir.HashFiles w ->
        dir.growslice w' = dir.growslice w ->
        (forall p, reorder (dir.Tree w p) (dir.Tree w' p)) ->
        dir.Serialize w' s modelPath st = Some (Ok m, st')).
Proof.
  intros [Hwd Hwf] Hser.
  destruct (Serialize_Ok _ _ _ _ _ _ Hwd Hser)
    as (a & l & o & pre & Ha & Habs & Hopts & Hl & Hfrom & _).
  destruct (serializeFrom_Ok _ _ _ _ _ _ Ha (Hwf _) Hfrom)
    as (cs & fileHashes & Hfiles & _ & _ & Hnd & Hs & _).
  assert (Hinj : NoDup (map dir.Name (map (entryOf fileHashes a) cs))).
  { rewrite entry_names. apply NoDup_fmap_2_strong; [|done].
    intros c1 c2 H1 H2. apply relOf_inj; by apply Hs. }
  assert (Hperm : names m ≡ₚ map relOf cs).
  { unfold names. by rewrite Hfiles, sortSlice_perm, entry_names. }
  split; [|split; [|split]].
  - unfold strictlyAscending, names. rewrite Hfiles.
    by apply sortSlice_strict.
  - rewrite Hperm. by rewrite entry_names in Hinj.
  - intros name Hin. rewrite Hperm in Hin.
    apply list_elem_of_fmap in Hin as (c & -> & Hc).
    destruct (Hs c Hc) as (Hat & Hv & _).
    split; [by apply relOf_no_slash|]. split; [done|].
    by exists (absOf a), c.
  - intros w' Hg Hh Hgr Hre. by rewrite (Serialize_reorder w w').
Qed.

Lemma reorder_reverse es es1 :
  Forall2 (fun e e1 => fst e = fst e1 /\ reorder (snd e) (snd e1)) es es1 ->
  reorder (os.Directory es) (os.Directory (reverse es1)).
Proof.
  intros HF. apply (reorder_dir es es1); [done|].
  symmetry. apply reverse_Permutation.
Qed.

Example reorder_example : reorder Examples.tree Examples.treeReordered.
Proof.
  apply (reorder_reverse _
    [ ("model.bin", os.Regular); ("config.json", os.Regular);
      (".git", os.Directory [("HEAD", os.Regular); ("config", os.Regular)]);
      (".gitignore", os.Regular);
      (".github", os.Directory
         [("workflows", os.Directory [("ci.yml", os.Regular)])]);
      ("subdir", os.Directory
         [("nested", os.Directory [("data.json", os.Regular)]);
          ("layer1.bin", os.Regular); ("layer2.bin", os.Regular)]);
      ("pipe", os.Special os.NamedPipe) ]).
  repeat (constructor; [split; [reflexivity|]|]);
    try apply reorder_same; try constructor.
  - apply (reorder_reverse _ [("config", os.Regular); ("HEAD", os.Regular)]).
    repeat (constructor; [split; [reflexivity|apply reorder_same]|]).
    constructor.
  - apply (reorder_reverse _
      [("layer2.bin", os.Regular); ("layer1.bin", os.Regular);
       ("nested", os.Directory [("data.json", os.Regular)])]).
    repeat (constructor; [split; [reflexivity|apply reorder_same]|]).
    constructor.
Qed.

Lemma Serialize_sorted_witness :
  unixWorld Examples.world
  /\ exists m st',
       dir.Serialize Examples.world Examples.serializer "model"
         (Examples.storeWith [] true false) = Some (Ok m, st')
       /\ strictlyAscending (names m)
       /\ dir.Serialize (Examples.worldOf Examples.treeReordered)
            Examples.serializer "model" (Examples.storeWith [] true false)
          = Some (Ok m, st').
Proof.
  assert (Hw : unixWorld Examples.world).
  { split; [intros d [= <-]|intros p]; vm_compute; reflexivity. }
  split; [exact Hw|].
  destruct (dir.Serialize Examples.world Examples.serializer "model"
              (Examples.storeWith [] true false))
    as [[[m|e] st']|] eqn:Hr.
  - exists m, st'. split; [reflexivity|].
    destruct (Serialize_sorted _ _ _ _ _ _ Hw Hr) as (Hasc & _ & _ & Hre).
    split; [exact Hasc|].
    apply Hre; [reflexivity..|]. intros p. exact reorder_example.
  - vm_compute in Hr. discriminate Hr.
  - vm_compute in Hr. discriminate Hr.
Defined.

Example Serialize_example_names :
  (fun r => match r with
            | (Ok m, _) => Ok (dir.ModelName m, names m)
            | (Err e, _) => Err e
            end)
    <$> dir.Serialize Examples.world Examples.serializer "model"
          (Examples.storeWith [] true false)
  = Some (Ok ("model",
              ["config.json"; "model.bin"; "subdir/layer1.bin";
               "subdir/layer2.bin"; "subdir/nested/data.json"])).
Proof. vm_compute. reflexivity. Qed.


Section IgnoreFacts.

Import os walk dir options runtime.

Lemma ignoreLoop_false relPath root ig :
  ignoreLoop relPath root ig = false ->
  forall x checkPath, x ∈ ig -> checkPathOf root x = Some checkPath ->
    relPath ≠ checkPath
    /\ strings.HasPrefix relPath (checkPath +:+ "/") = false.
Proof.
  induction ig as [|y ig IH]; intros Hf x cp Hin Hcp;
    [by apply elem_of_nil in Hin|].
  cbn [ignoreLoop] in Hf.
  apply elem_of_cons in Hin as [->|Hin].
  - rewrite Hcp in Hf.
    destruct (bool_decide (relPath = cp)) eqn:Heq; [done|].
    apply bool_decide_eq_false in Heq.
    destruct (strings.HasPrefix relPath (cp +:+ "/")); [done|]. done.
  - apply (IH ltac:(destruct (checkPathOf root y) as [cp'|]; [|done];
                      by destruct (bool_decide _ || _)) x); done.
Qed.

(** A pattern on which the loop of [shouldIgnore] continues has no
    effect, wherever it stands in the list. *)
Lemma ignoreLoop_skip relPath root l1 x l2 :
  checkPathOf root x = None ->
  ignoreLoop relPath root (l1 ++ x :: l2) = ignoreLoop relPath root (l1 ++ l2).
Proof.
  intros Hx. induction l1 as [|y l1 IH]; cbn [app ignoreLoop].
  - by rewrite Hx.
  - by rewrite IH.
Qed.

(** Each git path that [Serialize] adds is checked as the entry of
    that name directly below the root. *)
Lemma checkPathOf_git a g :
  Forall (fun e => validName e = true) a -> g ∈ gitPaths ->
  checkPathOf (absOf a) (filepath.Join [absOf a; g]) = Some g.
Proof.
  intros Ha Hg.
  assert (Hv : validName g = true /\ strings.HasPrefix g ".." = false).
  { unfold gitPaths in Hg. repeat apply elem_of_cons in Hg as [->|Hg];
      [by vm_compute..|by apply elem_of_nil in Hg]. }
  destruct Hv as [Hv Hdots]. unfold checkPathOf.
  rewrite Join_absOf by done.
  change (filepath.ToSlash (absOf (a ++ [g]))) with (absOf (a ++ [g])).
  change (filepath.IsAbs (absOf (a ++ [g]))) with true. cbv iota.
  rewrite Rel_under by (done || by repeat constructor).
  change (relOf [g]) with g. by rewrite Hdots.
Qed.

End IgnoreFacts.

(** C5: with the ignore-git-paths flag on, no entry of the manifest is
    named [.git], [.gitignore], [.gitattributes] or [.github], and none
    lies beneath an entry of one of these names at the root; with the
    flag off, every regular file of the tree that the caller's own
    specifiers leave in (they match neither the file nor a directory on
    the way to it) is an entry of the manifest, whatever its name. *)
Theorem Serialize_gitPaths (w : dir.World) (s : dir.Serializer)
  (modelPath : string) (st st' : runtime.Store options.Options)
  (m : dir.Manifest) (l : runtime.loc) (o : options.Options) :
  unixWorld w ->
  dir.Serialize w s modelPath st = Some (Ok m, st') ->
  dir.opts s = Some l -> runtime.Structs st !! l = Some o ->
  (options.IgnoreGitPaths o = true ->
   forall name g,
     name ∈ names m ->
     g ∈ [".git"; ".gitignore"; ".gitattributes"; ".github"] ->
     name ≠ g /\ strings.HasPrefix name (g +:+ "/") = false)
  /\ (options.IgnoreGitPaths o = false ->
      validSlice st (options.IgnorePaths o) ->
      forall absPath c,
        filepath.Abs (dir.Getwd w) modelPath = Ok absPath ->
        fileAt (dir.Tree w absPath) c os.Regular ->
        (forall c1 c2, c = c1 ++ c2 ->
           dir.ignoreLoop (relOf c1) absPath
             (runtime.elems st (options.IgnorePaths o)) = false) ->
        relOf c ∈ names m).
Proof.
  intros [Hwd Hwf] Hser Hopts Hl.
  destruct (Serialize_Ok _ _ _ _ _ _ Hwd Hser)
    as (a & l' & o' & pre & Ha & Habs & Hopts' & Hl' & Hfrom & _ & Hpre).
  assert (l' = l) as -> by congruence.
  assert (o' = o) as -> by congruence.
  destruct (serializeFrom_Ok _ _ _ _ _ _ Ha (Hwf _) Hfrom)
    as (cs & fileHashes & Hfiles & _ & _ & Hnd & Hs & Hc).
  assert (Hperm : names m ≡ₚ map relOf cs).
  { unfold names. by rewrite Hfiles, sortSlice_perm, entry_names. }
  split.
  - intros Hgit name g Hin Hg. rewrite Hperm in Hin.
    apply list_elem_of_fmap in Hin as (c & -> & Hin).
    destruct (Hs c Hin) as (_ & _ & Hig).
    apply (ignoreLoop_false _ _ _ Hig (filepath.Join [absOf a; g]));
      [|by apply checkPathOf_git].
    apply elem_of_app. right. unfold gitIgnores. rewrite Hgit.
    apply list_elem_of_fmap. by exists g.
  - intros Hgit Hvalid absPath c Habs' Hat Hleft.
    assert (absPath = absOf a) as -> by congruence.
    rewrite Hperm. apply list_elem_of_fmap. exists c. split; [done|].
    apply Hc; [done|]. intros c1 c2 Hsplit.
    unfold gitIgnores. rewrite Hgit, app_nil_r, (Hpre Hvalid).
    by apply (Hleft c1 c2).
Qed.

Lemma Serialize_gitPaths_witness :
  unixWorld Examples.world
  /\ exists m st',
       dir.Serialize Examples.world Examples.serializer "model"
         (Examples.storeWith [] true false) = Some (Ok m, st')
       /\ forall name g,
            name ∈ names m ->
            g ∈ [".git"; ".gitignore"; ".gitattributes"; ".github"] ->
            name ≠ g /\ strings.HasPrefix name (g +:+ "/") = false.
Proof.
  assert (Hw : unixWorld Examples.world).
  { split; [intros d [= <-]|intros p]; vm_compute; reflexivity. }
  split; [exact Hw|].
  destruct (dir.Serialize Examples.world Examples.serializer "model"
              (Examples.storeWith [] true false))
    as [[[m|e] st']|] eqn:Hr.
  - exists m, st'. split; [reflexivity|].
    apply (proj1 (Serialize_gitPaths _ _ _ _ _ _ 0%nat _ Hw Hr
                    eq_refl eq_refl)).
    reflexivity.
  - vm_compute in Hr. discriminate Hr.
  - vm_compute in Hr. discriminate Hr.
Defined.

Example Serialize_example_git_off :
  (fun r => match r with
            | (Ok m, _) => Ok (names m)
            | (Err e, _) => Err e
            end)
    <$> dir.Serialize Examples.world Examples.serializer "model"
          (Examples.storeWith [] false false)
  = Some (Ok [".git/HEAD"; ".git/config"; ".github/workflows/ci.yml";
              ".gitignore"; "config.json"; "model.bin";
              "subdir/layer1.bin"; "subdir/layer2.bin";
              "subdir/nested/data.json"]).
Proof. vm_compute. reflexivity. Qed.


Section TracedWalk.

Import os walk dir options runtime.

Lemma traced_fst {S} (fn : WalkFunc S) path info err st log :
  traced fn path info err (st, log)
  = (fst (fn path info err st),
     (snd (fn path info err st), log ++ [(path, info)])).
Proof. unfold traced. cbn [fst snd]. by destruct (fn path info err st). Qed.

(** Recording the calls does not change what the walk returns. *)
Lemma walk_traced {S} (fn : WalkFunc S) n :
  forall path st log,
    fst (walk (traced fn) path n (st, log)) = fst (walk fn path n st)
    /\ fst (snd (walk (traced fn) path n (st, log)))
       = snd (walk fn path n st).
Proof.
  induction n as [es IH|n Hleaf] using node_ind'; intros path st log.
  - rewrite !walk_Directory, traced_fst.
    destruct (fn path (infoOf (Directory es)) None st) as [[e|] st1];
      cbn [fst snd]; [done|].
    generalize (log ++ [(path, infoOf (Directory es))]). clear log.
    revert st1.
    induction es as [|[name child] es IHes]; intros st1 log; [done|].
    inversion_clear IH as [|? ? IHc IHes'].
    rewrite !walkLoop_cons.
    specialize (IHc (filepath.Join [path; name]) st1 log).
    cbn [snd] in IHc.
    destruct (walk (traced fn) _ child (st1, log)) as [e' [st' log']].
    destruct (walk fn _ child st1) as [e'' st''].
    cbn [fst snd] in IHc. destruct IHc as [-> ->].
    destruct e'' as [e|]; [|by apply IHes].
    destruct (propagates child || negb (bool_decide (e = SkipDir)));
      [done|by apply IHes].
  - destruct n; try (by cbn [walk]; rewrite traced_fst).
    by destruct (Hleaf entries).
Qed.

Variables (s : Serializer) (o : Options) (root : string) (ig : list string).
Hypothesis Hdeny : AllowSymlinks o = false.

Local Abbreviation fn := (walkFn s o root ig).
Local Abbreviation symErr :=
  (fun p => errorString ("symlink not allowed: " +:+ p +:+
                         " (use AllowSymlinks option)")).

Lemma fn_deny path info acc :
  isSymlink info = true ->
  fn path info None acc = (Some (symErr path), acc).
Proof.
  unfold isSymlink, walkFn. intros ->. by rewrite Hdeny.
Qed.

(** With symbolic links disallowed, a call of the callback on a link is
    the last one, and its error is what the walk returns. *)
Lemma walk_traced_symlink n :
  forall path acc log,
    exists new,
      snd (snd (walk (traced fn) path n (acc, log))) = log ++ new
      /\ forall p i, (p, i) ∈ new -> isSymlink i = true ->
           fst (walk (traced fn) path n (acc, log)) = Some (symErr p).
Proof.
  induction n as [es IH|n Hleaf] using node_ind'; intros path acc log.
  - rewrite walk_Directory, traced_fst.
    destruct (fn path (infoOf (Directory es)) None acc) as [[e|] acc1];
      cbn [fst snd].
    { exists [(path, infoOf (Directory es))]. split; [done|].
      by intros p i [= -> ->]%list_elem_of_singleton. }
    assert (Hloop : forall acc log,
      exists new,
        snd (snd (walkLoop (traced fn) path es (acc, log))) = log ++ new
        /\ forall p i, (p, i) ∈ new -> isSymlink i = true ->
             fst (walkLoop (traced fn) path es (acc, log))
             = Some (symErr p)).
    { clear acc acc1 log.
      induction es as [|[name child] es IHes]; intros acc log.
      { exists []. split; [by rewrite app_nil_r|].
        by intros p i ?%elem_of_nil. }
      inversion_clear IH as [|? ? IHc IHes']. cbn [snd] in IHc.
      rewrite walkLoop_cons.
      destruct (IHc (filepath.Join [path; name]) acc log)
        as (new1 & Hlog1 & Hsym1).
      destruct (walk (traced fn) _ child (acc, log))
        as [e' [acc' log']] eqn:Hw.
      cbn [fst snd] in Hlog1, Hsym1. subst log'.
      assert (Hcont : (forall p i, (p, i) ∈ new1 -> isSymlink i = true ->
                         e' = Some (symErr p)) ->
                      (e' = None \/ e' = Some SkipDir) ->
                      exists new,
                        snd (snd (walkLoop (traced fn) path es
                                    (acc', log ++ new1))) = log ++ new
                        /\ forall p i, (p, i) ∈ new -> isSymlink i = true ->
                             fst (walkLoop (traced fn) path es
                                    (acc', log ++ new1)) = Some (symErr p)).
      { intros Hs1 He'.
        destruct (IHes IHes' acc' (log ++ new1)) as (new2 & Hlog2 & Hsym2).
        exists (new1 ++ new2). split; [by rewrite Hlog2, app_assoc|].
        intros p i [Hin|Hin]%elem_of_app Hi; [|by apply (Hsym2 p i)].
        specialize (Hs1 p i Hin Hi). by destruct He' as [->| ->]. }
      destruct e' as [e|]; [|by apply Hcont; [|left]].
      destruct (propagates child || negb (bool_decide (e = SkipDir)))
        eqn:Hp.
      - exists new1. by split.
      - apply Hcont; [done|]. right.
        apply orb_false_iff in Hp as [_ Hp].
        apply negb_false_iff, bool_decide_eq_true in Hp. by subst. }
    destruct (Hloop acc1 (log ++ [(path, infoOf (Directory es))]))
      as (new & Hlog & Hsym).
    exists ((path, infoOf (Directory es)) :: new).
    split; [by rewrite Hlog, <- app_assoc|].
    intros p i [Heq|Hin]%elem_of_cons Hi; [|by apply (Hsym p i)].
    injection Heq as -> ->. by vm_compute in Hi.
  - destruct n as [|es|msg| |k|msg]; [|by destruct (Hleaf es)| | | |];
      cbn [walk]; rewrite traced_fst; cbn [fst snd];
      eexists [_]; (split; [done|]);
      intros p i [= -> ->]%list_elem_of_singleton Hi; try done.
    + by rewrite fn_deny.
    + by destruct k.
Qed.

End TracedWalk.

(** C6: with the allow-symlinks flag off, if the walk that [Serialize]
    performs calls its callback on a symbolic link at [p], then
    [Serialize] returns no manifest but the error
    [failed to walk directory: symlink not allowed: p (use AllowSymlinks
    option)]. *)
Theorem Serialize_symlink (w : dir.World) (s : dir.Serializer)
  (modelPath : string) (st : runtime.Store options.Options)
  (l : runtime.loc) (o : options.Options) (absPath p : string)
  (info : os.FileInfo) :
  dir.opts s = Some l -> runtime.Structs st !! l = Some o ->
  options.AllowSymlinks o = false ->
  validSlice st (options.IgnorePaths o) ->
  filepath.Abs (dir.Getwd w) modelPath = Ok absPath ->
  (p, info) ∈ visits (dir.Tree w absPath) absPath
                (dir.walkFn s o absPath (effectiveIgnore st o absPath)) [] ->
  isSymlink info = true ->
  exists st',
    dir.Serialize w s modelPath st = Some (Err (symlinkError p), st').
Proof.
  intros Hopts Hl Hdeny Hvalid Habs Hvis Hsym.
  destruct (Serialize_run _ _ _ _ _ _ _ Habs Hopts Hl)
    as (pre & st' & Hrun & _ & _ & Hpre).
  exists st'. rewrite Hrun, (Hpre Hvalid). f_equal. f_equal.
  fold (effectiveIgnore st o absPath).
  unfold visits, walk.Walk in Hvis. unfold dir.serializeFrom, walk.Walk.
  set (fn := dir.walkFn s o absPath (effectiveIgnore st o absPath)) in *.
  destruct (walk_traced_symlink s o absPath (effectiveIgnore st o absPath)
              Hdeny (os.sorted (dir.Tree w absPath)) absPath [] [])
    as (new & Hlog & Hnew).
  destruct (walk_traced fn (os.sorted (dir.Tree w absPath)) absPath [] [])
    as [Hfst _].
  fold fn in Hlog, Hnew.
  destruct (walk.walk (traced fn) absPath _ ([], [])) as [e' [acc' log']].
  destruct (walk.walk fn absPath _ []) as [e acc].
  cbn [fst snd] in *. subst e' log'.
  assert (Hin : (p, info) ∈ new).
  { destruct e as [e|]; [|done].
    destruct (decide (e = SkipDir)); [done|].
    by destruct (decide (e = SkipAll)). }
  rewrite (Hnew p info Hin Hsym). by cbn.
Qed.

Lemma Serialize_symlink_witness :
  ("/home/user/model/latest.bin", walk.infoOf os.Symlink)
    ∈ visits Examples.treeWithLinks "/home/user/model"
        (dir.walkFn Examples.serializer (Examples.optionsOf [] true false)
           "/home/user/model"
           (effectiveIgnore (Examples.storeWith [] true false)
              (Examples.optionsOf [] true false) "/home/user/model")) []
  /\ exists st',
       dir.Serialize (Examples.worldOf Examples.treeWithLinks)
         Examples.serializer "model" (Examples.storeWith [] true false)
       = Some (Err (symlinkError "/home/user/model/latest.bin"), st').
Proof.
  assert (Hvis : ("/home/user/model/latest.bin", walk.infoOf os.Symlink)
    ∈ visits Examples.treeWithLinks "/home/user/model"
        (dir.walkFn Examples.serializer (Examples.optionsOf [] true false)
           "/home/user/model"
           (effectiveIgnore (Examples.storeWith [] true false)
              (Examples.optionsOf [] true false) "/home/user/model")) []).
  { vm_compute. apply list_elem_of_further, list_elem_of_here. }
  split; [exact Hvis|].
  apply (Serialize_symlink (Examples.worldOf Examples.treeWithLinks)
           Examples.serializer "model" (Examples.storeWith [] true false)
           0%nat (Examples.optionsOf [] true false) "/home/user/model"
           "/home/user/model/latest.bin" (walk.infoOf os.Symlink)
           eq_refl eq_refl eq_refl).
  - exists []. split; [reflexivity|]. cbn. lia.
  - reflexivity.
  - exact Hvis.
  - reflexivity.
Defined.


Section SpecifierFacts.

Import strings filepath dir.

Lemma Clean_abs_elems p :
  IsAbs p = true ->
  Forall (fun e => validName e = true) (cleanElems true p)
  /\ Clean p = absOf (cleanElems true p).
Proof.
  intros Hp. split.
  - unfold cleanElems. apply Forall_rev.
    apply fold_cleanStep_rooted_valid; [apply Split_Forall_noSep|done].
  - unfold Clean. rewrite decide_False by by apply IsAbs_nonempty.
    unfold IsAbs in Hp. by rewrite Hp.
Qed.

Lemma ups_dotdot n : HasPrefix (ups (S n)) ".." = true.
Proof. rewrite <- (append_nil_r (ups (S n))). apply ups_prefix. Qed.

(** An absolute specifier outside the root is one on which the loop of
    [shouldIgnore] continues. *)
Lemma checkPathOf_outside root ignore :
  IsAbs root = true -> IsAbs ignore = true -> outsideRoot root ignore ->
  checkPathOf root ignore = None.
Proof.
  intros Hr Hi Hout. unfold checkPathOf.
  change (ToSlash ignore) with ignore. rewrite Hi.
  destruct (Clean_abs_elems root Hr) as [Ha Hca].
  destruct (Clean_abs_elems ignore Hi) as [Hb Hcb].
  rewrite (Rel_cleaned _ _ _ _ Ha Hb Hca Hcb).
  destruct (dropCommon (cleanElems true root) (cleanElems true ignore))
    as [[|x bs] ts] eqn:Hd.
  - destruct Hout.
    destruct (dropCommon_nil_l (cleanElems true root) (cleanElems true ignore))
      as (r & Hr' & _); [by rewrite Hd|].
    by exists r.
  - destruct ts as [|t ts]; cbn [length].
    + by rewrite ups_dotdot.
    + by rewrite ups_prefix.
Qed.

(** With a single specifier that is checked as [checkPath], a path is
    ignored exactly when its root-relative form equals [checkPath] or
    starts with [checkPath] and a slash. *)
Lemma shouldIgnore_single s path root ignore relPath checkPath :
  Rel root path = Ok relPath ->
  checkPathOf root ignore = Some checkPath ->
  shouldIgnore s path root [ignore]
  = Ok (bool_decide (relPath = checkPath)
        || HasPrefix relPath (checkPath +:+ "/")).
Proof.
  intros Hrel Hcp. unfold shouldIgnore. rewrite Hrel.
  change (ToSlash relPath) with relPath. cbn [ignoreLoop]. rewrite Hcp.
  by destruct (bool_decide _ || _).
Qed.

Lemma serializeFrom_ext w s s' o o' absPath ig :
  options.AllowSymlinks o = options.AllowSymlinks o' ->
  serializeFrom w s o absPath ig = serializeFrom w s' o' absPath ig.
Proof.
  intros Ho. unfold serializeFrom, walkFn. by rewrite Ho.
Qed.

(** [New(nil)] allocates the default options. *)
Lemma New_nil (st : runtime.Store options.Options) :
  exists l0 st1 o0,
    New None st = Some ({| opts := Some l0 |}, st1)
    /\ runtime.Structs st1 !! l0 = Some o0
    /\ runtime.len (options.IgnorePaths o0) = 0%nat
    /\ options.IgnoreGitPaths o0 = true
    /\ options.AllowSymlinks o0 = false
    /\ frame st st1.
Proof.
  unfold New, options.Default, runtime.bind, runtime.make, runtime.new,
    runtime.ret.
  eexists _, _, _. split; [reflexivity|]. cbn [runtime.Structs].
  split; [apply lookup_insert_eq|]. repeat split; cbn [runtime.Structs runtime.Arrays].
  - intros l v Hl. rewrite lookup_insert_ne; [done|].
    intros <-. by rewrite fresh_struct_None in Hl.
  - intros l a Hl. rewrite lookup_insert_ne; [done|].
    intros <-. by rewrite fresh_array_None in Hl.
Qed.

End SpecifierFacts.

(** C4 (the code departs from the claim): for the root [/m] and the
    absolute specifier [/m/..cache], which names a directory inside the
    root, the candidate [/m/..cache/x] has the root-relative path
    [..cache/x], which starts with the specifier's root-relative path
    [..cache] and a slash; yet [shouldIgnore] answers that it is not
    ignored, because the specifier's relative path starts with two
    dots. *)
Theorem shouldIgnore_dotdot_entry :
  filepath.Rel "/m" "/m/..cache/x" = Ok "..cache/x"
  /\ filepath.Rel "/m" "/m/..cache" = Ok "..cache"
  /\ strings.HasPrefix "..cache/x" ("..cache" +:+ "/") = true
  /\ dir.checkPathOf "/m" "/m/..cache" = None
  /\ dir.shouldIgnore {| dir.opts := None |} "/m/..cache/x" "/m" ["/m/..cache"]
     = Ok false
  /\ dir.shouldIgnore {| dir.opts := None |} "/m/..cache/x" "/m" ["..cache"]
     = Ok true.
Proof. vm_compute. repeat split; reflexivity. Qed.

(** C7: an absolute specifier that lies outside the absolute tree root is
    skipped: with or without it in the ignore list, [shouldIgnore] gives
    the same answer for every candidate, and alone it ignores nothing. *)
Theorem shouldIgnore_outside (s : dir.Serializer)
  (path root ignore : string) (before after : list string) :
  filepath.IsAbs root = true -> filepath.IsAbs ignore = true ->
  outsideRoot root ignore ->
  dir.shouldIgnore s path root (before ++ ignore :: after)
  = dir.shouldIgnore s path root (before ++ after)
  /\ (forall relPath, filepath.Rel root path = Ok relPath ->
        dir.shouldIgnore s path root [ignore] = Ok false).
Proof.
  intros Hr Hi Hout.
  pose proof (checkPathOf_outside root ignore Hr Hi Hout) as Hskip.
  split.
  - unfold dir.shouldIgnore.
    destruct (filepath.Rel root path); [|done].
    by rewrite ignoreLoop_skip.
  - intros relPath Hrel. unfold dir.shouldIgnore. rewrite Hrel.
    cbn [dir.ignoreLoop]. by rewrite Hskip.
Qed.

Lemma shouldIgnore_outside_witness :
  outsideRoot "/home/user/model" "/etc/../home/user/other"
  /\ dir.shouldIgnore Examples.serializer "/home/user/model/other/w.bin"
       "/home/user/model" ["x"; "/etc/../home/user/other"; "other"]
     = dir.shouldIgnore Examples.serializer "/home/user/model/other/w.bin"
         "/home/user/model" ["x"; "other"].
Proof.
  assert (Hout : outsideRoot "/home/user/model" "/etc/../home/user/other").
  { intros [k Hk]. vm_compute in Hk. discriminate Hk. }
  split; [exact Hout|].
  exact (proj1 (shouldIgnore_outside Examples.serializer
                  "/home/user/model/other/w.bin" "/home/user/model"
                  "/etc/../home/user/other" ["x"] ["other"]
                  eq_refl eq_refl Hout)).
Defined.

(** C8 (the code departs from the claim): with the allow-symlinks flag
    on, [Serialize] succeeds on a tree that holds a link to a regular
    file and a link to a directory, but the manifest has an entry for
    the regular file alone: neither link contributes an entry, and the
    walk visits nothing beneath the link to a directory. *)
Theorem Serialize_symlinks_allowed :
  (fun r => match r with
            | (Ok m, _) => Ok (names m)
            | (Err e, _) => Err e
            end)
    <$> dir.Serialize (Examples.worldOf Examples.treeWithLinks)
          Examples.serializer "model" (Examples.storeWith [] true true)
  = Some (Ok ["weights.bin"])
  /\ map fst (visits Examples.treeWithLinks "/home/user/model"
                (dir.walkFn Examples.serializer
                   (Examples.optionsOf [] true true) "/home/user/model" [])
                [])
     = ["/home/user/model"; "/home/user/model/latest.bin";
        "/home/user/model/shared"; "/home/user/model/weights.bin"].
Proof. vm_compute. split; reflexivity. Qed.

(** C9: [New(nil)] gives a serializer that behaves like one made from
    any options with no ignore paths, git paths ignored and symbolic
    links disallowed: on every path, in every world, [Serialize] returns
    the same manifest or the same error for both. *)
Theorem New_nil_default (w : dir.World) (modelPath : string)
  (st : runtime.Store options.Options) (p : runtime.loc)
  (o : options.Options) :
  runtime.Structs st !! p = Some o ->
  runtime.len (options.IgnorePaths o) = 0%nat ->
  options.IgnoreGitPaths o = true ->
  options.AllowSymlinks o = false ->
  fst <$> (let* s := dir.New None in dir.Serialize w s modelPath) st
  = fst <$> (let* s := dir.New (Some p) in dir.Serialize w s modelPath) st.
Proof.
  intros Hp Hlen Hgit Hsym.
  destruct (New_nil st) as (l0 & st1 & o0 & Hnew & Hl0 & Hlen0 & Hgit0 & Hsym0 & _).
  unfold runtime.bind. rewrite Hnew. cbn [dir.New runtime.ret].
  destruct (filepath.Abs (dir.Getwd w) modelPath) as [absPath|e] eqn:Habs.
  - destruct (Serialize_run w {| dir.opts := Some l0 |} modelPath st1 absPath
                l0 o0 Habs eq_refl Hl0) as (pre1 & st1' & -> & _ & Hl1 & _).
    destruct (Serialize_run w {| dir.opts := Some p |} modelPath st absPath
                p o Habs eq_refl Hp) as (pre2 & st2' & -> & _ & Hl2 & _).
    rewrite Hlen in Hl2. rewrite Hlen0 in Hl1.
    apply nil_length_inv in Hl1, Hl2. subst pre1 pre2.
    cbn [fmap option_fmap option_map fst]. f_equal.
    unfold gitIgnores. rewrite Hgit, Hgit0.
    apply serializeFrom_ext. by rewrite Hsym, Hsym0.
  - unfold dir.Serialize. by rewrite Habs.
Qed.

Lemma New_nil_default_witness :
  fst <$> (let* s := dir.New None in dir.Serialize Examples.world s "model")
            (Examples.storeWith [] true false)
  = fst <$> (let* s := dir.New (Some 0%nat) in
             dir.Serialize Examples.world s "model")
              (Examples.storeWith [] true false).
Proof.
  exact (New_nil_default Examples.world "model"
           (Examples.storeWith [] true false) 0%nat
           (Examples.optionsOf [] true false) eq_refl eq_refl eq_refl eq_refl).
Defined.

(** C10: [Serialize] leaves the caller's store as it found it: every
    struct and every array allocated before the call is unchanged after
    it, so the caller's options are the same value and their ignore
    paths hold the same elements; the git paths are appended to arrays
    allocated during the call. *)
Theorem Serialize_frame (w : dir.World) (s : dir.Serializer)
  (modelPath : string) (st st' : runtime.Store options.Options)
  (r : Result dir.Manifest) :
  dir.Serialize w s modelPath st = Some (r, st') ->
  frame st st'
  /\ (forall l o,
        dir.opts s = Some l -> runtime.Structs st !! l = Some o ->
        runtime.Structs st' !! l = Some o
        /\ (validSlice st (options.IgnorePaths o) ->
            runtime.elems st' (options.IgnorePaths o)
            = runtime.elems st (options.IgnorePaths o))).
Proof.
  intros Hser.
  assert (Hfr : frame st st').
  { destruct (Serialize_inv _ _ _ _ _ _ Hser)
      as [(e & _ & _ & ->)|(absPath & l & o & Habs & Hopts & Hl)];
      [apply frame_refl|].
    destruct (Serialize_run _ _ _ _ _ _ _ Habs Hopts Hl)
      as (pre & st'' & Hrun & Hfr & _).
    rewrite Hrun in Hser. by injection Hser as _ <-. }
  split; [done|]. intros l o Hopts Hl. destruct Hfr as [Hs Ha].
  split; [by apply Hs|].
  unfold validSlice, runtime.elems.
  destruct (runtime.base (options.IgnorePaths o)) as [l0|]; [|done].
  intros (a & Hl0 & _). by rewrite (Ha _ _ Hl0), Hl0.
Qed.

Lemma Serialize_frame_witness :
  exists r st',
    dir.Serialize Examples.world Examples.serializer "model"
      (Examples.storeWith ["subdir/nested"] true false) = Some (r, st')
    /\ runtime.elems st'
         (options.IgnorePaths (Examples.optionsOf ["subdir/nested"] true false))
       = ["subdir/nested"].
Proof.
  destruct (dir.Serialize Examples.world Examples.serializer "model"
              (Examples.storeWith ["subdir/nested"] true false))
    as [[r st']|] eqn:Hr.
  - exists r, st'. split; [reflexivity|].
    destruct (Serialize_frame _ _ _ _ _ _ Hr) as [_ Hopts].
    destruct (Hopts 0%nat (Examples.optionsOf ["subdir/nested"] true false)
                eq_refl eq_refl) as [_ Hel].
    rewrite Hel; [reflexivity|].
    exists ["subdir/nested"]. split; [reflexivity|]. cbn. lia.
  - vm_compute in Hr. discriminate Hr.
Defined.


(** * Further properties of the code *)

Section HexMore.

Import hex.

Lemma DecodeString_isHexString s :
  isHexString s = true <-> exists bytes, DecodeString s = Ok bytes.
Proof.
  revert s. fix IH 1. intros [|p [|q rest]].
  - split; [by exists []|done].
  - split; [done|]. intros [bytes H]. cbn [DecodeString] in H.
    by destruct (fromHexChar p).
  - cbn [isHexString DecodeString].
    destruct (fromHexChar p) as [a|]; [|split; [done|by intros [? ?]]].
    destruct (fromHexChar q) as [b|]; [|split; [done|by intros [? ?]]].
    rewrite (IH rest). split.
    + intros [bytes ->]. by eexists.
    + intros [bytes H]. destruct (DecodeString rest); [by eexists|done].
Qed.

End HexMore.

Section RootDigestMore.

Import dir.

Lemma decodedDigest_Some file bytes :
  decodedDigest file = Some bytes <->
  exists hashValue,
    Digest file !! "sha256" = Some hashValue
    /\ hex.DecodeString hashValue = Ok bytes.
Proof.
  unfold decodedDigest. split.
  - destruct (Digest file !! "sha256") as [hv|]; [|done].
    destruct (hex.DecodeString hv) eqn:Hd; [|done].
    intros [= <-]. by exists hv.
  - intros (hv & -> & ->). done.
Qed.

Lemma writeHashes_good good rest d0 pre hashes :
  Forall2 (fun file bytes => decodedDigest file = Some bytes) good hashes ->
  writeHashes (sha256.Write d0 pre) (good ++ rest)
  = writeHashes (sha256.Write d0 (pre ++ concat hashes)) rest.
Proof.
  intros H. revert pre.
  induction H as [|file bytes good hashes Hd _ IH]; intros pre.
  - by rewrite app_nil_r.
  - apply decodedDigest_Some in Hd as (hv & Hk & Hx).
    cbn [app writeHashes concat]. rewrite Hk, Hx, Write_app, IH.
    by rewrite app_assoc.
Qed.

End RootDigestMore.

(** X1: [ComputeRootDigest] stops at the first entry that lacks a digest
    under the key [sha256] and reports it by name, whatever follows. *)
Theorem ComputeRootDigest_missing (m : dir.Manifest)
  (good rest : list dir.ResourceDescriptor) (bad : dir.ResourceDescriptor)
  (hashes : list (list Z)) :
  dir.Files m = good ++ bad :: rest ->
  Forall2 (fun file bytes => decodedDigest file = Some bytes) good hashes ->
  dir.Digest bad !! "sha256" = None ->
  dir.ComputeRootDigest m
  = Err (errorString ("sha256 digest not found for " +:+ dir.Name bad)).
Proof.
  intros Hfiles Hgood Hbad. unfold dir.ComputeRootDigest. rewrite Hfiles.
  change sha256.New with (sha256.Write sha256.New []).
  rewrite (writeHashes_good _ _ _ _ _ Hgood).
  cbn [dir.writeHashes]. by rewrite Hbad.
Qed.

Lemma ComputeRootDigest_missing_witness :
  dir.ComputeRootDigest
    {| dir.ModelName := "m";
       dir.Files := [ {| dir.Name := "a"; dir.Digest := {[ "sha256" := "00" ]} |};
                      {| dir.Name := "b"; dir.Digest := {[ "sha512" := "00" ]} |};
                      {| dir.Name := "c"; dir.Digest := ∅ |} ] |}
  = Err (errorString "sha256 digest not found for b").
Proof.
  apply (ComputeRootDigest_missing _
           [ {| dir.Name := "a"; dir.Digest := {[ "sha256" := "00" ]} |} ]
           [ {| dir.Name := "c"; dir.Digest := ∅ |} ]
           {| dir.Name := "b"; dir.Digest := {[ "sha512" := "00" ]} |}
           [[0]]).
  - reflexivity.
  - repeat constructor.
  - reflexivity.
Defined.

(** X2: [ComputeRootDigest] stops at the first entry whose sha256 digest
    is not valid hexadecimal and returns the error of [hex.DecodeString]
    wrapped with the entry's name. *)
Theorem ComputeRootDigest_malformed (m : dir.Manifest)
  (good rest : list dir.ResourceDescriptor) (bad : dir.ResourceDescriptor)
  (hashes : list (list Z)) (hashValue : string) (err : error) :
  dir.Files m = good ++ bad :: rest ->
  Forall2 (fun file bytes => decodedDigest file = Some bytes) good hashes ->
  dir.Digest bad !! "sha256" = Some hashValue ->
  hex.DecodeString hashValue = Err err ->
  dir.ComputeRootDigest m
  = Err (wrapError ("failed to decode hash for " +:+ dir.Name bad +:+ ": ") err).
Proof.
  intros Hfiles Hgood Hbad Herr. unfold dir.ComputeRootDigest. rewrite Hfiles.
  change sha256.New with (sha256.Write sha256.New []).
  rewrite (writeHashes_good _ _ _ _ _ Hgood).
  cbn [dir.writeHashes]. by rewrite Hbad, Herr.
Qed.

Lemma ComputeRootDigest_malformed_witness :
  dir.ComputeRootDigest
    {| dir.ModelName := "m";
       dir.Files := [ {| dir.Name := "a"; dir.Digest := {[ "sha256" := "00" ]} |};
                      {| dir.Name := "b"; dir.Digest := {[ "sha256" := "abc" ]} |} ] |}
  = Err (wrapError "failed to decode hash for b: " ErrLength).
Proof.
  apply (ComputeRootDigest_malformed _
           [ {| dir.Name := "a"; dir.Digest := {[ "sha256" := "00" ]} |} ] []
           {| dir.Name := "b"; dir.Digest := {[ "sha256" := "abc" ]} |}
           [[0]] "abc" ErrLength).
  - reflexivity.
  - repeat constructor.
  - reflexivity.
  - reflexivity.
Defined.

(** X3: [ComputeRootDigest] succeeds exactly on the manifests all of
    whose entries have, under the key [sha256], an even number of
    hexadecimal digits (of either case). *)
Theorem ComputeRootDigest_succeeds_iff (m : dir.Manifest) :
  (exists rootDigest, dir.ComputeRootDigest m = Ok rootDigest)
  <-> Forall (fun file =>
                exists hashValue,
                  dir.Digest file !! "sha256" = Some hashValue
                  /\ isHexString hashValue = true) (dir.Files m).
Proof.
  unfold dir.ComputeRootDigest.
  assert (H : forall files d,
    (exists d', dir.writeHashes d files = Ok d')
    <-> Forall (fun file =>
                  exists hashValue,
                    dir.Digest file !! "sha256" = Some hashValue
                    /\ isHexString hashValue = true) files).
  { induction files as [|file files IH]; intros d.
    - split; [by constructor|by exists d].
    - cbn [dir.writeHashes]. rewrite Forall_cons.
      destruct (dir.Digest file !! "sha256") as [hv|];
        [|split; [by intros [? ?]|by intros [(? & ? & _) _]]].
      destruct (hex.DecodeString hv) as [bytes|e] eqn:Hd.
      + rewrite IH. split; [|by intros [_ ?]].
        intros Hall. split; [|done]. exists hv. split; [done|].
        apply DecodeString_isHexString. by exists bytes.
      + split; [by intros [? ?]|].
        intros [(hv' & [= <-] & Hhex) _].
        apply DecodeString_isHexString in Hhex as [? Hhex]. congruence. }
  rewrite <- (H (dir.Files m) sha256.New). split.
  - intros [r Hr]. destruct (dir.writeHashes _ _) as [d'|]; [by exists d'|done].
  - intros [d' ->]. by eexists.
Qed.

(** X4: the root digest is determined by the concatenation of the
    decoded digests alone: entry names, the model name, the case of the
    hexadecimal digits and the places where one digest ends and the next
    begins do not enter it. *)
Theorem ComputeRootDigest_bytes_only (m1 m2 : dir.Manifest)
  (hashes1 hashes2 : list (list Z)) :
  Forall2 (fun file bytes => decodedDigest file = Some bytes)
          (dir.Files m1) hashes1 ->
  Forall2 (fun file bytes => decodedDigest file = Some bytes)
          (dir.Files m2) hashes2 ->
  concat hashes1 = concat hashes2 ->
  dir.ComputeRootDigest m1 = dir.ComputeRootDigest m2.
Proof.
  intros H1 H2 Heq. unfold dir.ComputeRootDigest.
  change sha256.New with (sha256.Write sha256.New []).
  rewrite <- (app_nil_r (dir.Files m1)), <- (app_nil_r (dir.Files m2)).
  rewrite (writeHashes_good _ _ _ _ _ H1), (writeHashes_good _ _ _ _ _ H2).
  by rewrite Heq.
Qed.

Lemma ComputeRootDigest_bytes_only_witness :
  dir.ComputeRootDigest
    {| dir.ModelName := "m";
       dir.Files := [ {| dir.Name := "a"; dir.Digest := {[ "sha256" := "00ff" ]} |};
                      {| dir.Name := "b"; dir.Digest := {[ "sha256" := "ab" ]} |} ] |}
  = dir.ComputeRootDigest
      {| dir.ModelName := "other";
         dir.Files := [ {| dir.Name := "x"; dir.Digest := {[ "sha256" := "00" ]} |};
                        {| dir.Name := "y"; dir.Digest := {[ "sha256" := "" ]} |};
                        {| dir.Name := "z"; dir.Digest := {[ "sha256" := "FFAB" ]} |} ] |}.
Proof.
  apply (ComputeRootDigest_bytes_only _ _ [[0; 255]; [171]] [[0]; []; [255; 171]]).
  - repeat constructor.
  - repeat constructor.
  - reflexivity.
Defined.

Section IgnoreMore.

Import strings os walk dir options.

Lemma HasPrefix_app_r s p t :
  HasPrefix s p = true -> HasPrefix (s +:+ t) p = true.
Proof.
  intros [u ->]%HasPrefix_spec. rewrite append_assoc. apply HasPrefix_app.
Qed.

(** What matches a path matches every path beneath it. *)
Lemma ignoreLoop_beneath relPath root ig x :
  ignoreLoop relPath root ig = true ->
  ignoreLoop (relPath +:+ "/" +:+ x) root ig = true.
Proof.
  induction ig as [|y ig IH]; [done|]. cbn [ignoreLoop].
  destruct (checkPathOf root y) as [cp|]; [|done].
  destruct (bool_decide (relPath = cp) || HasPrefix relPath (cp +:+ "/"))
    eqn:Hm.
  - intros _.
    assert (Hp : HasPrefix (relPath +:+ "/" +:+ x) (cp +:+ "/") = true).
    { apply orb_true_iff in Hm as [->%bool_decide_eq_true|Hm].
      - rewrite <- append_assoc. apply HasPrefix_app.
      - by apply HasPrefix_app_r. }
    rewrite Hp. by rewrite orb_true_r.
  - intros Hrest. rewrite (IH Hrest). by case_match.
Qed.

Lemma relOf_app c1 c2 :
  c1 ≠ [] -> c2 ≠ [] -> relOf (c1 ++ c2) = relOf c1 +:+ "/" +:+ relOf c2.
Proof.
  intros H1 H2. unfold relOf.
  rewrite !decide_False by (done || by destruct c1).
  by apply Join_app.
Qed.

Lemma ignoreLoop_descendant root ig c1 c2 :
  c1 ≠ [] -> ignoreLoop (relOf c1) root ig = true ->
  ignoreLoop (relOf (c1 ++ c2)) root ig = true.
Proof.
  intros H1 Hig. destruct c2 as [|x c2]; [by rewrite app_nil_r|].
  rewrite relOf_app by done. by apply ignoreLoop_beneath.
Qed.

Variables (s : Serializer) (o : Options) (a ig : list string).
Hypothesis Ha : Forall (fun e => validName e = true) a.

(** Below an ignored path the walk collects nothing. *)
Lemma walk_ignored n r acc :
  Forall (fun e => validName e = true) r ->
  ignoreLoop (relOf r) (absOf a) ig = true ->
  snd (walk (walkFn s o (absOf a) ig) (absOf (a ++ r)) n acc) = acc.
Proof.
  intros Hr Hig. destruct n as [|es|msg| |k|msg].
  - cbn [walk]. rewrite fn_Regular by done. by rewrite Hig.
  - rewrite walk_Directory, fn_Directory by done. by rewrite Hig.
  - done.
  - cbn [walk]. rewrite fn_Symlink by done. by destruct (AllowSymlinks o).
  - cbn [walk]. by rewrite fn_Special.
  - done.
Qed.

End IgnoreMore.

(** X5: a specifier list that makes [shouldIgnore] answer true for an
    entry below the root makes it answer true for everything beneath
    that entry, at any depth. *)
Theorem shouldIgnore_descendants (s : dir.Serializer)
  (a r c ig : list string) :
  Forall (fun e => validName e = true) a ->
  Forall (fun e => validName e = true) r ->
  Forall (fun e => validName e = true) c ->
  r ≠ [] ->
  dir.shouldIgnore s (absOf (a ++ r)) (absOf a) ig = Ok true ->
  dir.shouldIgnore s (absOf (a ++ r ++ c)) (absOf a) ig = Ok true.
Proof.
  intros Ha Hr Hc Hne.
  rewrite !shouldIgnore_under by (done || by apply Forall_app).
  intros [= Hig]. f_equal. by apply ignoreLoop_descendant.
Qed.

Lemma shouldIgnore_descendants_witness :
  dir.shouldIgnore Examples.serializer "/home/user/model/subdir"
    "/home/user/model" ["/home/user/model/subdir"] = Ok true
  /\ dir.shouldIgnore Examples.serializer
       "/home/user/model/subdir/nested/data.json"
       "/home/user/model" ["/home/user/model/subdir"] = Ok true.
Proof.
  split; [reflexivity|].
  apply (shouldIgnore_descendants Examples.serializer
           ["home"; "user"; "model"] ["subdir"] ["nested"; "data.json"]
           ["/home/user/model/subdir"]).
  - repeat constructor.
  - repeat constructor.
  - repeat constructor.
  - discriminate.
  - reflexivity.
Defined.

Section WalkSuccess.

Import strings os walk dir options.

Variables (s : Serializer) (o : Options) (a ig : list string).
Hypothesis Ha : Forall (fun e => validName e = true) a.

Local Abbreviation root := (absOf a).
Local Abbreviation fn := (walkFn s o root ig).
Local Abbreviation valid := (Forall (fun e => validName e = true)).

Lemma collects_children es :
  Forall (fun e => validName (fst e) = true /\ wfTree (snd e) = true) es ->
  Forall (fun e =>
    wfTree (snd e) = true ->
    forall r acc err files, valid r ->
      walk fn (absOf (a ++ r)) (snd e) acc = (err, files) ->
      exists cs, files = acc ++ map (fun c => absOf (a ++ r ++ c)) cs
                 /\ collects a ig (snd e) r err cs) es.
Proof.
  intros _. apply Forall_forall. intros e _ Hwf. by apply walk_collects.
Qed.

Lemma walkLoop_passed es :
  Forall (fun e =>
    wfTree (snd e) = true ->
    forall r acc err files, valid r ->
      walk fn (absOf (a ++ r)) (snd e) acc = (err, files) ->
      err = None \/ err = Some SkipDir ->
      forall c n', fileAt (snd e) c n' ->
        (forall c1 c2, c = c1 ++ c2 -> c2 ≠ [] ->
           ignoreLoop (relOf (r ++ c1)) root ig = false) ->
        passable (AllowSymlinks o) n') es ->
  Forall (fun e => validName (fst e) = true /\ wfTree (snd e) = true) es ->
  forall r acc files, valid r ->
    walkLoop fn (absOf (a ++ r)) es acc = (None, files) ->
    forall name child c' n', (name, child) ∈ es ->
      fileAt child c' n' ->
      (forall c1 c2, c' = c1 ++ c2 -> c2 ≠ [] ->
         ignoreLoop (relOf (r ++ name :: c1)) root ig = false) ->
      passable (AllowSymlinks o) n'.
Proof.
  induction es as [|[name0 child0] es IHes];
    intros IH Hwf r acc files Hr Hw name child c' n' Hin Hat Hreach;
    [by apply elem_of_nil in Hin|].
  inversion_clear IH as [|? ? IHc IHes'].
  inversion_clear Hwf as [|? ? [Hname Hwfc] Hwfes].
  cbn [fst snd] in *.
  rewrite walkLoop_cons, Join_absOf in Hw by (done || by apply Forall_app).
  rewrite <- (app_assoc a r [name0]) in Hw.
  destruct (walk fn (absOf (a ++ r ++ [name0])) child0 acc)
    as [err' st'] eqn:Hwc.
  assert (Hr' : valid (r ++ [name0]))
    by (apply Forall_app; by repeat constructor).
  assert (Hok : (err' = None \/ err' = Some SkipDir)
                /\ walkLoop fn (absOf (a ++ r)) es st' = (None, files)).
  { destruct err' as [e|]; [|by split; [left|]].
    destruct (propagates child0 || negb (bool_decide (e = SkipDir)))
      eqn:Hp; [done|]. split; [|done]. right.
    apply orb_false_iff in Hp as [_ Hp].
    apply negb_false_iff, bool_decide_eq_true in Hp. by subst. }
  destruct Hok as [Herr' Hloop].
  apply elem_of_cons in Hin as [Heq|Hin].
  - injection Heq as Hn Hch. subst name0 child0.
    apply (IHc Hwfc _ _ _ _ Hr' Hwc Herr' c' n' Hat).
    intros c1 c2 Hc Hc2. rewrite <- (app_assoc r [name] c1).
    by apply (Hreach c1 c2).
  - by apply (IHes IHes' Hwfes r st' files Hr Hloop name child c' n').
Qed.

(** A walk that ends without an error has passed every node it
    reached. *)
Lemma walk_passed n :
  wfTree n = true ->
  forall r acc err files, valid r ->
    walk fn (absOf (a ++ r)) n acc = (err, files) ->
    err = None \/ err = Some SkipDir ->
    forall c n', fileAt n c n' ->
      (forall c1 c2, c = c1 ++ c2 -> c2 ≠ [] ->
         ignoreLoop (relOf (r ++ c1)) root ig = false) ->
      passable (AllowSymlinks o) n'.
Proof.
  induction n as [es IH|n Hleaf] using node_ind';
    intros Hwf r acc err files Hr Hw Herr c n' Hat Hreach.
  - inversion Hat as [|? name child c' ? Hin Hat']; subst; [by split|].
    rewrite walk_Directory, fn_Directory in Hw by done.
    assert (Hself : ignoreLoop (relOf r) root ig = false).
    { rewrite <- (app_nil_r r). by apply (Hreach [] (name :: c')). }
    rewrite Hself in Hw.
    apply wfTree_Directory in Hwf as [Hnd Hwf].
    assert (Hnone : err = None).
    { destruct (walkLoop_collects s o a ig Ha es (collects_children es Hwf)
                  Hnd Hwf _ _ _ _ Hr Hw) as (cs & _ & _ & _ & _ & Hskip & _).
      by destruct Herr. }
    subst err.
    apply (walkLoop_passed es IH Hwf r acc files Hr Hw name child c' n' Hin Hat').
    intros c1 c2 Hc Hc2. apply (Hreach (name :: c1) c2); [|done].
    by rewrite Hc.
  - destruct (fileAt_leaf n c n' Hleaf Hat) as [-> ->].
    destruct n as [|es|msg| |k|msg]; try (by split).
    + cbn [walk] in Hw. rewrite fn_err in Hw. injection Hw as <- _.
      by destruct Herr.
    + split; [done|]. intros Hdeny _.
      cbn [walk] in Hw. rewrite fn_Symlink, Hdeny in Hw by done.
      injection Hw as <- _. by destruct Herr.
    + cbn [walk] in Hw. rewrite fn_err in Hw. injection Hw as <- _.
      by destruct Herr.
Qed.

Lemma passable_sorted allow n : passable allow (sorted n) -> passable allow n.
Proof.
  unfold passable. intros [Hf Hs]. split; [by destruct n|].
  intros Hallow ->. by apply Hs.
Qed.

(** What follows from a successful [serializeFrom], beyond the
    manifest. *)
Lemma serializeFrom_Ok_walk w m :
  wfTree (Tree w root) = true ->
  serializeFrom w s o root ig = Ok m ->
  (forall c n', fileAt (Tree w root) c n' ->
     (forall c1 c2, c = c1 ++ c2 -> c2 ≠ [] ->
        ignoreLoop (relOf c1) root ig = false) ->
     passable (AllowSymlinks o) n')
  /\ (ignoreLoop (relOf []) root ig = true -> Files m = []).
Proof.
  intros Hwf. unfold serializeFrom, Walk.
  destruct (walk fn root (sorted (Tree w root)) []) as [err files] eqn:Hw.
  rewrite <- (app_nil_r a) in Hw at 2.
  pose proof (walk_collects s o a ig Ha _ (wfTree_sorted _ Hwf) [] [] _ _
                (Forall_nil_2 _) Hw) as (cs & _ & _ & _ & Hall & _).
  intros Hm.
  assert (Herr : err = None \/ err = Some SkipDir).
  { destruct err as [e|]; [|by left].
    destruct (decide (e = SkipDir)) as [->|]; [by right|].
    by destruct (decide (e = SkipAll)) as [->|]. }
  split.
  - intros c n' Hat Hreach. apply passable_sorted.
    apply (walk_passed _ (wfTree_sorted _ Hwf) [] [] err files
             (Forall_nil_2 _) Hw Herr c (sorted n')).
    + by apply fileAt_sorted.
    + done.
  - intros Hig.
    pose proof (walk_ignored s o a ig Ha (sorted (Tree w root)) [] []
                  (Forall_nil_2 _) Hig) as Hnil.
    rewrite Hw in Hnil. cbn [snd] in Hnil. subst files.
    destruct Herr as [-> | ->]; cbn [decide] in Hm.
    + destruct (HashFiles w []); [|done]. by injection Hm as <-.
    + rewrite decide_True in Hm by done.
      destruct (HashFiles w []); [|done]. by injection Hm as <-.
Qed.

End WalkSuccess.

Section KeptFacts.

Lemma keptb_kept root ig c : keptb root ig c = true <-> kept root ig c.
Proof.
  unfold keptb, kept. rewrite forallb_forall. split.
  - intros H c1 c2 ->. specialize (H (length c1)).
    rewrite take_app_length in H. apply negb_true_iff, H, in_seq.
    rewrite length_app. lia.
  - intros H k _. apply negb_true_iff, (H _ (drop k c)).
    by rewrite take_drop.
Qed.

Lemma reachedb_reached root ig c :
  reachedb root ig c = true <-> reached root ig c.
Proof.
  unfold reachedb, reached. rewrite forallb_forall. split.
  - intros H c1 c2 -> Hc2. specialize (H (length c1)).
    rewrite take_app_length in H. apply negb_true_iff, H, in_seq.
    rewrite length_app. destruct c2; [done|]. cbn [length]. lia.
  - intros H k [_ Hk]%in_seq. apply negb_true_iff, (H _ (drop k c)).
    + by rewrite take_drop.
    + intros Hd%(f_equal length). rewrite length_drop in Hd.
      cbn [length] in Hd. lia.
Qed.

Lemma kept_reached root ig c : kept root ig c -> reached root ig c.
Proof. intros H c1 c2 Hc _. by apply (H c1 c2). Qed.

End KeptFacts.

Section SerializeMore.

Import strings os walk dir options runtime.

(** A successful [Serialize], in terms of the ignore list it built. *)
Lemma Serialize_Ok_effective w s modelPath (st st' : Store Options) m l o
  absPath :
  unixWorld w ->
  Serialize w s modelPath st = Some (Ok m, st') ->
  opts s = Some l -> Structs st !! l = Some o ->
  validSlice st (IgnorePaths o) ->
  filepath.Abs (Getwd w) modelPath = Ok absPath ->
  exists a,
    Forall (fun e => validName e = true) a /\ absPath = absOf a
    /\ wfTree (Tree w (absOf a)) = true
    /\ serializeFrom w s o (absOf a) (effectiveIgnore st o (absOf a)) = Ok m.
Proof.
  intros [Hwd Hwf] Hser Hopts Hl Hvalid Habs.
  destruct (Serialize_Ok _ _ _ _ _ _ Hwd Hser)
    as (a & l' & o' & pre & Ha & Habs' & Hopts' & Hl' & Hfrom & _ & Hpre).
  assert (l' = l) as -> by congruence.
  assert (o' = o) as -> by congruence.
  exists a. split; [done|]. split; [congruence|]. split; [done|].
  unfold effectiveIgnore. by rewrite <- (Hpre Hvalid).
Qed.

Lemma Base_absOf a :
  Forall (fun e => validName e = true) a ->
  filepath.Base (absOf a) = default "/" (last a).
Proof.
  intros Ha. unfold filepath.Base. rewrite decide_False by done.
  rewrite Split_absOf by done.
  destruct a as [|x a] using rev_ind; [reflexivity|].
  rewrite decide_False by by destruct a.
  change ("" :: a ++ [x]) with (("" :: a) ++ [x]).
  rewrite rev_unit, last_snoc. cbn [default].
  apply Forall_app in Ha as [_ Hx]. inversion_clear Hx as [|? ? Hv _].
  rewrite filter_cons_True; [done|]. intros ->. by vm_compute in Hv.
Qed.

End SerializeMore.

(** X6: the entries of a manifest are exactly the regular files of the
    tree that the ignore list keeps: a name is in the manifest if and
    only if it is the root-relative path of a regular file such that no
    specifier of the effective ignore list matches the file, the root or
    a directory on the way to the file. *)
Theorem Serialize_selection (w : dir.World) (s : dir.Serializer)
  (modelPath : string) (st st' : runtime.Store options.Options)
  (m : dir.Manifest) (l : runtime.loc) (o : options.Options)
  (absPath : string) :
  unixWorld w ->
  dir.Serialize w s modelPath st = Some (Ok m, st') ->
  dir.opts s = Some l -> runtime.Structs st !! l = Some o ->
  validSlice st (options.IgnorePaths o) ->
  filepath.Abs (dir.Getwd w) modelPath = Ok absPath ->
  forall name,
    name ∈ names m
    <-> exists c,
          name = relOf c
          /\ fileAt (dir.Tree w absPath) c os.Regular
          /\ kept absPath (effectiveIgnore st o absPath) c.
Proof.
  intros Hw Hser Hopts Hl Hvalid Habs name.
  destruct (Serialize_Ok_effective _ _ _ _ _ _ _ _ _ Hw Hser Hopts Hl Hvalid Habs)
    as (a & Ha & -> & Hwf & Hfrom).
  destruct (serializeFrom_Ok _ _ _ _ _ _ Ha Hwf Hfrom)
    as (cs & fileHashes & Hfiles & _ & _ & Hnd & Hs & Hc).
  destruct (serializeFrom_Ok_walk _ _ _ _ Ha _ _ Hwf Hfrom) as [_ Hroot].
  assert (Hperm : names m ≡ₚ map relOf cs).
  { unfold names. by rewrite Hfiles, sortSlice_perm, entry_names. }
  rewrite Hperm. split.
  - intros (c & -> & Hin)%list_elem_of_fmap. exists c.
    destruct (Hs c Hin) as (Hat & Hv & Hig). split; [done|]. split; [done|].
    intros c1 c2 Hsplit.
    destruct (dir.ignoreLoop (relOf c1) _ _) eqn:Hig1; [|done].
    destruct c1 as [|x c1].
    + assert (Hempty : names m = []) by (unfold names; by rewrite (Hroot Hig1)).
      rewrite Hempty in Hperm. symmetry in Hperm.
      apply Permutation_nil_r in Hperm.
      destruct cs; [by apply elem_of_nil in Hin|done].
    + rewrite Hsplit in Hig.
      by rewrite (ignoreLoop_descendant _ _ (x :: c1) c2) in Hig.
  - intros (c & -> & Hat & Hkept). apply list_elem_of_fmap.
    exists c. split; [done|]. by apply Hc.
Qed.

Lemma Serialize_selection_witness :
  unixWorld Examples.world
  /\ exists m st',
       dir.Serialize Examples.world Examples.serializer "model"
         (Examples.storeWith ["subdir/nested"] true false) = Some (Ok m, st')
       /\ "subdir/layer1.bin" ∈ names m.
Proof.
  assert (Hw : unixWorld Examples.world).
  { split; [intros d [= <-]|intros p]; vm_compute; reflexivity. }
  split; [exact Hw|].
  destruct (dir.Serialize Examples.world Examples.serializer "model"
              (Examples.storeWith ["subdir/nested"] true false))
    as [[[m|e] st']|] eqn:Hr.
  - exists m, st'. split; [reflexivity|].
    apply (Serialize_selection Examples.world Examples.serializer "model"
             (Examples.storeWith ["subdir/nested"] true false) st' m 0%nat
             (Examples.optionsOf ["subdir/nested"] true false)
             "/home/user/model" Hw Hr eq_refl eq_refl).
    + exists ["subdir/nested"]. split; [reflexivity|]. cbn. lia.
    + reflexivity.
    + exists ["subdir"; "layer1.bin"]. split; [reflexivity|]. split.
      * apply fileAt_entry with
          (os.Directory [("layer2.bin", os.Regular); ("layer1.bin", os.Regular);
                         ("nested", os.Directory [("data.json", os.Regular)])]).
        { do 5 apply list_elem_of_further. apply list_elem_of_here. }
        apply fileAt_entry with os.Regular; [|constructor].
        apply list_elem_of_further, list_elem_of_here.
      * apply keptb_kept. vm_compute. reflexivity.
  - vm_compute in Hr. discriminate Hr.
  - vm_compute in Hr. discriminate Hr.
Defined.

(** X7: when [Serialize] succeeds, every node of the tree that the walk
    reaches (no specifier matches the root or a directory above the
    node) was passable: it is not an unreadable directory, not an entry
    on which [Lstat] fails and, unless symbolic links are allowed, not a
    symbolic link.  This holds also for a node that an ignore specifier
    itself matches: such a node still makes [Serialize] fail. *)
Theorem Serialize_passed (w : dir.World) (s : dir.Serializer)
  (modelPath : string) (st st' : runtime.Store options.Options)
  (m : dir.Manifest) (l : runtime.loc) (o : options.Options)
  (absPath : string) :
  unixWorld w ->
  dir.Serialize w s modelPath st = Some (Ok m, st') ->
  dir.opts s = Some l -> runtime.Structs st !! l = Some o ->
  validSlice st (options.IgnorePaths o) ->
  filepath.Abs (dir.Getwd w) modelPath = Ok absPath ->
  forall c n,
    fileAt (dir.Tree w absPath) c n ->
    reached absPath (effectiveIgnore st o absPath) c ->
    passable (options.AllowSymlinks o) n.
Proof.
  intros Hw Hser Hopts Hl Hvalid Habs c n Hat Hreach.
  destruct (Serialize_Ok_effective _ _ _ _ _ _ _ _ _ Hw Hser Hopts Hl Hvalid Habs)
    as (a & Ha & -> & Hwf & Hfrom).
  destruct (serializeFrom_Ok_walk _ _ _ _ Ha _ _ Hwf Hfrom) as [Hpass _].
  by apply (Hpass c n).
Qed.

Lemma Serialize_passed_witness :
  unixWorld Examples.world
  /\ exists m st',
       dir.Serialize Examples.world Examples.serializer "model"
         (Examples.storeWith ["pipe"] true false) = Some (Ok m, st')
       /\ passable false (os.Special os.NamedPipe).
Proof.
  assert (Hw : unixWorld Examples.world).
  { split; [intros d [= <-]|intros p]; vm_compute; reflexivity. }
  split; [exact Hw|].
  destruct (dir.Serialize Examples.world Examples.serializer "model"
              (Examples.storeWith ["pipe"] true false))
    as [[[m|e] st']|] eqn:Hr.
  - exists m, st'. split; [reflexivity|].
    apply (Serialize_passed Examples.world Examples.serializer "model"
             (Examples.storeWith ["pipe"] true false) st' m 0%nat
             (Examples.optionsOf ["pipe"] true false)
             "/home/user/model" Hw Hr eq_refl eq_refl) with (c := ["pipe"]).
    + exists ["pipe"]. split; [reflexivity|]. cbn. lia.
    + reflexivity.
    + apply fileAt_entry with (os.Special os.NamedPipe); [|constructor].
      do 6 apply list_elem_of_further. apply list_elem_of_here.
    + apply reachedb_reached. vm_compute. reflexivity.
  - vm_compute in Hr. discriminate Hr.
  - vm_compute in Hr. discriminate Hr.
Defined.

Section WalkFailure.

Import strings os walk dir options.

Variables (s : Serializer) (o : Options) (a ig : list string).
Hypothesis Ha : Forall (fun e => validName e = true) a.

Local Abbreviation root := (absOf a).
Local Abbreviation fn := (walkFn s o root ig).
Local Abbreviation valid := (Forall (fun e => validName e = true)).

Lemma walkLoop_failed es :
  Forall (fun e =>
    wfTree (snd e) = true ->
    forall r acc e0 files, valid r ->
      walk fn (absOf (a ++ r)) (snd e) acc = (Some e0, files) ->
      e0 ≠ SkipDir ->
      exists c n', fileAt (snd e) c n' /\ valid c
        /\ (forall c1 c2, c = c1 ++ c2 -> c2 ≠ [] ->
              ignoreLoop (relOf (r ++ c1)) root ig = false)
        /\ walkError (AllowSymlinks o) (absOf (a ++ r ++ c)) n' = Some e0) es ->
  Forall (fun e => validName (fst e) = true /\ wfTree (snd e) = true) es ->
  forall r acc e0 files, valid r ->
    walkLoop fn (absOf (a ++ r)) es acc = (Some e0, files) ->
    e0 ≠ SkipDir ->
    exists name child c' n', (name, child) ∈ es
      /\ fileAt child c' n' /\ valid (name :: c')
      /\ (forall c1 c2, c' = c1 ++ c2 -> c2 ≠ [] ->
            ignoreLoop (relOf (r ++ name :: c1)) root ig = false)
      /\ walkError (AllowSymlinks o) (absOf (a ++ r ++ name :: c')) n'
         = Some e0.
Proof.
  induction es as [|[name0 child0] es IHes];
    intros IH Hwf r acc e0 files Hr Hw He0; [done|].
  inversion_clear IH as [|? ? IHc IHes'].
  inversion_clear Hwf as [|? ? [Hname Hwfc] Hwfes].
  cbn [fst snd] in *.
  rewrite walkLoop_cons, Join_absOf in Hw by (done || by apply Forall_app).
  rewrite <- (app_assoc a r [name0]) in Hw.
  destruct (walk fn (absOf (a ++ r ++ [name0])) child0 acc)
    as [err' st'] eqn:Hwc.
  assert (Hr' : valid (r ++ [name0]))
    by (apply Forall_app; by repeat constructor).
  assert (Hcases : (err' = Some e0)
                   \/ walkLoop fn (absOf (a ++ r)) es st' = (Some e0, files)).
  { destruct err' as [e|]; [|by right].
    destruct (propagates child0 || negb (bool_decide (e = SkipDir)));
      [left; congruence|by right]. }
  destruct Hcases as [-> | Hloop].
  - destruct (IHc Hwfc _ _ _ _ Hr' Hwc He0) as (c & n' & Hat & Hc & Hreach & Herr).
    exists name0, child0, c, n'. split; [apply list_elem_of_here|].
    split; [done|]. split; [by constructor|]. split.
    + intros c1 c2 Hsplit Hc2.
      change (name0 :: c1) with ([name0] ++ c1). rewrite app_assoc.
      by apply (Hreach c1 c2).
    + rewrite <- Herr. by rewrite <- (app_assoc r [name0] c).
  - destruct (IHes IHes' Hwfes r st' e0 files Hr Hloop He0)
      as (name & child & c' & n' & Hin & Hrest).
    exists name, child, c', n'. split; [by apply list_elem_of_further|done].
Qed.

(** A walk that ends with an error met a node that gives that error,
    below no ignored directory. *)
Lemma walk_failed n :
  wfTree n = true ->
  forall r acc e0 files, valid r ->
    walk fn (absOf (a ++ r)) n acc = (Some e0, files) ->
    e0 ≠ SkipDir ->
    exists c n', fileAt n c n' /\ valid c
      /\ (forall c1 c2, c = c1 ++ c2 -> c2 ≠ [] ->
            ignoreLoop (relOf (r ++ c1)) root ig = false)
      /\ walkError (AllowSymlinks o) (absOf (a ++ r ++ c)) n' = Some e0.
Proof.
  induction n as [es IH|n Hleaf] using node_ind';
    intros Hwf r acc e0 files Hr Hw He0.
  - rewrite walk_Directory, fn_Directory in Hw by done.
    destruct (ignoreLoop (relOf r) root ig) eqn:Hself; [congruence|].
    apply wfTree_Directory in Hwf as [Hnd Hwf].
    destruct (walkLoop_failed es IH Hwf r acc e0 files Hr Hw He0)
      as (name & child & c' & n' & Hin & Hat & Hc & Hreach & Herr).
    exists (name :: c'), n'. split; [by apply fileAt_entry with child|].
    split; [done|]. split; [|done].
    intros c1 c2 Hsplit Hc2. destruct c1 as [|x c1].
    + by rewrite app_nil_r.
    + injection Hsplit as <- Hsplit. by apply (Hreach c1 c2).
  - exists [], n. split; [constructor|]. split; [constructor|].
    split; [intros [|] ? ? ?; by simplify_eq/=|].
    rewrite app_nil_r.
    destruct n as [|es|msg| |k|msg].
    + cbn [walk] in Hw. rewrite fn_Regular in Hw by done.
      by destruct (ignoreLoop _ _ _).
    + by destruct (Hleaf es).
    + cbn [walk] in Hw. rewrite fn_err in Hw. by injection Hw as <- _.
    + cbn [walk] in Hw. rewrite fn_Symlink in Hw by done. cbn [walkError].
      destruct (AllowSymlinks o); [done|]. by injection Hw as <- _.
    + cbn [walk] in Hw. by rewrite fn_Special in Hw.
    + cbn [walk] in Hw. rewrite fn_err in Hw. by injection Hw as <- _.
Qed.

Lemma walkError_sorted allow path n :
  walkError allow path (sorted n) = walkError allow path n.
Proof. by destruct n. Qed.

Lemma walkError_passable allow path n :
  walkError allow path n = None <-> passable allow n.
Proof.
  unfold passable.
  destruct n as [|es|msg| |k|msg], allow; cbn [walkError failing];
    (split; [intros H; try discriminate H; by split
            |intros [Hf Hs]; try discriminate Hf; try reflexivity;
             by destruct (Hs eq_refl)]).
Qed.

(** The errors of [serializeFrom]. *)
Lemma serializeFrom_Err w e :
  wfTree (Tree w root) = true ->
  serializeFrom w s o root ig = Err e ->
  (exists c n e',
      fileAt (Tree w root) c n /\ reached root ig c
      /\ walkError (AllowSymlinks o) (absOf (a ++ c)) n = Some e'
      /\ e = wrapError "failed to walk directory: " e')
  \/ (exists cs e',
        HashFiles w (map (fun c => absOf (a ++ c)) cs) = Err e'
        /\ e = wrapError "failed to hash files: " e').
Proof.
  intros Hwf. unfold serializeFrom.
  destruct (Walk (Tree w root) root fn []) as [err files] eqn:HW.
  destruct (Walk_collects s o a ig Ha _ _ _ Hwf HW)
    as (cs & -> & _ & Hcs & _).
  destruct err as [e0|].
  - intros [= <-]. left. unfold Walk in HW.
    destruct (walk fn root (sorted (Tree w root)) []) as [err files] eqn:Hw.
    destruct err as [e1|]; [|done].
    destruct (decide (e1 = SkipDir)) as [|Hne]; [done|].
    destruct (decide (e1 = SkipAll)) as [|Hne']; [done|].
    injection HW as -> _.
    rewrite <- (app_nil_r a) in Hw at 2.
    destruct (walk_failed _ (wfTree_sorted _ Hwf) [] [] e0 files
                (Forall_nil_2 _) Hw Hne)
      as (c & n' & Hat & Hc & Hreach & Herr).
    apply fileAt_sorted_inv in Hat as (n0 & Hat & ->).
    rewrite walkError_sorted in Herr. rewrite app_nil_l in Herr.
    exists c, n0, e0. split; [done|]. split; [|done].
    intros c1 c2 Hsplit Hc2. by apply (Hreach c1 c2).
  - destruct (HashFiles w _) as [fileHashes|e'] eqn:Hh.
    + rewrite fileDescriptorsOf_under; [done|done|].
      apply Forall_forall. intros c Hin. by destruct (Hcs c Hin) as (_ & ? & _).
    + intros [= <-]. right. by exists cs, e'.
Qed.

End WalkFailure.

Section RootCases.

Import strings os walk dir options runtime.

Variables (s : Serializer) (o : Options) (a ig : list string).
Hypothesis Ha : Forall (fun e => validName e = true) a.

Local Abbreviation root := (absOf a).
Local Abbreviation fn := (walkFn s o root ig).

Lemma fn_root_Regular acc :
  fn root (infoOf Regular) None acc =
  if ignoreLoop (relOf []) root ig then (None, acc) else (None, acc ++ [root]).
Proof.
  pose proof (fn_Regular s o a ig Ha [] acc (Forall_nil_2 _)) as H.
  by rewrite app_nil_r in H.
Qed.

Lemma fn_root_Directory es acc :
  fn root (infoOf (Directory es)) None acc =
  if ignoreLoop (relOf []) root ig then (Some SkipDir, acc) else (None, acc).
Proof.
  pose proof (fn_Directory s o a ig Ha es [] acc (Forall_nil_2 _)) as H.
  by rewrite app_nil_r in H.
Qed.

Lemma fn_root_Symlink acc :
  fn root (infoOf Symlink) None acc =
  if AllowSymlinks o then (None, acc)
  else (Some (errorString ("symlink not allowed: " +:+ root +:+
                           " (use AllowSymlinks option)")), acc).
Proof.
  pose proof (fn_Symlink s o a ig Ha [] acc (Forall_nil_2 _)) as H.
  by rewrite app_nil_r in H.
Qed.

Lemma fn_root_Special k acc : fn root (infoOf (Special k)) None acc = (None, acc).
Proof.
  pose proof (fn_Special s o a ig Ha k [] acc (Forall_nil_2 _)) as H.
  by rewrite app_nil_r in H.
Qed.

(** The walk from an ignored root collects nothing and reports no
    error, unless the root itself cannot be passed. *)
Lemma Walk_root_ignored n :
  ignoreLoop (relOf []) root ig = true ->
  passable (AllowSymlinks o) n ->
  Walk n root fn [] = (None, []).
Proof.
  intros Hig [Hf Hs]. unfold Walk.
  destruct n as [|es|msg| |k|msg]; try discriminate Hf; cbn [sorted].
  - cbn [walk]. by rewrite fn_root_Regular, Hig.
  - rewrite walk_Directory, fn_root_Directory, Hig. by rewrite decide_True.
  - cbn [walk]. rewrite fn_root_Symlink.
    destruct (AllowSymlinks o); [done|]. by destruct (Hs eq_refl).
  - cbn [walk]. by rewrite fn_root_Special.
Qed.

Lemma serializeFrom_root_ignored w h :
  ignoreLoop (relOf []) root ig = true ->
  passable (AllowSymlinks o) (Tree w root) ->
  HashFiles w [] = Ok h ->
  serializeFrom w s o root ig
  = Ok {| ModelName := filepath.Base root; Files := [] |}.
Proof.
  intros Hig Hp Hh. unfold serializeFrom.
  by rewrite (Walk_root_ignored _ Hig Hp), Hh.
Qed.

Lemma serializeFrom_file w h :
  Tree w root = Regular ->
  ignoreLoop (relOf []) root ig = false ->
  HashFiles w [root] = Ok h ->
  serializeFrom w s o root ig
  = Ok {| ModelName := filepath.Base root; Files := [entryOf h a []] |}.
Proof.
  intros Ht Hig Hh. unfold serializeFrom, Walk. rewrite Ht. cbn [sorted walk].
  rewrite fn_root_Regular, Hig. cbn [app]. rewrite Hh.
  pose proof (fileDescriptorsOf_under h a [[]] [] Ha) as Hfd.
  cbn [map] in Hfd. rewrite app_nil_r in Hfd.
  rewrite Hfd by by repeat constructor. reflexivity.
Qed.

End RootCases.

Section SerializeRuns.

Import strings os walk dir options runtime.

Lemma Serialize_run_effective w s modelPath (st : Store Options) absPath l o :
  filepath.Abs (Getwd w) modelPath = Ok absPath ->
  opts s = Some l -> Structs st !! l = Some o ->
  validSlice st (IgnorePaths o) ->
  exists st',
    Serialize w s modelPath st
    = Some (serializeFrom w s o absPath (effectiveIgnore st o absPath), st').
Proof.
  intros Habs Hopts Hl Hvalid.
  destruct (Serialize_run w s modelPath st absPath l o Habs Hopts Hl)
    as (pre & st' & Hrun & _ & _ & Hpre).
  exists st'. unfold effectiveIgnore. by rewrite <- (Hpre Hvalid).
Qed.

End SerializeRuns.

(** X8: when a specifier of the effective ignore list matches the model
    root itself (checked as the relative path [.]), [Serialize] succeeds
    with a manifest that has no entries, whatever the tree holds, as
    long as the root can be passed and the hasher accepts the empty
    list of files. *)
Theorem Serialize_root_ignored (w : dir.World) (s : dir.Serializer)
  (modelPath : string) (st : runtime.Store options.Options)
  (l : runtime.loc) (o : options.Options) (absPath : string)
  (h : gmap string (gmap string string)) :
  unixWorld w ->
  dir.opts s = Some l -> runtime.Structs st !! l = Some o ->
  validSlice st (options.IgnorePaths o) ->
  filepath.Abs (dir.Getwd w) modelPath = Ok absPath ->
  dir.ignoreLoop "." absPath (effectiveIgnore st o absPath) = true ->
  passable (options.AllowSymlinks o) (dir.Tree w absPath) ->
  dir.HashFiles w [] = Ok h ->
  exists st',
    dir.Serialize w s modelPath st
    = Some (Ok {| dir.ModelName := filepath.Base absPath; dir.Files := [] |},
            st').
Proof.
  intros [Hwd _] Hopts Hl Hvalid Habs Hig Hp Hh.
  destruct (Serialize_run_effective _ _ _ _ _ _ _ Habs Hopts Hl Hvalid)
    as [st' Hrun].
  destruct (Abs_absOf _ _ _ Hwd Habs) as (a & Ha & ->).
  exists st'. rewrite Hrun.
  by rewrite (serializeFrom_root_ignored s o a _ Ha w h Hig Hp Hh).
Qed.

Lemma Serialize_root_ignored_witness :
  exists st',
    dir.Serialize Examples.world Examples.serializer "model"
      (Examples.storeWith ["."] true false)
    = Some (Ok {| dir.ModelName := filepath.Base "/home/user/model";
                  dir.Files := [] |}, st').
Proof.
  apply (Serialize_root_ignored Examples.world Examples.serializer "model"
           (Examples.storeWith ["."] true false) 0%nat
           (Examples.optionsOf ["."] true false) "/home/user/model" ∅).
  - split; [intros d [= <-]|intros p]; vm_compute; reflexivity.
  - reflexivity.
  - reflexivity.
  - exists ["."]. split; [reflexivity|]. cbn. lia.
  - reflexivity.
  - vm_compute. reflexivity.
  - split; [reflexivity|]. intros _. discriminate.
  - reflexivity.
Defined.

(** X9: when the model path is a regular file that no specifier matches,
    [Serialize] succeeds with a manifest of one entry, named [.], with
    the digest the hasher reports for the file (the empty string when it
    reports none). *)
Theorem Serialize_single_file (w : dir.World) (s : dir.Serializer)
  (modelPath : string) (st : runtime.Store options.Options)
  (l : runtime.loc) (o : options.Options) (absPath : string)
  (h : gmap string (gmap string string)) :
  unixWorld w ->
  dir.opts s = Some l -> runtime.Structs st !! l = Some o ->
  validSlice st (options.IgnorePaths o) ->
  filepath.Abs (dir.Getwd w) modelPath = Ok absPath ->
  dir.Tree w absPath = os.Regular ->
  dir.ignoreLoop "." absPath (effectiveIgnore st o absPath) = false ->
  dir.HashFiles w [absPath] = Ok h ->
  exists st',
    dir.Serialize w s modelPath st
    = Some (Ok {| dir.ModelName := filepath.Base absPath;
                  dir.Files :=
                    [ {| dir.Name := ".";
                         dir.Digest :=
                           {[ "sha256" :=
                                default "" (default ∅ (h !! absPath)
                                              !! "sha256") ]} |} ] |},
            st').
Proof.
  intros [Hwd _] Hopts Hl Hvalid Habs Ht Hig Hh.
  destruct (Serialize_run_effective _ _ _ _ _ _ _ Habs Hopts Hl Hvalid)
    as [st' Hrun].
  destruct (Abs_absOf _ _ _ Hwd Habs) as (a & Ha & ->).
  exists st'. rewrite Hrun.
  rewrite (serializeFrom_file s o a _ Ha w h Ht Hig Hh).
  unfold entryOf. by rewrite app_nil_r.
Qed.

Lemma Serialize_single_file_witness :
  exists st' v,
    dir.Serialize (Examples.worldOf os.Regular) Examples.serializer
      "model.bin" (Examples.storeWith [] true false)
    = Some (Ok {| dir.ModelName := filepath.Base "/home/user/model.bin";
                  dir.Files :=
                    [ {| dir.Name := ".";
                         dir.Digest := {[ "sha256" := v ]} |} ] |},
            st').
Proof.
  destruct (Examples.hashPaths ["/home/user/model.bin"]) as [h|e] eqn:Hh;
    [|discriminate Hh].
  destruct (Serialize_single_file (Examples.worldOf os.Regular)
              Examples.serializer "model.bin"
              (Examples.storeWith [] true false) 0%nat
              (Examples.optionsOf [] true false) "/home/user/model.bin" h)
    as [st' Hs].
  - split; [intros d [= <-]|intros p]; vm_compute; reflexivity.
  - reflexivity.
  - reflexivity.
  - exists []. split; [reflexivity|]. cbn. lia.
  - reflexivity.
  - reflexivity.
  - vm_compute. reflexivity.
  - exact Hh.
  - by exists st', (default "" (default ∅ (h !! "/home/user/model.bin")
                                  !! "sha256")).
Defined.

(** X10: the errors of [Serialize].  An error it returns is the error of
    the working directory, wrapped as a failure to resolve the model
    path; or the error of a node of the tree that no ignored directory
    hides (the operating system's error for an unreadable directory or
    an entry that cannot be examined, the refusal of a symbolic link
    that names the link's path), wrapped as a failure to walk; or the
    hasher's error, wrapped as a failure to hash.  It is never a failure
    to compute a relative path. *)
Theorem Serialize_errors (w : dir.World) (s : dir.Serializer)
  (modelPath : string) (st st' : runtime.Store options.Options)
  (l : runtime.loc) (o : options.Options) (e : error) :
  unixWorld w ->
  dir.Serialize w s modelPath st = Some (Err e, st') ->
  dir.opts s = Some l -> runtime.Structs st !! l = Some o ->
  validSlice st (options.IgnorePaths o) ->
  (exists e', dir.Getwd w = Err e'
              /\ filepath.IsAbs modelPath = false
              /\ e = wrapError "failed to resolve model path: " e')
  \/ (exists a c n e',
        Forall (fun x => validName x = true) a
        /\ filepath.Abs (dir.Getwd w) modelPath = Ok (absOf a)
        /\ fileAt (dir.Tree w (absOf a)) c n
        /\ reached (absOf a) (effectiveIgnore st o (absOf a)) c
        /\ walkError (options.AllowSymlinks o) (absOf (a ++ c)) n = Some e'
        /\ e = wrapError "failed to walk directory: " e')
  \/ (exists files e',
        dir.HashFiles w files = Err e'
        /\ e = wrapError "failed to hash files: " e').
Proof.
  intros [Hwd Hwf] Hser Hopts Hl Hvalid.
  destruct (filepath.Abs (dir.Getwd w) modelPath) as [absPath|e0] eqn:Habs.
  - right.
    destruct (Serialize_run_effective _ _ _ _ _ _ _ Habs Hopts Hl Hvalid)
      as [st1 Hrun].
    rewrite Hrun in Hser. injection Hser as Hfrom _.
    destruct (Abs_absOf _ _ _ Hwd Habs) as (a & Ha & ->).
    destruct (serializeFrom_Err s o a _ Ha w e (Hwf _) Hfrom)
      as [(c & n & e' & Hat & Hreach & Herr & ->)
         |(cs & e' & Hh & ->)].
    + left. by exists a, c, n, e'.
    + right. by exists (map (fun c => absOf (a ++ c)) cs), e'.
  - left. unfold dir.Serialize in Hser. rewrite Habs in Hser.
    injection Hser as <- _. exists e0. unfold filepath.Abs in Habs.
    destruct (filepath.IsAbs modelPath); [done|].
    destruct (dir.Getwd w); [done|]. by injection Habs as ->.
Qed.

Lemma Serialize_errors_witness :
  exists e st',
    dir.Serialize (Examples.worldOf Examples.treeWithLinks)
      Examples.serializer "model" (Examples.storeWith [] true false)
    = Some (Err e, st')
    /\ exists e', e = wrapError "failed to walk directory: " e'.
Proof.
  destruct (dir.Serialize (Examples.worldOf Examples.treeWithLinks)
              Examples.serializer "model" (Examples.storeWith [] true false))
    as [[[m|e] st']|] eqn:Hr.
  - vm_compute in Hr. discriminate Hr.
  - exists e, st'. split; [reflexivity|].
    destruct (Serialize_errors (Examples.worldOf Examples.treeWithLinks)
                Examples.serializer "model" (Examples.storeWith [] true false)
                st' 0%nat (Examples.optionsOf [] true false) e)
      as [(e' & Hwd & _)|[(a & c & n & e' & _ & _ & _ & _ & _ & He)
                         |(files & e' & Hh & _)]].
    + split; [intros d [= <-]|intros p]; vm_compute; reflexivity.
    + exact Hr.
    + reflexivity.
    + reflexivity.
    + exists []. split; [reflexivity|]. cbn. lia.
    + discriminate Hwd.
    + by exists e'.
    + discriminate Hh.
  - vm_compute in Hr. discriminate Hr.
Defined.

(** X11: [Serialize] panics, on the nil pointer it dereferences, exactly
    when the model path resolves and the options pointer of the
    serializer is nil (or points to nothing): a serializer that was not
    made by [New].  When the path does not resolve, the error is
    returned before the options are read. *)
Theorem Serialize_panics (w : dir.World) (s : dir.Serializer)
  (modelPath : string) (st : runtime.Store options.Options) :
  dir.Serialize w s modelPath st = None
  <-> (exists absPath, filepath.Abs (dir.Getwd w) modelPath = Ok absPath)
      /\ (forall l, dir.opts s = Some l -> runtime.Structs st !! l = None).
Proof.
  split.
  - intros Hser.
    destruct (filepath.Abs (dir.Getwd w) modelPath) as [absPath|e] eqn:Habs.
    + split; [by exists absPath|]. intros l Hopts.
      destruct (runtime.Structs st !! l) as [o|] eqn:Hl; [|done].
      destruct (Serialize_run w s modelPath st absPath l o Habs Hopts Hl)
        as (pre & st' & Hrun & _). congruence.
    + unfold dir.Serialize in Hser. by rewrite Habs in Hser.
  - intros [[absPath Habs] Hnil]. unfold dir.Serialize. rewrite Habs.
    unfold runtime.bind at 1. unfold runtime.load.
    destruct (dir.opts s) as [l|]; [|done]. by rewrite (Hnil l eq_refl).
Qed.

Section DigestKeys.

Import dir.

Lemma Serialize_keys w s modelPath
  (st st' : runtime.Store options.Options) m :
  unixWorld w ->
  Serialize w s modelPath st = Some (Ok m, st') ->
  Forall (fun f => exists v, Digest f = {[ "sha256" := v ]}) (Files m).
Proof.
  intros [Hwd Hwf] Hser.
  destruct (Serialize_Ok _ _ _ _ _ _ Hwd Hser)
    as (a & l & o & pre & Ha & _ & _ & _ & Hfrom & _).
  destruct (serializeFrom_Ok _ _ _ _ _ _ Ha (Hwf _) Hfrom)
    as (cs & fileHashes & Hfiles & _).
  rewrite Hfiles, sortSlice_perm. apply Forall_forall.
  intros f (c & -> & _)%list_elem_of_fmap. by eexists.
Qed.

Lemma writeHashes_keys files :
  Forall (fun f => exists v, Digest f = {[ "sha256" := v ]}) files ->
  forall hasher e, writeHashes hasher files = Err e ->
    exists f e', f ∈ files
      /\ e = wrapError ("failed to decode hash for " +:+ Name f +:+ ": ") e'.
Proof.
  intros Hkeys. induction Hkeys as [|f files [v Hv] _ IH];
    intros hasher e; cbn [writeHashes]; [done|].
  rewrite Hv, lookup_singleton_eq.
  destruct (hex.DecodeString v) as [bytes|e'] eqn:Hd.
  - intros He. destruct (IH _ _ He) as (f' & e'' & Hin & ->).
    exists f', e''. split; [by apply list_elem_of_further|done].
  - intros [= <-]. exists f, e'. split; [apply list_elem_of_here|done].
Qed.

Lemma ComputeRootDigest_keys m e :
  Forall (fun f => exists v, Digest f = {[ "sha256" := v ]}) (Files m) ->
  ComputeRootDigest m = Err e ->
  exists f e', f ∈ Files m
    /\ e = wrapError ("failed to decode hash for " +:+ Name f +:+ ": ") e'.
Proof.
  intros Hkeys. unfold ComputeRootDigest.
  destruct (writeHashes sha256.New (Files m)) as [d|e0] eqn:Hw; [done|].
  intros [= <-]. by apply (writeHashes_keys _ Hkeys sha256.New).
Qed.

End DigestKeys.

(** X12: every entry of a manifest that [Serialize] returns has a digest
    map with the single key [sha256], so that [ComputeRootDigest] never
    reports a missing digest on it: when it fails on such a manifest, it
    failed to decode the digest of one of its entries. *)
Theorem Serialize_digest_keys (w : dir.World) (s : dir.Serializer)
  (modelPath : string) (st st' : runtime.Store options.Options)
  (m : dir.Manifest) :
  unixWorld w ->
  dir.Serialize w s modelPath st = Some (Ok m, st') ->
  Forall (fun f => exists v, dir.Digest f = {[ "sha256" := v ]}) (dir.Files m)
  /\ forall e, dir.ComputeRootDigest m = Err e ->
       exists f e', f ∈ dir.Files m
         /\ e = wrapError ("failed to decode hash for " +:+ dir.Name f +:+ ": ")
                  e'.
Proof.
  intros Hw Hser.
  pose proof (Serialize_keys _ _ _ _ _ _ Hw Hser) as Hkeys.
  split; [done|]. intros e. by apply ComputeRootDigest_keys.
Qed.

Lemma Serialize_digest_keys_witness :
  exists m st',
    dir.Serialize Examples.world Examples.serializer "model"
      (Examples.storeWith [] true false) = Some (Ok m, st')
    /\ Forall (fun f => exists v, dir.Digest f = {[ "sha256" := v ]})
         (dir.Files m).
Proof.
  destruct (dir.Serialize Examples.world Examples.serializer "model"
              (Examples.storeWith [] true false))
    as [[[m|e] st']|] eqn:Hr.
  - exists m, st'. split; [reflexivity|].
    apply (Serialize_digest_keys Examples.world Examples.serializer "model"
             (Examples.storeWith [] true false) st' m); [|exact Hr].
    split; [intros d [= <-]|intros p]; vm_compute; reflexivity.
  - vm_compute in Hr. discriminate Hr.
  - vm_compute in Hr. discriminate Hr.
Defined.

(** X13: the model name of a manifest is the last element of the
    resolved, cleaned model path, whatever form the path was given in,
    and [/] when the model path is the root of the file system. *)
Theorem Serialize_ModelName (w : dir.World) (s : dir.Serializer)
  (modelPath : string) (st st' : runtime.Store options.Options)
  (m : dir.Manifest) :
  unixWorld w ->
  dir.Serialize w s modelPath st = Some (Ok m, st') ->
  exists a,
    Forall (fun x => validName x = true) a
    /\ filepath.Abs (dir.Getwd w) modelPath = Ok (absOf a)
    /\ dir.ModelName m = default "/" (last a).
Proof.
  intros [Hwd Hwf] Hser.
  destruct (Serialize_Ok _ _ _ _ _ _ Hwd Hser)
    as (a & l & o & pre & Ha & Habs & _ & _ & Hfrom & _).
  destruct (serializeFrom_Ok _ _ _ _ _ _ Ha (Hwf _) Hfrom)
    as (cs & fileHashes & _ & Hname & _).
  exists a. split; [done|]. split; [done|].
  by rewrite Hname, Base_absOf.
Qed.

Lemma Serialize_ModelName_witness :
  exists m st',
    dir.Serialize Examples.world Examples.serializer "./x/../model/"
      (Examples.storeWith [] true false) = Some (Ok m, st')
    /\ dir.ModelName m = "model".
Proof.
  destruct (dir.Serialize Examples.world Examples.serializer "./x/../model/"
              (Examples.storeWith [] true false))
    as [[[m|e] st']|] eqn:Hr.
  - exists m, st'. split; [reflexivity|].
    destruct (Serialize_ModelName Examples.world Examples.serializer
                "./x/../model/" (Examples.storeWith [] true false) st' m)
      as (a & Ha & Habs & Hname); [|exact Hr|].
    + split; [intros d [= <-]|intros p]; vm_compute; reflexivity.
    + rewrite Hname.
      assert (Hs : filepath.Abs (dir.Getwd Examples.world) "./x/../model/"
                   = Ok (absOf ["home"; "user"; "model"]))
        by (vm_compute; reflexivity).
      assert (Ha' : absOf ["home"; "user"; "model"] = absOf a) by congruence.
      apply absOf_inj in Ha'; [by subst a| |done].
      repeat constructor.
  - vm_compute in Hr. discriminate Hr.
  - vm_compute in Hr. discriminate Hr.
Defined.

Section DigestRuns.

Import strings os walk dir options runtime.

(** The prefix of an error of [Serialize], whatever the options. *)
Lemma Serialize_Err_prefix w s modelPath (st st' : Store Options) e :
  unixWorld w ->
  Serialize w s modelPath st = Some (Err e, st') ->
  exists prefix e',
    e = wrapError prefix e'
    /\ (prefix = "failed to resolve model path: "
        \/ prefix = "failed to walk directory: "
        \/ prefix = "failed to hash files: ").
Proof.
  intros [Hwd Hwf] Hser.
  destruct (Serialize_inv _ _ _ _ _ _ Hser)
    as [(e0 & _ & [= ->] & _)|(absPath & l & o & Habs & Hopts & Hl)].
  - exists "failed to resolve model path: ", e0. split; [done|by left].
  - destruct (Serialize_run w s modelPath st absPath l o Habs Hopts Hl)
      as (pre & st1 & Hrun & _).
    rewrite Hrun in Hser. injection Hser as Hfrom _.
    destruct (Abs_absOf _ _ _ Hwd Habs) as (a & Ha & ->).
    destruct (serializeFrom_Err s o a _ Ha w e (Hwf _) Hfrom)
      as [(c & n & e' & _ & _ & _ & ->)|(cs & e' & _ & ->)].
    + exists "failed to walk directory: ", e'. split; [done|]. right. by left.
    + exists "failed to hash files: ", e'. split; [done|]. right. by right.
Qed.

Lemma New_runs (opts : option loc) (st : Store Options) :
  (forall l, opts = Some l -> is_Some (Structs st !! l)) ->
  exists l o st1,
    New opts st = Some ({| dir.opts := Some l |}, st1)
    /\ Structs st1 !! l = Some o /\ frame st st1.
Proof.
  intros Hopts. destruct opts as [l|].
  - destruct (Hopts l eq_refl) as [o Ho].
    exists l, o, st. split; [done|]. split; [done|]. apply frame_refl.
  - destruct (New_nil st) as (l0 & st1 & o0 & Hnew & Hl0 & _ & _ & _ & Hfr).
    by exists l0, o0, st1.
Qed.

End DigestRuns.

(** X14: [ComputeDigest] returns, with a digest or an error, and never
    panics, for a nil options pointer as for one that points to options;
    the options and the arrays the caller holds are then what they were
    before the call. *)
Theorem ComputeDigest_returns (w : dir.World) (modelPath : string)
  (opts : option runtime.loc) (st : runtime.Store options.Options) :
  (forall l, opts = Some l -> is_Some (runtime.Structs st !! l)) ->
  exists r st',
    dir.ComputeDigest w modelPath opts st = Some (r, st') /\ frame st st'.
Proof.
  intros Hopts.
  destruct (New_runs opts st Hopts) as (l & o & st1 & Hnew & Hl & Hfr).
  unfold dir.ComputeDigest. unfold runtime.bind at 1. rewrite Hnew.
  unfold runtime.bind.
  destruct (filepath.Abs (dir.Getwd w) modelPath) as [absPath|e] eqn:Habs.
  - destruct (Serialize_run w {| dir.opts := Some l |} modelPath st1 absPath
                l o Habs eq_refl Hl) as (pre & st2 & -> & Hfr2 & _).
    assert (Hfr' : frame st st2) by by apply frame_trans with st1.
    destruct (dir.serializeFrom _ _ _ _ _) as [m|e]; [|by eexists _, _].
    destruct (dir.ComputeRootDigest m); by eexists _, _.
  - unfold dir.Serialize. rewrite Habs. cbn [runtime.ret]. by eexists _, _.
Qed.

Lemma ComputeDigest_returns_witness :
  exists r st',
    dir.ComputeDigest Examples.world "model" None Examples.emptyStore
    = Some (r, st')
    /\ frame Examples.emptyStore st'.
Proof.
  apply (ComputeDigest_returns Examples.world "model" None Examples.emptyStore).
  intros l Hl. discriminate Hl.
Defined.

(** X15: the errors of [ComputeDigest] are those of [Serialize] and of
    [ComputeRootDigest], unchanged: a failure to resolve the model path,
    to walk the directory, to hash the files, or to decode the digest of
    an entry.  It never reports a missing sha256 digest. *)
Theorem ComputeDigest_errors (w : dir.World) (modelPath : string)
  (opts : option runtime.loc) (st st' : runtime.Store options.Options)
  (e : error) :
  unixWorld w ->
  dir.ComputeDigest w modelPath opts st = Some (Err e, st') ->
  exists prefix e',
    e = wrapError prefix e'
    /\ (prefix = "failed to resolve model path: "
        \/ prefix = "failed to walk directory: "
        \/ prefix = "failed to hash files: "
        \/ exists name, prefix = "failed to decode hash for " +:+ name +:+ ": ").
Proof.
  intros Hw. unfold dir.ComputeDigest. unfold runtime.bind at 1.
  destruct (dir.New opts st) as [[serializer st1]|] eqn:Hnew; [|done].
  unfold runtime.bind.
  destruct (dir.Serialize w serializer modelPath st1)
    as [[[manifest|e0] st2]|] eqn:Hser; [| |done].
  - destruct (dir.ComputeRootDigest manifest) as [rootDigest|e0] eqn:Hroot;
      [done|].
    intros [= <- _].
    pose proof (Serialize_keys _ _ _ _ _ _ Hw Hser) as Hkeys.
    destruct (ComputeRootDigest_keys _ _ Hkeys Hroot) as (f & e' & _ & ->).
    exists ("failed to decode hash for " +:+ dir.Name f +:+ ": "), e'.
    split; [done|]. do 3 right. by eexists.
  - intros [= <- _].
    destruct (Serialize_Err_prefix _ _ _ _ _ _ Hw Hser)
      as (prefix & e' & -> & Hp).
    exists prefix, e'. split; [done|]. tauto.
Qed.

Lemma ComputeDigest_errors_witness :
  exists e st',
    dir.ComputeDigest (Examples.worldOf Examples.treeWithLinks) "model" None
      Examples.emptyStore = Some (Err e, st')
    /\ exists prefix e', e = wrapError prefix e'.
Proof.
  destruct (dir.ComputeDigest (Examples.worldOf Examples.treeWithLinks) "model"
              None Examples.emptyStore) as [[[d|e] st']|] eqn:Hr.
  - vm_compute in Hr. discriminate Hr.
  - exists e, st'. split; [reflexivity|].
    destruct (ComputeDigest_errors (Examples.worldOf Examples.treeWithLinks)
                "model" None Examples.emptyStore st' e)
      as (prefix & e' & He & _); [|exact Hr|by exists prefix, e'].
    split; [intros d [= <-]|intros p]; vm_compute; reflexivity.
  - vm_compute in Hr. discriminate Hr.
Defined.


Section FreshFacts.

Context {V : Type}.

Lemma fresh_insert_ne (m : gmap nat V) k v : fresh (dom (<[k := v]> m)) ≠ k.
Proof.
  intros Heq. apply (is_fresh (dom (<[k := v]> m))). rewrite Heq.
  set_solver.
Qed.

Lemma fresh_insert_None (m : gmap nat V) k v :
  m !! fresh (dom (<[k := v]> m)) = None.
Proof.
  apply not_elem_of_dom. intros Hin.
  apply (is_fresh (dom (<[k := v]> m))). set_solver.
Qed.

End FreshFacts.

(** X16: each call of [options.Default] returns a pointer to options of
    its own: the pointers of two calls differ, and so do the backing
    arrays of their ignore paths; both point to the default values, and
    what the store held before is unchanged. *)
Theorem Default_independent (st st1 st2 : runtime.Store options.Options)
  (p1 p2 : option runtime.loc) :
  options.Default st = Some (p1, st1) ->
  options.Default st1 = Some (p2, st2) ->
  exists l1 l2 o1 o2,
    p1 = Some l1 /\ p2 = Some l2 /\ l1 ≠ l2
    /\ runtime.Structs st2 !! l1 = Some o1
    /\ runtime.Structs st2 !! l2 = Some o2
    /\ runtime.base (options.IgnorePaths o1)
       ≠ runtime.base (options.IgnorePaths o2)
    /\ runtime.elems st2 (options.IgnorePaths o1) = []
    /\ runtime.elems st2 (options.IgnorePaths o2) = []
    /\ options.IgnoreGitPaths o1 = true /\ options.IgnoreGitPaths o2 = true
    /\ options.AllowSymlinks o1 = false /\ options.AllowSymlinks o2 = false
    /\ frame st st2.
Proof.
  unfold options.Default, runtime.bind, runtime.make, runtime.new.
  intros [= <- <-] [= <- <-]. cbn [runtime.Structs runtime.Arrays].
  eexists _, _, _, _. split; [reflexivity|]. split; [reflexivity|].
  split; [apply not_eq_sym, fresh_insert_ne|].
  split; [by rewrite lookup_insert_ne, lookup_insert_eq
            by apply fresh_insert_ne|].
  split; [by rewrite lookup_insert_eq|].
  cbn [options.IgnorePaths options.IgnoreGitPaths options.AllowSymlinks
       runtime.base].
  split.
  { intros Heq. injection Heq as Heq. symmetry in Heq.
    by apply fresh_insert_ne in Heq. }
  unfold runtime.elems. cbn [runtime.base runtime.len take].
  repeat (split; [done|]).
  split; cbn [runtime.Structs runtime.Arrays]; intros l v Hv.
  - rewrite !lookup_insert_ne; [done|..].
    + intros <-. by rewrite fresh_struct_None in Hv.
    + intros <-. by rewrite fresh_insert_None in Hv.
  - rewrite !lookup_insert_ne; [done|..].
    + intros <-. by rewrite fresh_array_None in Hv.
    + intros <-. by rewrite fresh_insert_None in Hv.
Qed.

Lemma Default_independent_witness :
  exists p1 p2 st1 st2,
    options.Default Examples.emptyStore = Some (p1, st1)
    /\ options.Default st1 = Some (p2, st2)
    /\ p1 ≠ p2.
Proof.
  destruct (options.Default Examples.emptyStore) as [[p1 st1]|] eqn:H1;
    [|discriminate H1].
  destruct (options.Default st1) as [[p2 st2]|] eqn:H2; [|discriminate H2].
  exists p1, p2, st1, st2. split; [reflexivity|]. split; [exact H2|].
  destruct (Default_independent Examples.emptyStore st1 st2 p1 p2 H1 H2)
    as (l1 & l2 & o1 & o2 & -> & -> & Hne & _).
  congruence.
Defined.

Section SpecifierMore.

Import strings os walk dir options runtime.

Local Abbreviation valid := (Forall (fun e => validName e = true)).

(** The loop of [shouldIgnore] answers true exactly when one of the
    specifiers matches. *)
Lemma ignoreLoop_true relPath root ig :
  ignoreLoop relPath root ig = true
  <-> exists x checkPath,
        x ∈ ig /\ checkPathOf root x = Some checkPath
        /\ (relPath = checkPath
            \/ HasPrefix relPath (checkPath +:+ "/") = true).
Proof.
  induction ig as [|y ig IH]; cbn [ignoreLoop].
  - split; [done|]. intros (x & cp & Hin & _). by apply elem_of_nil in Hin.
  - split.
    + destruct (checkPathOf root y) as [cp|] eqn:Hcp.
      * destruct (bool_decide (relPath = cp)) eqn:Heq.
        { intros _. exists y, cp. apply bool_decide_eq_true in Heq.
          split; [apply list_elem_of_here|]. split; [done|by left]. }
        destruct (HasPrefix relPath (cp +:+ "/")) eqn:Hp.
        { intros _. exists y, cp.
          split; [apply list_elem_of_here|]. split; [done|by right]. }
        cbn [orb]. intros (x & cp' & Hin & Hrest)%IH.
        exists x, cp'. split; [by apply list_elem_of_further|done].
      * intros (x & cp' & Hin & Hrest)%IH.
        exists x, cp'. split; [by apply list_elem_of_further|done].
    + intros (x & cp & Hin & Hcp & Hm).
      apply elem_of_cons in Hin as [-> | Hin].
      * rewrite Hcp. destruct Hm as [-> | ->].
        { by rewrite bool_decide_eq_true_2. }
        by rewrite orb_true_r.
      * assert (Hrest : ignoreLoop relPath root ig = true)
          by (apply IH; by exists x, cp).
        rewrite Hrest. destruct (checkPathOf root y); [|done].
        by case_match.
Qed.

Lemma ignoreLoop_same relPath root ig1 ig2 :
  (forall x, x ∈ ig1 <-> x ∈ ig2) ->
  ignoreLoop relPath root ig1 = ignoreLoop relPath root ig2.
Proof.
  intros Hsame. apply eq_true_iff_eq. rewrite !ignoreLoop_true.
  split; intros (x & cp & Hin & Hrest); exists x, cp;
    (split; [by apply Hsame|done]).
Qed.

(** A relative specifier is checked as it is written. *)
Lemma checkPathOf_relative root ignore :
  filepath.IsAbs ignore = false -> checkPathOf root ignore = Some ignore.
Proof.
  intros Hrel. unfold checkPathOf.
  change (filepath.ToSlash ignore) with ignore. by rewrite Hrel.
Qed.

(** An absolute specifier that names an entry under the root is
    checked as the root-relative path of the entry, unless that path
    begins with two dots. *)
Lemma checkPathOf_under a r :
  valid a -> valid r ->
  HasPrefix (relOf r) ".." = false ->
  checkPathOf (absOf a) (absOf (a ++ r)) = Some (relOf r).
Proof.
  intros Ha Hr Hdots. unfold checkPathOf.
  change (filepath.ToSlash (absOf (a ++ r))) with (absOf (a ++ r)).
  rewrite IsAbs_absOf, Rel_under by done. by rewrite Hdots.
Qed.

Lemma Split_relOf c : valid c -> Split (relOf c) = if decide (c = []) then ["."] else c.
Proof.
  intros Hc. destruct c as [|x c]; [done|].
  by rewrite relOf_valid_Split.
Qed.

(** What a specifier matches has the elements of the specifier
    first. *)
Lemma match_prefix c checkPath :
  relOf c = checkPath \/ HasPrefix (relOf c) (checkPath +:+ "/") = true ->
  Split checkPath `prefix_of` Split (relOf c).
Proof.
  intros [<-|[t Ht]%HasPrefix_spec]; [done|].
  rewrite Ht, append_assoc, Split_app_sep. by apply prefix_app_r.
Qed.

Lemma relOf_relative r : valid r -> filepath.IsAbs (relOf r) = false.
Proof. apply relOf_no_slash. Qed.

Lemma match_elements r c :
  valid r -> valid c -> r ≠ [] ->
  (relOf c = relOf r \/ HasPrefix (relOf c) (relOf r +:+ "/") = true)
  <-> r `prefix_of` c.
Proof.
  intros Hr Hc Hne. split.
  - intros Hm%match_prefix. rewrite !Split_relOf in Hm by done.
    rewrite (decide_False (P := r = [])) in Hm by done.
    destruct (decide (c = [])) as [->|]; [|done].
    destruct Hm as [k Hk]. destruct r as [|x [|y r]]; [done| |done].
    injection Hk as <- _. inversion_clear Hr as [|? ? Hv _].
    by vm_compute in Hv.
  - intros [k ->]. destruct k as [|y k].
    + left. by rewrite app_nil_r.
    + right. rewrite relOf_app by done. rewrite <- append_assoc.
      apply HasPrefix_app.
Qed.

End SpecifierMore.

(** X17: a relative specifier that names the entry at the elements [r]
    below the root makes [shouldIgnore] answer true for that entry and
    for everything beneath it, and for nothing else: an entry whose name
    merely starts with the characters of the specifier is not
    ignored. *)
Theorem shouldIgnore_relative (s : dir.Serializer) (a r c : list string) :
  Forall (fun e => validName e = true) a ->
  Forall (fun e => validName e = true) r ->
  Forall (fun e => validName e = true) c ->
  r ≠ [] ->
  dir.shouldIgnore s (absOf (a ++ c)) (absOf a) [relOf r]
  = Ok (bool_decide (r `prefix_of` c)).
Proof.
  intros Ha Hr Hc Hne.
  rewrite (shouldIgnore_single s _ _ _ (relOf c) (relOf r)).
  - f_equal. apply eq_true_iff_eq.
    rewrite orb_true_iff, !bool_decide_eq_true.
    by apply match_elements.
  - by apply Rel_under.
  - apply checkPathOf_relative. by apply relOf_relative.
Qed.

Lemma shouldIgnore_relative_witness :
  dir.shouldIgnore Examples.serializer (absOf (["m"] ++ ["model.bin"]))
    (absOf ["m"]) [relOf ["model"]]
  = Ok (bool_decide (["model"] `prefix_of` ["model.bin"]))
  /\ bool_decide (["model"] `prefix_of` ["model.bin"]) = false.
Proof.
  split.
  - apply (shouldIgnore_relative Examples.serializer ["m"] ["model"]
             ["model.bin"]); [repeat constructor..|discriminate].
  - apply bool_decide_eq_false. intros [k Hk]. discriminate Hk.
Defined.

(** X18: an absolute specifier that names an entry under the root (or
    the root itself) acts like the relative specifier for the same
    entry, provided the root-relative path of the entry does not begin
    with two dots. *)
Theorem shouldIgnore_absolute (s : dir.Serializer) (a r : list string)
  (path : string) (ig : list string) :
  Forall (fun e => validName e = true) a ->
  Forall (fun e => validName e = true) r ->
  strings.HasPrefix (relOf r) ".." = false ->
  dir.shouldIgnore s path (absOf a) (absOf (a ++ r) :: ig)
  = dir.shouldIgnore s path (absOf a) (relOf r :: ig).
Proof.
  intros Ha Hr Hdots. unfold dir.shouldIgnore.
  destruct (filepath.Rel (absOf a) path) as [relPath|e]; [|done].
  cbn [dir.ignoreLoop].
  rewrite checkPathOf_under by done.
  by rewrite checkPathOf_relative by by apply relOf_relative.
Qed.

Lemma shouldIgnore_absolute_witness :
  dir.shouldIgnore Examples.serializer "/m/sub/x" (absOf ["m"])
    [absOf (["m"] ++ ["sub"])]
  = dir.shouldIgnore Examples.serializer "/m/sub/x" (absOf ["m"])
      [relOf ["sub"]].
Proof.
  apply (shouldIgnore_absolute Examples.serializer ["m"] ["sub"] "/m/sub/x" []);
    [repeat constructor..|reflexivity].
Defined.

(** X19: a relative specifier is compared as it is written.  One that is
    not in the form of a cleaned path (it ends with a slash, starts with
    [./], or has an empty, [.] or [..] element) and is not [.] matches
    no path of the tree: [shouldIgnore] answers false. *)
Theorem shouldIgnore_unclean (s : dir.Serializer) (a c : list string)
  (ignore : string) :
  Forall (fun e => validName e = true) a ->
  Forall (fun e => validName e = true) c ->
  filepath.IsAbs ignore = false ->
  ignore ≠ "." ->
  forallb validName (strings.Split ignore) = false ->
  dir.shouldIgnore s (absOf (a ++ c)) (absOf a) [ignore] = Ok false.
Proof.
  intros Ha Hc Hrel Hdot Hunclean.
  rewrite (shouldIgnore_single s _ _ _ (relOf c) ignore);
    [|by apply Rel_under|by apply checkPathOf_relative].
  f_equal. apply not_true_is_false. intros Hm.
  apply orb_true_iff in Hm. rewrite bool_decide_eq_true in Hm.
  pose proof (match_prefix c ignore Hm) as [k Hk].
  rewrite Split_relOf in Hk by done.
  destruct (decide (c = [])) as [->|Hne].
  - destruct (strings.Split ignore) as [|x [|y rest]] eqn:Hs.
    + by apply Split_nonempty in Hs.
    + injection Hk as <- _.
      destruct Hm as [Hm|Hm]; [done|].
      apply HasPrefix_spec in Hm as [t Ht].
      apply (f_equal strings.Split) in Ht.
      rewrite append_assoc, Split_app_sep, Hs in Ht.
      pose proof (Split_nonempty t). by destruct (strings.Split t).
    + done.
  - assert (Hall : Forall (fun e => validName e = true) (strings.Split ignore)).
    { rewrite Hk in Hc. by apply Forall_app in Hc as [? _]. }
    assert (Hb : forallb validName (strings.Split ignore) = true).
    { apply forallb_forall. intros x Hin. rewrite Forall_forall in Hall.
      apply Hall. by apply list_elem_of_In. }
    congruence.
Qed.

Lemma shouldIgnore_unclean_witness :
  dir.shouldIgnore Examples.serializer (absOf (["m"] ++ ["subdir"; "x"]))
    (absOf ["m"]) ["subdir/"]
  = Ok false.
Proof.
  apply (shouldIgnore_unclean Examples.serializer ["m"] ["subdir"; "x"]
           "subdir/"); [repeat constructor..| | | ].
  - reflexivity.
  - discriminate.
  - reflexivity.
Defined.

Section WalkExt.

Import strings os walk dir options runtime.

Context {S : Type} (fn1 fn2 : WalkFunc S).
Hypothesis Hfn : forall path info err st, fn1 path info err st = fn2 path info err st.

Lemma walkLoop_ext es :
  Forall (fun e => forall path st,
            walk fn1 path (snd e) st = walk fn2 path (snd e) st) es ->
  forall path st, walkLoop fn1 path es st = walkLoop fn2 path es st.
Proof.
  induction es as [|[name child] es IHes]; intros IH path st; [done|].
  inversion_clear IH as [|? ? IHc IHes']. cbn [snd] in IHc.
  rewrite !walkLoop_cons, IHc.
  destruct (walk fn2 _ child st) as [[e|] st']; [|by apply IHes].
  destruct (propagates child || negb (bool_decide (e = SkipDir)));
    [done|by apply IHes].
Qed.

(** The walk depends on its callback only through the callback's
    results. *)
Lemma walk_ext n : forall path st, walk fn1 path n st = walk fn2 path n st.
Proof.
  induction n as [es IH|n Hleaf] using node_ind'; intros path st.
  - rewrite !walk_Directory, Hfn.
    destruct (fn2 path _ None st) as [[e|] st1]; [done|].
    by apply walkLoop_ext.
  - destruct n as [|es|msg| |k|msg]; cbn [walk]; try apply Hfn.
    by destruct (Hleaf es).
Qed.

End WalkExt.

Section IgnoreSets.

Import strings os walk dir options runtime.

Lemma serializeFrom_same w s o absPath ig1 ig2 :
  (forall x, x ∈ ig1 <-> x ∈ ig2) ->
  serializeFrom w s o absPath ig1 = serializeFrom w s o absPath ig2.
Proof.
  intros Hsame. unfold serializeFrom, Walk.
  rewrite (walk_ext (walkFn s o absPath ig1) (walkFn s o absPath ig2)); [done|].
  intros path info err st. unfold walkFn, shouldIgnore.
  destruct (filepath.Rel absPath path) as [relPath|e]; [|done].
  by rewrite (ignoreLoop_same _ _ ig1 ig2 Hsame).
Qed.

End IgnoreSets.

(** X20: the ignore paths act as a set.  Two serializers whose options
    agree on the two flags and whose ignore paths have the same
    elements, in whatever order and however often repeated, return the
    same manifest or the same error for every model path. *)
Theorem Serialize_ignore_set (w : dir.World) (s1 s2 : dir.Serializer)
  (modelPath : string) (st1 st2 : runtime.Store options.Options)
  (l1 l2 : runtime.loc) (o1 o2 : options.Options) :
  dir.opts s1 = Some l1 -> runtime.Structs st1 !! l1 = Some o1 ->
  validSlice st1 (options.IgnorePaths o1) ->
  dir.opts s2 = Some l2 -> runtime.Structs st2 !! l2 = Some o2 ->
  validSlice st2 (options.IgnorePaths o2) ->
  options.IgnoreGitPaths o1 = options.IgnoreGitPaths o2 ->
  options.AllowSymlinks o1 = options.AllowSymlinks o2 ->
  (forall x, x ∈ runtime.elems st1 (options.IgnorePaths o1)
             <-> x ∈ runtime.elems st2 (options.IgnorePaths o2)) ->
  fst <$> dir.Serialize w s1 modelPath st1
  = fst <$> dir.Serialize w s2 modelPath st2.
Proof.
  intros Hs1 Hl1 Hv1 Hs2 Hl2 Hv2 Hgit Hsym Hsame.
  destruct (filepath.Abs (dir.Getwd w) modelPath) as [absPath|e] eqn:Habs.
  - destruct (Serialize_run_effective _ _ _ _ _ _ _ Habs Hs1 Hl1 Hv1)
      as [st1' ->].
    destruct (Serialize_run_effective _ _ _ _ _ _ _ Habs Hs2 Hl2 Hv2)
      as [st2' ->].
    cbn [fmap option_fmap option_map fst]. f_equal.
    rewrite (serializeFrom_ext w s1 s2 o1 o2) by done.
    apply serializeFrom_same. intros x. unfold effectiveIgnore, gitIgnores.
    rewrite Hgit, !elem_of_app. by rewrite Hsame.
  - unfold dir.Serialize. by rewrite Habs.
Qed.

Lemma Serialize_ignore_set_witness :
  fst <$> dir.Serialize Examples.world Examples.serializer "model"
            (Examples.storeWith ["subdir"; "pipe"] true false)
  = fst <$> dir.Serialize Examples.world Examples.serializer "model"
              (Examples.storeWith ["pipe"; "subdir"; "pipe"] true false).
Proof.
  apply (Serialize_ignore_set Examples.world Examples.serializer
           Examples.serializer "model"
           (Examples.storeWith ["subdir"; "pipe"] true false)
           (Examples.storeWith ["pipe"; "subdir"; "pipe"] true false)
           0%nat 0%nat
           (Examples.optionsOf ["subdir"; "pipe"] true false)
           (Examples.optionsOf ["pipe"; "subdir"; "pipe"] true false)).
  - reflexivity.
  - reflexivity.
  - exists ["subdir"; "pipe"]. split; [reflexivity|]. cbn. lia.
  - reflexivity.
  - reflexivity.
  - exists ["pipe"; "subdir"; "pipe"]. split; [reflexivity|]. cbn. lia.
  - reflexivity.
  - reflexivity.
  - intros x.
    change (runtime.elems (Examples.storeWith ["subdir"; "pipe"] true false)
              (options.IgnorePaths (Examples.optionsOf ["subdir"; "pipe"] true false)))
      with ["subdir"; "pipe"].
    change (runtime.elems (Examples.storeWith ["pipe"; "subdir"; "pipe"] true false)
              (options.IgnorePaths
                 (Examples.optionsOf ["pipe"; "subdir"; "pipe"] true false)))
      with ["pipe"; "subdir"; "pipe"].
    rewrite !elem_of_cons, !elem_of_nil. tauto.
Defined.

Section ArrayFlags.

Import runtime.

Lemma strings_Join_slash es : strings_Join es "/" = strings.Join es.
Proof.
  induction es as [|e [|e' es] IH]; [done..|].
  cbn [strings_Join strings.Join] in *. by rewrite IH.
Qed.

Lemma append_elems {T} grow (st : Store T) s x :
  capSlice st s ->
  exists s' st',
    append grow s x st = Some (s', st')
    /\ Structs st' = Structs st
    /\ capSlice st' s'
    /\ elems st' s' = elems st s ++ [x].
Proof.
  unfold capSlice, append, elems. destruct (base s) as [l|] eqn:Hb.
  - intros (arr & Harr & Hcap & Hlen). rewrite Harr. cbn [default].
    unfold id.
    destruct (Nat.ltb (len s) (cap s)) eqn:Hlt.
    + apply Nat.ltb_lt in Hlt. eexists _, _. split; [done|].
      cbn [base off len cap Arrays Structs]. split; [done|].
      rewrite lookup_alter_eq, Harr. cbn [fmap option_fmap option_map default].
      split.
      * eexists. split; [done|]. rewrite length_insert. lia.
      * unfold id. rewrite drop_insert_ge by lia.
        replace (off s + len s - off s)%nat with (len s) by lia.
        rewrite (take_S_r _ _ x).
        { f_equal. rewrite take_insert_ge; [done|lia]. }
        apply list_lookup_insert_eq. rewrite length_drop. lia.
    + apply Nat.ltb_ge in Hlt. eexists _, _. split; [done|].
      cbn [base off len cap Arrays Structs]. split; [done|].
      rewrite lookup_insert_eq. cbn [default].
      assert (Hl : length (take (len s) (drop (off s) arr)) = len s)
        by (rewrite length_take, length_drop; lia).
      split.
      * eexists. split; [done|].
        rewrite length_app. cbn [length]. rewrite length_replicate, Hl. lia.
      * unfold id. rewrite drop_0, take_app_ge by lia. rewrite Hl.
        replace (S (len s) - len s)%nat with 1%nat by lia. done.
  - intros Hlen. eexists _, _. split; [done|].
    cbn [base off len cap Arrays Structs]. split; [done|].
    rewrite lookup_insert_eq. cbn [default]. rewrite Hlen. split.
    + eexists. split; [done|]. cbn [app length]. rewrite length_replicate. lia.
    + done.
Qed.

Lemma Set_appends grow (st : Store slice) l s value :
  Structs st !! l = Some s -> capSlice st s ->
  exists s' st',
    arrayFlags_Set grow (Some l) value st = Some (None, st')
    /\ Structs st' !! l = Some s'
    /\ capSlice st' s'
    /\ elems st' s' = elems st s ++ [value].
Proof.
  intros Hl Hcap.
  destruct (append_elems grow st s value Hcap)
    as (s' & st1 & Happ & Hst & Hcap' & Hel).
  unfold arrayFlags_Set, bind, load, assign, ret. rewrite Hl, Happ, Hst, Hl.
  eexists s', _. split; [done|]. cbn [Structs].
  split; [apply lookup_insert_eq|]. by split.
Qed.

End ArrayFlags.

(** X21: the repeatable flag accumulates its values in order.  After
    [Set] has been called with each of the values [vs] on a variable
    that held the elements [es], every call has returned a nil error and
    [String] returns the old and the new elements joined by commas. *)
Theorem arrayFlags_Set_String (grow : nat -> nat -> nat)
  (vs : list string) (st : runtime.Store runtime.slice) (l : runtime.loc)
  (s : runtime.slice) :
  runtime.Structs st !! l = Some s -> capSlice st s ->
  exists st',
    runtime.forEach (fun (_ : option error) value =>
                       arrayFlags_Set grow (Some l) value) None vs st
    = Some (None, st')
    /\ arrayFlags_String (Some l) st'
       = Some (strings_Join (runtime.elems st s ++ vs) ",", st').
Proof.
  revert st s. induction vs as [|v vs IH]; intros st s Hl Hcap.
  - exists st. split; [done|].
    unfold arrayFlags_String, runtime.bind, runtime.load, runtime.range,
      runtime.ret.
    by rewrite Hl, app_nil_r.
  - destruct (Set_appends grow st l s v Hl Hcap)
      as (s' & st1 & Hset & Hl' & Hcap' & Hel).
    destruct (IH st1 s' Hl' Hcap') as (st' & Hrun & Hstr).
    exists st'. cbn [runtime.forEach]. unfold runtime.bind at 1.
    rewrite Hset. split; [done|].
    by rewrite Hstr, Hel, <- app_assoc.
Qed.

Lemma arrayFlags_Set_String_witness :
  exists st',
    runtime.forEach (fun (_ : option error) value =>
                       arrayFlags_Set (fun c _ => (2 * c)%nat) (Some 0%nat) value)
      None [".git"; "cache"; "tmp"]
      (runtime.MkStore ∅ {[ 0%nat := runtime.nilSlice ]})
    = Some (None, st')
    /\ arrayFlags_String (Some 0%nat) st'
       = Some (strings_Join
                 (runtime.elems
                    (runtime.MkStore ∅ {[ 0%nat := runtime.nilSlice ]})
                    runtime.nilSlice ++ [".git"; "cache"; "tmp"]) ",", st').
Proof.
  apply (arrayFlags_Set_String (fun c _ => (2 * c)%nat) [".git"; "cache"; "tmp"]
           (runtime.MkStore ∅ {[ 0%nat := runtime.nilSlice ]}) 0%nat
           runtime.nilSlice).
  - reflexivity.
  - reflexivity.
Defined.

Section Reuse.

Import runtime.

Lemma frame_elems {T} (st st' : Store T) sl :
  frame st st' -> validSlice st sl ->
  elems st' sl = elems st sl /\ validSlice st' sl.
Proof.
  intros [_ Ha]. unfold validSlice, elems.
  destruct (base sl) as [l|]; [|done].
  intros (arr & Hl & Hlen). rewrite (Ha _ _ Hl), Hl. split; [done|].
  by exists arr.
Qed.

End Reuse.

(** X22: a serializer can be used again.  A second call of [Serialize]
    with the same path, in the store the first call left, returns what
    the first call returned. *)
Theorem Serialize_again (w : dir.World) (s : dir.Serializer)
  (modelPath : string) (st st' : runtime.Store options.Options)
  (l : runtime.loc) (o : options.Options) (r : Result dir.Manifest) :
  dir.opts s = Some l -> runtime.Structs st !! l = Some o ->
  validSlice st (options.IgnorePaths o) ->
  dir.Serialize w s modelPath st = Some (r, st') ->
  exists st'', dir.Serialize w s modelPath st' = Some (r, st'').
Proof.
  intros Hopts Hl Hvalid Hser.
  destruct (filepath.Abs (dir.Getwd w) modelPath) as [absPath|e] eqn:Habs.
  - destruct (Serialize_run w s modelPath st absPath l o Habs Hopts Hl)
      as (pre & st1 & Hrun & Hfr & _ & Hpre).
    rewrite Hrun in Hser. injection Hser as <- <-.
    destruct (frame_elems st st1 _ Hfr Hvalid) as [Hel Hvalid'].
    destruct Hfr as [Hs _].
    destruct (Serialize_run w s modelPath st1 absPath l o Habs Hopts
                (Hs _ _ Hl)) as (pre' & st2 & Hrun' & _ & _ & Hpre').
    exists st2. by rewrite Hrun', (Hpre' Hvalid'), Hel, <- (Hpre Hvalid).
  - unfold dir.Serialize in *. rewrite Habs in *. cbn [runtime.ret] in *.
    injection Hser as <- <-. by eexists.
Qed.

Lemma Serialize_again_witness :
  exists r st' st'',
    dir.Serialize Examples.world Examples.serializer "model"
      (Examples.storeWith ["pipe"] true false) = Some (r, st')
    /\ dir.Serialize Examples.world Examples.serializer "model" st'
       = Some (r, st'').
Proof.
  destruct (dir.Serialize Examples.world Examples.serializer "model"
              (Examples.storeWith ["pipe"] true false))
    as [[r st']|] eqn:Hr.
  - destruct (Serialize_again Examples.world Examples.serializer "model"
                (Examples.storeWith ["pipe"] true false) st' 0%nat
                (Examples.optionsOf ["pipe"] true false) r)
      as [st'' Hs].
    + reflexivity.
    + reflexivity.
    + exists ["pipe"]. split; [reflexivity|]. cbn. lia.
    + exact Hr.
    + exists r, st', st''. split; [reflexivity|exact Hs].
  - vm_compute in Hr. discriminate Hr.
Defined.

(** X23: [Serialize] does not check that the hasher reported a digest
    for each file it was given.  A regular file that is kept and for
    which the hasher's result has no entry still gets an entry in the
    manifest, with the empty string as its sha256 digest. *)
Theorem Serialize_unhashed (w : dir.World) (s : dir.Serializer)
  (modelPath : string) (st st' : runtime.Store options.Options)
  (m : dir.Manifest) (l : runtime.loc) (o : options.Options)
  (a c : list string) :
  unixWorld w ->
  dir.Serialize w s modelPath st = Some (Ok m, st') ->
  dir.opts s = Some l -> runtime.Structs st !! l = Some o ->
  validSlice st (options.IgnorePaths o) ->
  Forall (fun e => validName e = true) a ->
  filepath.Abs (dir.Getwd w) modelPath = Ok (absOf a) ->
  fileAt (dir.Tree w (absOf a)) c os.Regular ->
  kept (absOf a) (effectiveIgnore st o (absOf a)) c ->
  (forall files h, dir.HashFiles w files = Ok h -> h !! absOf (a ++ c) = None) ->
  {| dir.Name := relOf c; dir.Digest := {[ "sha256" := "" ]} |} ∈ dir.Files m.
Proof.
  intros Hw Hser Hopts Hl Hvalid Ha Habs Hat Hkept Hnone.
  destruct (Serialize_Ok_effective _ _ _ _ _ _ _ _ _ Hw Hser Hopts Hl Hvalid Habs)
    as (a' & Ha' & Heq & Hwf & Hfrom).
  apply absOf_inj in Heq; [|done..]. subst a'.
  destruct (serializeFrom_Ok _ _ _ _ _ _ Ha Hwf Hfrom)
    as (cs & fileHashes & Hfiles & _ & Hh & _ & _ & Hc).
  rewrite Hfiles, sortSlice_perm. apply list_elem_of_fmap.
  exists c. split; [|by apply Hc].
  unfold entryOf. by rewrite (Hnone _ _ Hh).
Qed.

Lemma Serialize_unhashed_witness :
  exists m st',
    dir.Serialize unhashedWorld
      Examples.serializer "model" (Examples.storeWith [] true false)
    = Some (Ok m, st')
    /\ {| dir.Name := relOf ["model.bin"]; dir.Digest := {[ "sha256" := "" ]} |}
       ∈ dir.Files m.
Proof.
  destruct (dir.Serialize unhashedWorld
              Examples.serializer "model" (Examples.storeWith [] true false))
    as [[[m|e] st']|] eqn:Hr.
  - exists m, st'. split; [reflexivity|].
    apply (Serialize_unhashed unhashedWorld Examples.serializer "model"
             (Examples.storeWith [] true false) st' m 0%nat
             (Examples.optionsOf [] true false) ["home"; "user"; "model"]
             ["model.bin"]).
    + split; [intros d [= <-]|intros p]; vm_compute; reflexivity.
    + exact Hr.
    + reflexivity.
    + reflexivity.
    + exists []. split; [reflexivity|]. cbn. lia.
    + repeat constructor.
    + vm_compute. reflexivity.
    + apply fileAt_entry with os.Regular; [apply list_elem_of_here|constructor].
    + apply keptb_kept. vm_compute. reflexivity.
    + intros files h [= <-]. apply lookup_empty.
  - vm_compute in Hr. discriminate Hr.
  - vm_compute in Hr. discriminate Hr.
Defined.
